(** * specialcharstweak: the whitelist patcher of Il2CppInspectorRedux-UnicodeFix

    A shallow embedding of [!specialcharstweak.py] together with the parts of
    the Python standard library the script runs on ([str.replace], [re.sub],
    [re.findall], [os.path], [os.walk], text-mode file access), followed by
    the properties of the script that its specification states. *)

From Stdlib Require Import NArith Strings.String Strings.Ascii Strings.Byte Lia.
From stdpp Require Import base option list gmap.

(** ** Text

    A Python [str] is a sequence of Unicode code points.  Code points are
    natural numbers; [U] reads a string literal as a [str]. *)

Abbreviation char := N (only parsing).
Abbreviation str := (list N) (only parsing).

Definition U (s : string) : str := N_of_ascii <$> list_ascii_of_string s.

Definition NL : char := 10%N.
Definition CR : char := 13%N.
Definition DQUOTE : char := 34%N.
Definition SQUOTE : char := 39%N.
Definition BACKSLASH : char := 92%N.

Definition char_eqb (a b : char) : bool := bool_decide (a = b).
Definition str_eqb (a b : str) : bool := bool_decide (a = b).

(** [s.startswith(p)] *)
Fixpoint startswith (p s : str) : bool :=
  match p, s with
  | [], _ => true
  | a :: p', b :: s' => char_eqb a b && startswith p' s'
  | _ :: _, [] => false
  end.

(** ** [str.replace]

    [replace_from old new skip s] copies [s], replacing from left to right
    every occurrence of the non-empty text [old] that does not overlap an
    earlier one; [skip] counts the characters of [s] that still belong to the
    occurrence replaced last. *)
Fixpoint replace_from (old new : str) (skip : nat) (s : str) : str :=
  match s with
  | [] => []
  | c :: s' =>
      match skip with
      | S k => replace_from old new k s'
      | O =>
          if startswith old s
          then new ++ replace_from old new (length old - 1) s'
          else c :: replace_from old new 0 s'
      end
  end.

(** [s.replace(old, new)]; an empty [old] matches before every character and
    at the end. *)
Definition replace (s old new : str) : str :=
  match old with
  | [] => new ++ (s ≫= λ c, c :: new)
  | _ :: _ => replace_from old new 0 s
  end.

(** ** [escape_str] (lines 5-10) *)
Definition escape_str (s : str) (single_quote : bool) : str :=
  let escaped := replace (replace s (U "\") (U "\\")) (U "\n") (U "\\n") in
  if single_quote
  then replace escaped [SQUOTE] [BACKSLASH; SQUOTE]
  else replace escaped [DQUOTE] [BACKSLASH; DQUOTE].

(** Reading the body of a quoted literal from left to right, a backslash
    forms an escape pair with the character after it: the backslash is the
    mark of the escape, the character after it is the escaped one.
    [unescaped c s] tells whether [c] occurs in [s] outside such a pair; for
    the backslash itself this is a backslash at the very end, with nothing
    left to pair with. *)
Fixpoint unescaped (c : char) (s : str) : bool :=
  match s with
  | [] => false
  | x :: s' =>
      if char_eqb x BACKSLASH
      then match s' with
           | [] => char_eqb c BACKSLASH
           | _ :: s'' => unescaped c s''
           end
      else char_eqb x c || unescaped c s'
  end.

(** ** Regular expressions ([re])

    The three patterns of the script use literal text, the dot, a negated
    character set, the greedy star over a one-character item, alternation and
    numbered groups.  [regex] is the syntax tree [re.compile] builds for such
    patterns. *)
Inductive cset :=
| CDot                       (* [.]: any character but a newline *)
| CNot (cs : list char)      (* [[^...]] *)
| CChar (c : char).

Inductive regex :=
| RLit (s : str)             (* literal text *)
| ROne (c : cset)            (* one character of a set *)
| RStar (c : cset)           (* [x*], greedy *)
| RSeq (r1 r2 : regex)
| RAlt (r1 r2 : regex)       (* [r1|r2], [r1] tried first *)
| RGroup (n : nat) (r : regex).

Definition in_cset (c : cset) (x : char) : bool :=
  match c with
  | CDot => negb (char_eqb x NL)
  | CNot cs => negb (bool_decide (x ∈ cs))
  | CChar y => char_eqb x y
  end.

(** Number of capturing groups. *)
Fixpoint groups (r : regex) : nat :=
  match r with
  | RLit _ | ROne _ | RStar _ => 0
  | RSeq r1 r2 | RAlt r1 r2 => groups r1 + groups r2
  | RGroup _ r1 => S (groups r1)
  end.

(** Captured groups: number and text, latest capture first. *)
Abbreviation caps := (list (nat * list N)) (only parsing).

Fixpoint group (cs : caps) (n : nat) : option str :=
  match cs with
  | [] => None
  | (k, t) :: cs' => if bool_decide (k = n) then Some t else group cs' n
  end.

(** [strip p s]: what is left of [s] after the prefix [p]. *)
Fixpoint strip (p s : str) : option str :=
  match p, s with
  | [], _ => Some s
  | a :: p', b :: s' => if char_eqb a b then strip p' s' else None
  | _ :: _, [] => None
  end.

(** The backtracking matcher, in continuation-passing style: [k] receives
    what is left of the subject and the groups captured so far, and answers
    [None] to ask for the next alternative.  The greedy star takes as many
    characters as it can and gives them back one at a time. *)
Fixpoint star {A} (p : char → bool) (s : str) (k : str → option A) : option A :=
  match s with
  | x :: s' =>
      if p x
      then match star p s' k with
           | Some r => Some r
           | None => k s
           end
      else k s
  | [] => k s
  end.

Fixpoint exec {A} (r : regex) (s : str) (cs : caps)
    (k : str → caps → option A) : option A :=
  match r with
  | RLit t => match strip t s with Some s' => k s' cs | None => None end
  | ROne c =>
      match s with
      | x :: s' => if in_cset c x then k s' cs else None
      | [] => None
      end
  | RStar c => star (in_cset c) s (λ s', k s' cs)
  | RSeq r1 r2 => exec r1 s cs (λ s1 c1, exec r2 s1 c1 k)
  | RAlt r1 r2 =>
      match exec r1 s cs k with
      | Some x => Some x
      | None => exec r2 s cs k
      end
  | RGroup n r1 =>
      exec r1 s cs (λ s1 c1, k s1 ((n, take (length s - length s1) s) :: c1))
  end.

(** One attempt at the head of [s]: the rest of the subject after the match,
    and the groups.  With [must_advance] an empty match is refused. *)
Definition match_at (must_advance : bool) (r : regex) (s : str)
    : option (str * list (nat * list N)) :=
  exec r s [] (λ s' cs,
    if must_advance && bool_decide (length s' = length s)
    then None else Some (s', cs)).

(** A match: the matched text (group 0) and the numbered groups. *)
Record rmatch := { m_text : str; m_groups : list (nat * list N) }.

(** What a left-to-right search for all non-overlapping matches finds: the
    characters outside any match, and the matches, in order. *)
Inductive piece :=
| Ch (c : char)
| Match (m : rmatch).

Definition matched (s rest : str) (cs : caps) : rmatch :=
  {| m_text := take (length s - length rest) s; m_groups := cs |}.

(** [scan r skip s]: the search loop shared by [re.sub] and [re.findall].
    After a match the search resumes where the match ended; after an empty
    match the next attempt at the same place must advance.  [skip] counts the
    characters of [s] inside the match found last. *)
Fixpoint scan (r : regex) (skip : nat) (s : str) : list piece :=
  match s with
  | [] =>
      match skip with
      | O =>
          match match_at false r [] with
          | Some (rest, cs) => [Match (matched [] rest cs)]
          | None => []
          end
      | S _ => []
      end
  | c :: s' =>
      match skip with
      | S k => scan r k s'
      | O =>
          match match_at false r s with
          | Some (rest, cs) =>
              match length s - length rest with
              | S k => Match (matched s rest cs) :: scan r k s'
              | O =>
                  Match (matched s rest cs) ::
                  match match_at true r s with
                  | Some (rest2, cs2) =>
                      Match (matched s rest2 cs2)
                        :: scan r (length s - length rest2 - 1) s'
                  | None => Ch c :: scan r 0 s'
                  end
              end
          | None => Ch c :: scan r 0 s'
          end
      end
  end.

(** ** Exceptions *)
Inductive exn :=
| ReError                (* re.error *)
| UnicodeDecodeError
| UnicodeEncodeError
| FileNotFoundError
| EOFError
| Unmodelled.            (* library behaviour outside this model *)

#[global] Instance exn_eq_dec : EqDecision exn.
Proof. solve_decision. Defined.

Inductive result (A : Type) :=
| Ret (a : A)
| Raise (e : exn).
Arguments Ret {A} a.
Arguments Raise {A} e.

Definition rbind {A B} (x : result A) (f : A → result B) : result B :=
  match x with
  | Ret a => f a
  | Raise e => Raise e
  end.

(** ** Replacement templates

    [re.sub] compiles the replacement text before it searches: a backslash
    and the character after it form an escape.  [\1]..[\99] is a group
    reference unless three octal digits follow the backslash, [\0] starts an
    octal escape, the usual letter escapes stand for control characters, any
    other backslash-letter is an error, and a backslash before any other
    character stays as it is.  [\g<...>] references are not modelled: the
    script never builds one (lemma [templates_modelled]). *)
Inductive titem :=
| TLit (c : char)
| TGroup (n : nat).

Definition is_digit (c : char) : bool := (48 <=? c)%N && (c <=? 57)%N.
Definition is_octdigit (c : char) : bool := (48 <=? c)%N && (c <=? 55)%N.
Definition is_ascii_letter (c : char) : bool :=
  ((65 <=? c)%N && (c <=? 90)%N) || ((97 <=? c)%N && (c <=? 122)%N).
Definition digit_val (c : char) : N := (c - 48)%N.

(** The [ESCAPES] table of the parser. *)
Definition escape_char (c : char) : option char :=
  if char_eqb c 97 then Some 7%N          (* \a *)
  else if char_eqb c 98 then Some 8%N     (* \b *)
  else if char_eqb c 102 then Some 12%N   (* \f *)
  else if char_eqb c 110 then Some 10%N   (* \n *)
  else if char_eqb c 114 then Some 13%N   (* \r *)
  else if char_eqb c 116 then Some 9%N    (* \t *)
  else if char_eqb c 118 then Some 11%N   (* \v *)
  else if char_eqb c BACKSLASH then Some BACKSLASH
  else None.

Definition tgroup (ngroups : nat) (n : N) : result titem :=
  if bool_decide (N.to_nat n ≤ ngroups) then Ret (TGroup (N.to_nat n))
  else Raise ReError.                      (* invalid group reference *)

Definition tcons (i : result titem) (rest : result (list titem))
    : result (list titem) :=
  rbind i (λ x, rbind rest (λ l, Ret (x :: l))).

Fixpoint parse_template (ngroups : nat) (t : str) : result (list titem) :=
  match t with
  | [] => Ret []
  | c :: t1 =>
      if negb (char_eqb c BACKSLASH)
      then tcons (Ret (TLit c)) (parse_template ngroups t1)
      else
        match t1 with
        | [] => Raise ReError              (* bad escape (end of pattern) *)
        | e :: t2 =>
            if char_eqb e 103 then Raise Unmodelled        (* \g *)
            else if char_eqb e 48 then                     (* \0, \0o, \0oo *)
              match t2 with
              | d1 :: t3 =>
                  if is_octdigit d1 then
                    match t3 with
                    | d2 :: t4 =>
                        if is_octdigit d2
                        then tcons (Ret (TLit (N.land (8 * digit_val d1
                                                       + digit_val d2) 255)))
                                   (parse_template ngroups t4)
                        else tcons (Ret (TLit (digit_val d1)))
                                   (parse_template ngroups t3)
                    | [] => tcons (Ret (TLit (digit_val d1)))
                                  (parse_template ngroups t3)
                    end
                  else tcons (Ret (TLit 0%N)) (parse_template ngroups t2)
              | [] => tcons (Ret (TLit 0%N)) (parse_template ngroups t2)
              end
            else if is_digit e then
              match t2 with
              | d1 :: t3 =>
                  if is_digit d1 then
                    match t3 with
                    | d2 :: t4 =>
                        if is_octdigit e && is_octdigit d1 && is_octdigit d2
                        then
                          let v := (64 * digit_val e + 8 * digit_val d1
                                    + digit_val d2)%N in
                          if (255 <? v)%N then Raise ReError
                          else tcons (Ret (TLit v)) (parse_template ngroups t4)
                        else tcons (tgroup ngroups
                                      (10 * digit_val e + digit_val d1))
                                   (parse_template ngroups t3)
                    | [] => tcons (tgroup ngroups
                                     (10 * digit_val e + digit_val d1))
                                  (parse_template ngroups t3)
                    end
                  else tcons (tgroup ngroups (digit_val e))
                             (parse_template ngroups t2)
              | [] => tcons (tgroup ngroups (digit_val e))
                            (parse_template ngroups t2)
              end
            else
              match escape_char e with
              | Some x => tcons (Ret (TLit x)) (parse_template ngroups t2)
              | None =>
                  if is_ascii_letter e then Raise ReError  (* bad escape *)
                  else tcons (Ret (TLit c))
                         (tcons (Ret (TLit e)) (parse_template ngroups t2))
              end
        end
  end.

(** Expansion of a compiled template for one match; a group that took no
    part in the match expands to the empty text. *)
Definition expand (tpl : list titem) (m : rmatch) : str :=
  tpl ≫= λ i,
    match i with
    | TLit c => [c]
    | TGroup 0 => m_text m
    | TGroup n => default [] (group (m_groups m) n)
    end.

Definition sub_piece (tpl : list titem) (p : piece) : str :=
  match p with
  | Ch c => [c]
  | Match m => expand tpl m
  end.

(** [Pattern.sub(repl, s)], of a compiled pattern. *)
Definition pattern_sub (r : regex) (repl : str) (s : str) : result str :=
  rbind (parse_template (groups r) repl)
        (λ tpl, Ret (scan r 0 s ≫= sub_piece tpl)).

(** Truth value of [Pattern.findall(s)]: is there a match at all. *)
Definition is_match (p : piece) : bool :=
  match p with Match _ => true | Ch _ => false end.

Definition pattern_findall_any (r : regex) (s : str) : bool :=
  existsb is_match (scan r 0 s).

(** ** Pattern texts

    [re.compile], for the syntax the script writes: plain characters,
    backslash escapes that stand for one character, the dot, negated sets of
    single characters, a greedy star on a one-character item, capturing
    groups (numbered by their opening parenthesis) and alternation, which
    binds loosest.  Anything else (a range or a class in a set, a positive
    set, another repetition, an anchor, a group extension) is outside the
    model. *)

(** Sequencing, with adjacent literal texts joined. *)
Definition rseq (a rest : regex) : regex :=
  match a, rest with
  | RLit s, RLit t => RLit (s ++ t)
  | RLit s, RSeq (RLit t) r => RSeq (RLit (s ++ t)) r
  | _, RLit [] => a
  | _, _ => RSeq a rest
  end.

Definition one (c : cset) : regex :=
  match c with
  | CChar x => RLit [x]
  | _ => ROne c
  end.

(** The character a backslash escape stands for.  Outside a set, a
    backslash and the letter b is a word boundary. *)
Definition pattern_escape (in_set : bool) (e : char) : result N :=
  if negb in_set && char_eqb e 98 then Raise Unmodelled
  else
    match escape_char e with
    | Some x => Ret x
    | None =>
        if is_ascii_letter e || is_digit e then Raise Unmodelled
        else Ret e
    end.

Definition starts_range (s : str) : bool := startswith (U "-") s.

(** The members of a set, up to the closing bracket. *)
Fixpoint parse_set (s : str) : result (list N * list N) :=
  match s with
  | [] => Raise ReError                    (* unterminated character set *)
  | c :: s1 =>
      if char_eqb c 93 then Ret ([], s1)                           (* ] *)
      else if char_eqb c BACKSLASH then
        match s1 with
        | e :: s2 =>
            if starts_range s2 then Raise Unmodelled
            else rbind (pattern_escape true e) (λ x,
                 rbind (parse_set s2) (λ r, Ret (x :: r.1, r.2)))
        | [] => Raise ReError
        end
      else if starts_range s1 then Raise Unmodelled
      else rbind (parse_set s1) (λ r, Ret (c :: r.1, r.2))
  end.

(** An item that takes one character: the dot, a set, an escape or a plain
    character. *)
Definition parse_item (c : char) (s1 : str) : result (cset * list N) :=
  if char_eqb c 46 then Ret (CDot, s1)                             (* . *)
  else if char_eqb c 91 then                                       (* [ *)
    match s1 with
    | d :: s2 =>
        if char_eqb d 94 then                                      (* ^ *)
          if startswith (U "]") s2 then Raise Unmodelled
          else rbind (parse_set s2) (λ r, Ret (CNot r.1, r.2))
        else Raise Unmodelled
    | [] => Raise ReError
    end
  else if char_eqb c BACKSLASH then
    match s1 with
    | e :: s2 => rbind (pattern_escape false e) (λ x, Ret (CChar x, s2))
    | [] => Raise ReError                 (* bad escape (end of pattern) *)
    end
  else if bool_decide (c ∈ U "*+?{^$") then Raise Unmodelled
  else Ret (CChar c, s1).

(** Does a repetition operator come next. *)
Definition repeat_next (s : str) : bool :=
  match s with
  | c :: _ => bool_decide (c ∈ U "*+?{")
  | [] => false
  end.

(** [parse_alt] reads alternatives up to a closing parenthesis or the end,
    [parse_seq] one alternative; [g] counts the groups opened so far. *)
Fixpoint parse_alt (fuel : nat) (s : str) (g : nat)
    : result (regex * list N * nat) :=
  match fuel with
  | O => Raise Unmodelled
  | S fuel' =>
      rbind (parse_seq fuel' s g) (λ a,
        match a.1.2 with
        | c :: s2 =>
            if char_eqb c 124                                      (* | *)
            then rbind (parse_alt fuel' s2 a.2) (λ b,
                   Ret (RAlt a.1.1 b.1.1, b.1.2, b.2))
            else Ret a
        | [] => Ret a
        end)
  end
with parse_seq (fuel : nat) (s : str) (g : nat)
    : result (regex * list N * nat) :=
  match fuel with
  | O => Raise Unmodelled
  | S fuel' =>
      match s with
      | [] => Ret (RLit [], s, g)
      | c :: s1 =>
          if char_eqb c 124 || char_eqb c 41 then Ret (RLit [], s, g)
          else if char_eqb c 40 then                               (* ( *)
            if startswith (U "?") s1 then Raise Unmodelled
            else
              rbind (parse_alt fuel' s1 (S g)) (λ a,
                match a.1.2 with
                | d :: s3 =>
                    if char_eqb d 41 then                          (* ) *)
                      if repeat_next s3 then Raise Unmodelled
                      else rbind (parse_seq fuel' s3 a.2) (λ b,
                             Ret (rseq (RGroup (S g) a.1.1) b.1.1, b.1.2, b.2))
                    else Raise ReError
                | [] => Raise ReError  (* missing ), unterminated subpattern *)
                end)
          else
            rbind (parse_item c s1) (λ i,
              match i.2 with
              | d :: s3 =>
                  if char_eqb d 42 then                            (* * *)
                    if repeat_next s3 then Raise Unmodelled
                    else rbind (parse_seq fuel' s3 g) (λ b,
                           Ret (rseq (RStar i.1) b.1.1, b.1.2, b.2))
                  else if repeat_next i.2 then Raise Unmodelled
                  else rbind (parse_seq fuel' i.2 g) (λ b,
                         Ret (rseq (one i.1) b.1.1, b.1.2, b.2))
              | [] => Ret (one i.1, [], g)
              end)
      end
  end.

(** [re.compile(pattern)] *)
Definition re_compile (pattern : str) : result regex :=
  rbind (parse_alt (2 * length pattern + 2) pattern 0) (λ a,
    match a.1.2 with
    | [] => Ret a.1.1
    | _ :: _ => Raise ReError                   (* unbalanced parenthesis *)
    end).

(** [re.sub(pattern, repl, s)]: the pattern is compiled first. *)
Definition re_sub (pattern repl s : str) : result str :=
  rbind (re_compile pattern) (λ r, pattern_sub r repl s).

(** Truth value of [re.findall(pattern, s)]. *)
Definition re_findall_any (pattern s : str) : result bool :=
  rbind (re_compile pattern) (λ r, Ret (pattern_findall_any r s)).

(** ** Paths ([posixpath])

    The names [os.walk] yields hold no separator; on such names
    [ntpath.splitext] gives the same extension. *)
Definition SEP : char := 47%N.
Definition DOT : char := 46%N.

(** [os.path.join(a, b)] *)
Definition join (a b : str) : str :=
  if startswith [SEP] b then b
  else if bool_decide (a = []) || char_eqb (List.last a 0%N) SEP then a ++ b
  else a ++ SEP :: b.

(** [s.rfind(c)], counted from 1 so that 0 stands for an absent [c]. *)
Fixpoint rfind1 (c : char) (s : str) : nat :=
  match s with
  | [] => 0
  | x :: s' =>
      match rfind1 c s' with
      | S i => S (S i)
      | O => if char_eqb x c then 1 else 0
      end
  end.

(** [os.path.splitext]: the extension starts at the last dot of the last
    path component, unless only dots come before it in that component. *)
Definition splitext (p : str) : str * str :=
  let sepIndex := rfind1 SEP p in
  let dotIndex := rfind1 DOT p in
  if bool_decide (sepIndex < dotIndex)
     && existsb (λ x, negb (char_eqb x DOT))
                (take (dotIndex - 1 - sepIndex) (drop sepIndex p))
  then (take (dotIndex - 1) p, drop (dotIndex - 1) p)
  else (p, []).

(** A directory: its name, the names of its files and its sub-directories, in
    the order the operating system lists them. *)
#[warnings="-register-all"]
Inductive dirtree :=
| Dir (name : list N) (files : list (list N)) (subdirs : list dirtree).

Definition dir_name (t : dirtree) : str :=
  match t with Dir name _ _ => name end.

(** [os.walk(top)], top-down: one triple [(root, dirs, files)] per directory. *)
Fixpoint walk (top : str) (t : dirtree)
    : list (list N * list (list N) * list (list N)) :=
  match t with
  | Dir _ files subdirs =>
      (top, dir_name <$> subdirs, files)
        :: (subdirs ≫= λ d, walk (join top (dir_name d)) d)
  end.

(** ** Text encodings *)
Record codec := {
  decode : list byte → option (list N);
  encode : list N → option (list byte)
}.

Definition ascii_decode (bs : list byte) : option str :=
  mapM (λ b, if (Byte.to_N b <? 128)%N then Some (Byte.to_N b) else None) bs.

Definition ascii_encode (s : str) : option (list byte) :=
  mapM (λ c, if (c <? 128)%N then Byte.of_N c else None) s.

Definition ascii_codec : codec :=
  {| decode := ascii_decode; encode := ascii_encode |}.

(** UTF-8.  Surrogates and values above U+10FFFF have no encoding. *)
Definition byte_of (n : N) : byte := default x00 (Byte.of_N n).

Definition utf8_encode_char (c : char) : option (list byte) :=
  if (c <? 128)%N then Some [byte_of c]
  else if (c <? 2048)%N then
    Some [byte_of (192 + c / 64); byte_of (128 + c mod 64)]
  else if (c <? 65536)%N then
    if (55296 <=? c)%N && (c <=? 57343)%N then None
    else Some [byte_of (224 + c / 4096); byte_of (128 + (c / 64) mod 64);
               byte_of (128 + c mod 64)]
  else if (c <? 1114112)%N then
    Some [byte_of (240 + c / 262144); byte_of (128 + (c / 4096) mod 64);
          byte_of (128 + (c / 64) mod 64); byte_of (128 + c mod 64)]
  else None.

Definition utf8_encode (s : str) : option (list byte) :=
  @concat byte <$> mapM utf8_encode_char s.

Definition in_range (lo hi : N) (b : byte) : bool :=
  (lo <=? Byte.to_N b)%N && (Byte.to_N b <=? hi)%N.
Definition cont (b : byte) : N := (Byte.to_N b - 128)%N.

Fixpoint utf8_decode (bs : list byte) : option str :=
  match bs with
  | [] => Some []
  | b0 :: r0 =>
      let n0 := Byte.to_N b0 in
      if (n0 <? 128)%N then cons n0 <$> utf8_decode r0
      else
        match r0 with
        | b1 :: r1 =>
            if in_range 194 223 b0 then
              if in_range 128 191 b1
              then cons ((n0 - 192) * 64 + cont b1)%N <$> utf8_decode r1
              else None
            else
              match r1 with
              | b2 :: r2 =>
                  if in_range 224 239 b0 then
                    if in_range (if bool_decide (n0 = 224%N) then 160 else 128)
                                (if bool_decide (n0 = 237%N) then 159 else 191) b1
                       && in_range 128 191 b2
                    then cons ((n0 - 224) * 4096 + cont b1 * 64 + cont b2)%N
                           <$> utf8_decode r2
                    else None
                  else
                    match r2 with
                    | b3 :: r3 =>
                        if in_range 240 244 b0
                           && in_range (if bool_decide (n0 = 240%N) then 144 else 128)
                                (if bool_decide (n0 = 244%N) then 143 else 191) b1
                           && in_range 128 191 b2 && in_range 128 191 b3
                        then cons ((n0 - 240) * 262144 + cont b1 * 4096
                                   + cont b2 * 64 + cont b3)%N
                               <$> utf8_decode r3
                        else None
                    | [] => None
                    end
              | [] => None
              end
        | [] => None
        end
  end.

Definition utf8_codec : codec :=
  {| decode := utf8_decode; encode := utf8_encode |}.

(** Text mode: on reading, every line ending becomes a newline; on writing,
    every newline becomes the line separator of the platform. *)
Fixpoint universal_newlines (s : str) : str :=
  match s with
  | [] => []
  | c :: s' =>
      if char_eqb c CR
      then match s' with
           | d :: _ => if char_eqb d NL then universal_newlines s'
                       else NL :: universal_newlines s'
           | [] => [NL]
           end
      else c :: universal_newlines s'
  end.

Definition write_newlines (linesep : str) (s : str) : str :=
  s ≫= λ c, if char_eqb c NL then linesep else [c].

(** ** The world the script runs in *)
Inductive encoding :=
| Default                (* [open(path, mode)] *)
| Utf8.                  (* [open(path, mode, encoding='utf-8')] *)

Inductive event :=
| EvInput (prompt : list N)                      (* [input(prompt)] *)
| EvPrint (line : list N)                        (* [print(line)] *)
| EvRead (path : list N) (enc : encoding)        (* [open(path, 'r', ...)] *)
| EvWrite (path : list N) (enc : encoding) (text : list N).

Record platform := {
  default_codec : codec;           (* the locale's preferred encoding *)
  linesep : list N;                (* [os.linesep] *)
  script_dir : list N              (* [os.path.dirname(__file__)] *)
}.

Record world := {
  files : gmap (list N) (list byte);   (* content of every file, by path *)
  dirs : list N → option dirtree;      (* the directory found at a path *)
  stdin : list (list N);               (* the lines still to be read *)
  trace : list event                   (* what the run did so far *)
}.

Definition emit (e : event) (w : world) : world :=
  {| files := files w; dirs := dirs w; stdin := stdin w;
     trace := trace w ++ [e] |}.

Definition store (p : str) (bs : list byte) (w : world) : world :=
  {| files := <[p := bs]> (files w); dirs := dirs w; stdin := stdin w;
     trace := trace w |}.

Definition next_line (w : world) : world :=
  {| files := files w; dirs := dirs w; stdin := tail (stdin w);
     trace := trace w |}.

(** Commands: state passing, with exceptions; the world reached so far
    survives an exception. *)
Definition M (A : Type) : Type := world → result A * world.

Definition ret {A} (a : A) : M A := λ w, (Ret a, w).
Definition bind {A B} (m : M A) (f : A → M B) : M B :=
  λ w, match m w with
       | (Ret a, w') => f a w'
       | (Raise e, w') => (Raise e, w')
       end.
Definition lift {A} (r : result A) : M A := λ w, (r, w).

Notation "x <- m ;; k" := (bind m (λ x, k))
  (at level 100, m at next level, right associativity, only parsing).
Notation "m ;;; k" := (bind m (λ _, k))
  (at level 100, right associativity, only parsing).

(** [try: body except cls: handler]; none of the exception classes of the
    model has a subclass. *)
Definition try_except {A} (body : M A) (cls : exn) (handler : M A) : M A :=
  λ w, match body w with
       | (Raise e, w') => if bool_decide (e = cls) then handler w'
                          else (Raise e, w')
       | ok => ok
       end.

Fixpoint for_each {A} (l : list A) (body : A → M unit) : M unit :=
  match l with
  | [] => ret tt
  | x :: l' => body x ;;; for_each l' body
  end.

Definition input (prompt : str) : M (list N) :=
  λ w, let w' := emit (EvInput prompt) w in
       match stdin w with
       | line :: _ => (Ret line, next_line w')
       | [] => (Raise EOFError, w')
       end.

Definition print (line : str) : M unit := λ w, (Ret tt, emit (EvPrint line) w).

Section Platform.
Context (pf : platform).

Definition codec_of (enc : encoding) : codec :=
  match enc with
  | Default => default_codec pf
  | Utf8 => utf8_codec
  end.

(** [with open(path, 'r', ...) as f: content = f.read()] *)
Definition read_file (enc : encoding) (path : str) : M (list N) :=
  λ w, let w' := emit (EvRead path enc) w in
       match files w !! path with
       | None => (Raise FileNotFoundError, w')
       | Some bs =>
           match decode (codec_of enc) bs with
           | Some t => (Ret (universal_newlines t), w')
           | None => (Raise UnicodeDecodeError, w')
           end
       end.

(** [with open(path, 'w', ...) as f: f.write(content)]: opening truncates
    the file; a text that cannot be encoded leaves it empty. *)
Definition write_file (enc : encoding) (path : str) (content : str) : M unit :=
  λ w, let w' := store path [] (emit (EvWrite path enc content) w) in
       match encode (codec_of enc) (write_newlines (linesep pf) content) with
       | Some bs => (Ret tt, store path bs w')
       | None => (Raise UnicodeEncodeError, w')
       end.

(** Lines 22-27 and 38-43. *)
Definition read_content (path : str) : M (list N) :=
  try_except (read_file Default path) UnicodeEncodeError
             (read_file Utf8 path).

(** Lines 31-36 and 48-53. *)
Definition write_content (path : str) (content : str) : M unit :=
  try_except (write_file Default path content) UnicodeEncodeError
             (write_file Utf8 path content).
End Platform.

(** ** The script *)

(** Line 12. *)
Definition PROMPT : str := U "Enter the chararacters you want to allow: ".

(** The keys of lines 13 and 14, with [q] the quote character; the pattern
    text holds a backslash and the letter n, the raw strings of the source
    keeping the backslash. *)
Definition quoted_pattern (q : char) : str :=
  U "(" ++ [q] ++ U "[^\n]*)(a-zA-Z|A-Za-z)([^\n]*" ++ [q] ++ U ")".

(** What these keys compile to (lemma [compile_quoted]): group 1 is [q] and
    a greedy run of characters other than a newline, group 2 is the text
    [a-zA-Z] or the text [A-Za-z], group 3 is a greedy run of characters
    other than a newline and [q]. *)
Definition TOKEN : regex := RAlt (RLit (U "a-zA-Z")) (RLit (U "A-Za-z")).

Definition quoted (q : char) : regex :=
  RSeq (RGroup 1 (RSeq (RLit [q]) (RStar (CNot [NL]))))
       (RSeq (RGroup 2 TOKEN)
             (RGroup 3 (RSeq (RStar (CNot [NL])) (RLit [q])))).

Definition quote_of (single_quote : bool) : char :=
  if single_quote then SQUOTE else DQUOTE.

Definition rule_template (W : str) (single_quote : bool) : str :=
  U "\1\2" ++ escape_str W single_quote ++ U "\3".

Definition rule (W : str) (single_quote : bool) : list N * list N :=
  (quoted_pattern (quote_of single_quote), rule_template W single_quote).

(** Lines 13-15: the dictionary [FIND], in insertion order: the rule for
    double-quoted literals, then the rule for single-quoted ones. *)
Definition FIND (W : str) : list (list N * list N) :=
  [ rule W false; rule W true ].

(** The pattern of line 28, and what it compiles to (lemma
    [compile_target]). *)
Definition TARGET_PATTERN : str := U "string allowSpecialChars.*\)".

Definition RPAREN : char := 41%N.
Definition ALLOW : str := U "string allowSpecialChars".
Definition TARGET : regex :=
  RSeq (RLit ALLOW) (RSeq (RStar CDot) (RLit [RPAREN])).

(** The replacement of line 29. *)
Definition declaration (W : str) : str :=
  U "string allowSpecialChars = " ++ [DQUOTE] ++ escape_str W true
    ++ [DQUOTE] ++ U ")".

Definition SUCCESS (path : str) : str := U "Successfully modified " ++ path.

Section Script.
Context (pf : platform).

(** Lines 22-36. *)
Definition targeted_rewrite (W path : str) : M unit :=
  content <- read_content pf path ;;
  content <- lift (re_sub TARGET_PATTERN (declaration W) content) ;;
  print (SUCCESS path) ;;;
  write_content pf path content.

(** Lines 44-53: the loop over the rules; the write is inside the loop. *)
Fixpoint apply_rules (rules : list (list N * list N)) (path content : str)
    : M unit :=
  match rules with
  | [] => ret tt
  | (search, replace) :: rules' =>
      content <- lift (re_sub search replace content) ;;
      found <- lift (re_findall_any search content) ;;
      (if found then print (SUCCESS path) else ret tt) ;;;
      write_content pf path content ;;;
      apply_rules rules' path content
  end.

(** Lines 38-53. *)
Definition generic_substitution (W path : str) : M unit :=
  content <- read_content pf path ;;
  apply_rules (FIND W) path content.

(** Lines 20-53: the body of the inner loop. *)
Definition process_file (W root file : str) : M unit :=
  let path := join root file in
  if str_eqb file (U "Extensions.cs") then targeted_rewrite W path
  else if str_eqb (splitext file).2 (U ".cs") then generic_substitution W path
  else ret tt.

(** Line 18: the directory that is walked. *)
Definition TOP : str := join (script_dir pf) (U "Il2CppInspector.Common").

(** What [os.walk(TOP)] yields in the world [w]; a directory that cannot be
    listed yields nothing. *)
Definition walked (w : world) : list (list N * list (list N) * list (list N)) :=
  match dirs w TOP with
  | Some t => walk TOP t
  | None => []
  end.

Definition os_walk : M (list (list N * list (list N) * list (list N))) :=
  λ w, (Ret (walked w), w).

(** Lines 17-53: the two loops. *)
Definition patch (W : str) : M unit :=
  entries <- os_walk ;;
  for_each entries (λ entry,
    for_each entry.2 (λ file, process_file W entry.1.1 file)).

(** The whole script. *)
Definition main : M unit :=
  W <- input PROMPT ;;
  patch W.
End Script.

(** A POSIX machine whose locale encoding is ASCII. *)
Definition posix_ascii (dir : str) : platform :=
  {| default_codec := ascii_codec; linesep := [NL]; script_dir := dir |}.

(** ** Descriptions used in the proofs *)

(** What the first two replacements of [escape_str] do, character by
    character: a backslash is doubled, and tripled when an [n] follows it. *)
Fixpoint backslashes (s : str) : str :=
  match s with
  | [] => []
  | c :: s' =>
      (if char_eqb c BACKSLASH then
         match s' with
         | d :: _ => if char_eqb d 110 then U "\\\" else U "\\"
         | [] => U "\\"
         end
       else [c]) ++ backslashes s'
  end.

(** The first replacement of [escape_str]: every backslash doubled. *)
Definition doubled (s : str) : str :=
  s ≫= λ x, if char_eqb BACKSLASH x then U "\\" else [x].

(** The second replacement of [escape_str]. *)
Definition newline_escaped (s : str) : str :=
  replace_from (U "\n") (U "\\n") 0 s.

(** The last replacement of [escape_str]: a backslash before every [q]. *)
Definition quote_escaped (q : char) (s : str) : str :=
  s ≫= λ x, if char_eqb q x then [BACKSLASH; q] else [x].

(** [line_lacks c s]: [c] does not occur in [s] before the first newline. *)
Fixpoint line_lacks (c : char) (s : str) : bool :=
  match s with
  | [] => true
  | x :: s' =>
      if char_eqb x NL then true
      else negb (char_eqb x c) && line_lacks c s'
  end.

(** The two texts group 2 of the rules can match. *)
Definition is_token (t : str) : Prop := t = U "a-zA-Z" ∨ t = U "A-Za-z".

Definition token_at (s : str) : bool :=
  startswith (U "a-zA-Z") s || startswith (U "A-Za-z") s.

(** No occurrence of either text starts anywhere in [s]. *)
Fixpoint no_token_in (s : str) : bool :=
  match s with
  | [] => true
  | _ :: s' => negb (token_at s) && no_token_in s'
  end.

(** The continuation that takes the character [c] and then succeeds with
    [f]. *)
Definition until {A} (c : char) (f : list N → A) : list N → option A :=
  λ s, match strip [c] s with Some s' => Some (f s') | None => None end.

(** What follows group 1 in the rules. *)
Definition tail_quoted (q : char) (c1 : list (nat * list N)) (b : str)
    : option (list N * list (nat * list N)) :=
  exec (RSeq (RGroup 2 TOKEN)
             (RGroup 3 (RSeq (RStar (CNot [NL])) (RLit [q])))) b c1
       (λ s' cs, Some (s', cs)).

Definition piece_text (p : piece) : str :=
  match p with
  | Ch c => [c]
  | Match m => m_text m
  end.


(** A pattern is advancing when each of its matches takes at least one
    character. *)
Definition advancing (r : regex) : Prop :=
  ∀ s rest cs, match_at false r s = Some (rest, cs) →
    ∃ text, text ≠ [] ∧ s = text ++ rest.

Definition leading_digit (W : str) : bool :=
  match W with
  | c :: _ => is_digit c
  | [] => false
  end.


(** A pattern that cannot take a newline. *)
Fixpoint no_newline (r : regex) : bool :=
  match r with
  | RLit t => bool_decide (NL ∉ t)
  | ROne c | RStar c => negb (in_cset c NL)
  | RSeq r1 r2 | RAlt r1 r2 => no_newline r1 && no_newline r2
  | RGroup _ r1 => no_newline r1
  end.


(** What the compiled template holds in place of [escape_str s]: the
    doubled backslash is one backslash again, and a backslash followed by
    [n] has become a backslash and a newline. *)
Fixpoint template_text (q : char) (s : str) : str :=
  match s with
  | [] => []
  | c :: s' =>
      if char_eqb c BACKSLASH then
        match s' with
        | d :: s'' =>
            if char_eqb d 110 then BACKSLASH :: NL :: template_text q s''
            else BACKSLASH :: template_text q s'
        | [] => [BACKSLASH]
        end
      else if char_eqb c q then BACKSLASH :: q :: template_text q s'
      else c :: template_text q s'
  end.

(** [emits Q m]: every event the command [m] adds to the trace satisfies
    [Q]. *)
Definition emits {A} (Q : event → Prop) (m : M A) : Prop :=
  ∀ w, ∃ evs, trace (m w).2 = trace w ++ evs ∧ Forall Q evs.

(** The template compiles. *)
Definition compiles (ngroups : nat) (t : str) : bool :=
  match parse_template ngroups t with
  | Ret _ => true
  | Raise _ => false
  end.

(** Only the files the walk lists under the name Extensions.cs or with the
    extension .cs are opened, and nothing is asked twice. *)
Definition patched_file (pf : platform) (w : world) (e : event) : Prop :=
  let listed path :=
    ∃ entry file, entry ∈ walked pf w ∧ file ∈ entry.2
      ∧ path = join entry.1.1 file
      ∧ (file = U "Extensions.cs" ∨ (splitext file).2 = U ".cs") in
  match e with
  | EvInput _ => False
  | EvPrint _ => True
  | EvRead path _ => listed path
  | EvWrite path _ _ => listed path
  end.

(** ** Concrete inputs *)

(** A world with the files [fs], no directory, nothing to read and an empty
    trace. *)
Definition world0 (fs : gmap (list N) (list byte)) : world :=
  {| files := fs; dirs := λ _, None; stdin := []; trace := [] |}.

(** The bytes of an ASCII text, and a text between double quotes. *)
Definition B (s : string) : list byte := list_byte_of_string s.
Definition ascii_bytes (s : str) : list byte := default [] (ascii_encode s).
Definition DQ (s : string) : str := [DQUOTE] ++ U s ++ [DQUOTE].

(** A tree without any C# source: [.cs] has no extension, and [.CS] is not
    [.cs]. *)
Definition tree1 : dirtree :=
  Dir (U "Il2CppInspector.Common") [U "README.md"; U ".cs"; U "a.CS"]
      [Dir (U "Cpp") [U "notes.txt"] []].

Definition world1 : world :=
  {| files := ∅;
     dirs := λ p, if str_eqb p (U "/repo/Il2CppInspector.Common")
                  then Some tree1 else None;
     stdin := [U "XYZ"];
     trace := [] |}.

(** ** Further descriptions and inputs *)

(** What a reader that takes the escapes of [escape_str] back recovers: a
    doubled backslash is one backslash, a backslash before the quote [q] is
    dropped, and so is a single backslash before any other character. *)
Fixpoint unescape (q : char) (s : str) : str :=
  match s with
  | [] => []
  | c :: s' =>
      if char_eqb c BACKSLASH then
        match s' with
        | x :: s'' =>
            if char_eqb x BACKSLASH then BACKSLASH :: unescape q s''
            else if char_eqb x q then q :: unescape q s''
            else unescape q s'
        | [] => []
        end
      else c :: unescape q s'
  end.

(** What [escape_str] writes for the character [c] when the text [s]
    follows it. *)
Definition escape_char_before (q c : char) (s : str) : str :=
  if char_eqb c BACKSLASH then
    if startswith (U "n") s then U "\\\" else U "\\"
  else if char_eqb c q then [BACKSLASH; c]
  else [c].

(** The whitelist begins with two octal digits. *)
Definition octal_pair (W : str) : bool :=
  match W with
  | d1 :: d2 :: _ => is_octdigit d1 && is_octdigit d2
  | _ => false
  end.

(** [p in s]: the text [p] occurs in [s]. *)
Fixpoint contains (p s : str) : bool :=
  startswith p s
  || match s with
     | [] => false
     | _ :: s' => contains p s'
     end.

(** An event other than a read with [encoding='utf-8']. *)
Definition not_utf8_read (e : event) : Prop :=
  match e with
  | EvRead _ Utf8 => False
  | _ => True
  end.

(** [frames P m]: the command [m] leaves the content of every file whose
    path does not satisfy [P] as it was. *)
Definition frames {A} (P : list N → Prop) (m : M A) : Prop :=
  ∀ w p, ¬ P p → files (m w).2 !! p = files w !! p.

(** A POSIX machine whose locale encoding is UTF-8. *)
Definition posix_utf8 (dir : str) : platform :=
  {| default_codec := utf8_codec; linesep := [NL]; script_dir := dir |}.

(** A tree with one C# source and one other file, and their contents. *)
Definition tree2 : dirtree :=
  Dir (U "Il2CppInspector.Common") [U "README.md"; U "A.cs"] [].

Definition world2 : world :=
  {| files := {[ U "/repo/Il2CppInspector.Common/README.md" := B "a-zA-Z";
                 U "/repo/Il2CppInspector.Common/A.cs" := B "s = 'a-zA-Z';" ]};
     dirs := λ p, if str_eqb p (U "/repo/Il2CppInspector.Common")
                  then Some tree2 else None;
     stdin := [U "XYZ"];
     trace := [] |}.

(** What the replacement of line 29 expands to, once compiled. *)
Definition declared (W : str) : str :=
  U "string allowSpecialChars = " ++ [DQUOTE] ++ template_text SQUOTE W
    ++ [DQUOTE] ++ U ")".

(** The Targeted Rewrite of a content: every matched span becomes the
    declaration. *)
Definition redeclare (W : str) (p : piece) : str :=
  match p with
  | Ch c => [c]
  | Match _ => declared W
  end.

(** The names a directory listing gives do not begin with a separator. *)
Definition plain_name (name : str) : bool := negb (startswith [SEP] name).

Fixpoint plain_names (t : dirtree) : bool :=
  match t with
  | Dir _ files subdirs =>
      forallb plain_name files
      && forallb (λ d, plain_name (dir_name d) && plain_names d) subdirs
  end.

(** [raises S m]: when the command [m] ends with an exception, the
    exception satisfies [S]. *)
Definition raises {A} (S : exn → Prop) (m : M A) : Prop :=
  ∀ w, match (m w).1 with
       | Ret _ => True
       | Raise e => S e
       end.

(** The exceptions the two loops can end with, on the whitelist [W]:
    those of a read, of a write and of a template; the last one only for a
    whitelist that begins with a digit and not with two octal digits. *)
Definition patch_exception (W : str) (e : exn) : Prop :=
  (e = FileNotFoundError ∨ e = UnicodeDecodeError ∨ e = UnicodeEncodeError
   ∨ e = ReError)
  ∧ (e = ReError → leading_digit W = true ∧ octal_pair W = false).

(* ------------------------------------------------------------------ *)
(** * Properties *)

(** ** The model at work

    What the interpreter answers on the same inputs. *)

Example replace_empty : replace (U "abc") [] (U "-") = U "-a-b-c-".
Proof. reflexivity. Qed.

Example escape_str_newline_text :
  escape_str (U "a\nb\\n") true = U "a\\\nb\\\\\n".
Proof. vm_compute. reflexivity. Qed.

Example escape_str_all_three :
  escape_str (U "\'" ++ [DQUOTE]) false = U "\\'\" ++ [DQUOTE]
  ∧ escape_str (U "\'" ++ [DQUOTE]) true = U "\\\'" ++ [DQUOTE].
Proof. vm_compute. done. Qed.

(** The patterns of the script compile to the expressions the proofs work
    on; group 2 is an alternation of two texts, not a set of letters. *)
Lemma compile_quoted (single : bool) :
  re_compile (quoted_pattern (quote_of single)) = Ret (quoted (quote_of single)).
Proof. destruct single; vm_compute; reflexivity. Qed.

Lemma compile_target : re_compile TARGET_PATTERN = Ret TARGET.
Proof. vm_compute. reflexivity. Qed.

Lemma re_sub_quoted (single : bool) (repl s : str) :
  re_sub (quoted_pattern (quote_of single)) repl s
  = pattern_sub (quoted (quote_of single)) repl s.
Proof. unfold re_sub. by rewrite compile_quoted. Qed.

Lemma re_findall_any_quoted (single : bool) (s : str) :
  re_findall_any (quoted_pattern (quote_of single)) s
  = Ret (pattern_findall_any (quoted (quote_of single)) s).
Proof. unfold re_findall_any. by rewrite compile_quoted. Qed.

Lemma re_sub_target (repl s : str) :
  re_sub TARGET_PATTERN repl s = pattern_sub TARGET repl s.
Proof. unfold re_sub. by rewrite compile_target. Qed.

Example re_compile_samples :
  re_compile (U "x*") = Ret (RStar (CChar 120))
  ∧ re_compile (U "a|bc|d")
    = Ret (RAlt (RLit (U "a")) (RAlt (RLit (U "bc")) (RLit (U "d"))))
  ∧ re_compile (U "(a)(b*)") = Ret (RSeq (RGroup 1 (RLit (U "a")))
                                         (RGroup 2 (RStar (CChar 98))))
  ∧ re_compile (U "(a") = Raise ReError
  ∧ re_compile (U "a)") = Raise ReError
  ∧ re_compile (U "[a-zA-Z]") = Raise Unmodelled.
Proof. vm_compute. done. Qed.

(** [re.sub('x*', '-', 'abxd')] *)
Example re_sub_empty_matches :
  re_sub (U "x*") (U "-") (U "abxd") = Ret (U "-a-b--d-").
Proof. vm_compute. reflexivity. Qed.

(** Two literals on a line are one span, rewritten at its last [a-zA-Z]. *)
Example re_sub_two_literals :
  re_sub (quoted_pattern DQUOTE) (rule_template (U "XYZ") false)
         (DQ "a-zA-Za-z" ++ U " x " ++ DQ "q")
  = Ret (DQ "a-zA-Za-zXYZ" ++ U " x " ++ DQ "q").
Proof. vm_compute. reflexivity. Qed.

(** Three octal digits after the backslash are a character, not a group:
    the template is [\1\277\3]. *)
Example re_sub_octal :
  re_sub (quoted_pattern DQUOTE) (rule_template (U "77") false) (DQ "a-zA-Z")
  = Ret [DQUOTE; 191%N; DQUOTE].
Proof. vm_compute. reflexivity. Qed.

Example splitext_names :
  (splitext (U "Extensions.cs")).2 = U ".cs"
  ∧ (splitext (U "a.b.cs")).2 = U ".cs"
  ∧ (splitext (U ".cs")).2 = []
  ∧ (splitext (U "..cs")).2 = []
  ∧ (splitext (U "a.CS")).2 = U ".CS"
  ∧ (splitext (U "a.cs.")).2 = U ".".
Proof. vm_compute. done. Qed.

Example join_paths :
  join (U "a") (U "b") = U "a/b" ∧ join (U "a/") (U "b") = U "a/b"
  ∧ join [] (U "b") = U "b" ∧ join (U "a") (U "/b") = U "/b".
Proof. vm_compute. done. Qed.

Example walk_tree1 :
  walk (U "top") tree1
  = [ (U "top", [U "Cpp"], [U "README.md"; U ".cs"; U "a.CS"]);
      (U "top/Cpp", [], [U "notes.txt"]) ].
Proof. vm_compute. reflexivity. Qed.

Example utf8_sample :
  utf8_encode [233%N; 8364%N; 128512%N]
  = Some [xc3; xa9; xe2; x82; xac; xf0; x9f; x98; x80]
  ∧ utf8_decode [xc3; xa9; xe2; x82; xac; xf0; x9f; x98; x80]
    = Some [233%N; 8364%N; 128512%N]
  ∧ utf8_decode [xc0; x80] = None
  ∧ utf8_decode [xed; xa0; x80] = None
  ∧ utf8_encode [55296%N] = None
  ∧ ascii_decode [xc3; xa9] = None.
Proof. vm_compute. done. Qed.

(** ** [str.replace] and [escape_str] *)

Lemma char_eqb_eq (a b : char) : char_eqb a b = true ↔ a = b.
Proof. unfold char_eqb. apply bool_decide_eq_true. Qed.

Lemma char_eqb_neq (a b : char) : char_eqb a b = false ↔ a ≠ b.
Proof. unfold char_eqb. apply bool_decide_eq_false. Qed.

Lemma char_eqb_refl (a : char) : char_eqb a a = true.
Proof. by apply char_eqb_eq. Qed.

(** Text without the first character of [old] has nothing to replace. *)
Lemma replace_absent (c : char) (old new s : str) :
  c ∉ s → replace s (c :: old) new = s.
Proof.
  unfold replace. induction s as [|x s IH]; intros Hs; [done|].
  apply not_elem_of_cons in Hs as [Hx Hs]. simpl.
  destruct (char_eqb c x) eqn:E.
  - apply char_eqb_eq in E. congruence.
  - simpl. by rewrite IH.
Qed.

(** Replacing a single character works character by character. *)
Lemma replace_char (c : char) (new s : str) :
  replace s [c] new = s ≫= λ x, if char_eqb c x then new else [x].
Proof.
  unfold replace. induction s as [|x s IH]; [done|].
  simpl. destruct (char_eqb c x); simpl; by rewrite IH.
Qed.

Lemma char_eqb_sym (a b : N) : char_eqb a b = char_eqb b a.
Proof. unfold char_eqb. apply bool_decide_ext. naive_solver. Qed.

Lemma newline_escaped_other (c : N) (X : str) :
  c ≠ BACKSLASH → newline_escaped (c :: X) = c :: newline_escaped X.
Proof.
  intros Hc. unfold newline_escaped. cbn [replace_from].
  change (U "\n") with [BACKSLASH; 110%N].
  cbn [startswith]. apply char_eqb_neq in Hc. rewrite char_eqb_sym in Hc.
  by rewrite Hc.
Qed.

Lemma newline_escaped_n (X : str) :
  newline_escaped (BACKSLASH :: 110%N :: X) = U "\\n" ++ newline_escaped X.
Proof. reflexivity. Qed.

Lemma newline_escaped_backslash (c : N) (X : str) :
  c ≠ 110%N →
  newline_escaped (BACKSLASH :: c :: X) = BACKSLASH :: newline_escaped (c :: X).
Proof.
  intros Hc. unfold newline_escaped. change (U "\n") with [BACKSLASH; 110%N].
  cbn [replace_from startswith]. rewrite char_eqb_refl.
  apply char_eqb_neq in Hc. rewrite char_eqb_sym in Hc. by rewrite Hc.
Qed.

Lemma doubled_cons (c : N) (s : str) :
  doubled (c :: s)
  = (if char_eqb c BACKSLASH then [BACKSLASH; BACKSLASH] else [c]) ++ doubled s.
Proof. unfold doubled. cbn [mbind list_bind]. by rewrite (char_eqb_sym c). Qed.

(** The second replacement, on the outcome of the first. *)
Lemma replace_doubled (s : str) :
  newline_escaped (doubled s) = backslashes s
  ∧ newline_escaped (BACKSLASH :: doubled s)
    = match s with
      | d :: _ => if char_eqb d 110 then U "\\" else U "\"
      | [] => U "\"
      end ++ backslashes s.
Proof.
  induction s as [|c s [IH1 IH2]]; [done|].
  assert (H1 : newline_escaped (doubled (c :: s)) = backslashes (c :: s)).
  { rewrite doubled_cons. cbn [backslashes].
    destruct (decide (c = BACKSLASH)) as [->|Hc].
    - rewrite !char_eqb_refl.
      cbn [app]. rewrite newline_escaped_backslash by done. rewrite IH2.
      destruct s as [|d s]; [done|]. by destruct (char_eqb d 110).
    - assert (E : char_eqb c BACKSLASH = false) by by apply char_eqb_neq.
      rewrite E. cbn [app]. rewrite newline_escaped_other by done.
      by rewrite IH1. }
  split; [done|].
  destruct (decide (c = 110%N)) as [->|Hn].
  - rewrite doubled_cons. cbn [backslashes].
    replace (char_eqb 110 BACKSLASH) with false by done.
    rewrite char_eqb_refl. cbn [app]. rewrite newline_escaped_n, IH1. done.
  - rewrite <- H1. assert (E : char_eqb c 110 = false) by by apply char_eqb_neq.
    rewrite E. rewrite doubled_cons.
    destruct (char_eqb c BACKSLASH); cbn [app U];
      by rewrite newline_escaped_backslash.
Qed.

Lemma replace_backslashes (s : str) :
  replace (replace s (U "\") (U "\\")) (U "\n") (U "\\n") = backslashes s.
Proof.
  change (U "\") with [BACKSLASH]. rewrite replace_char.
  exact (proj1 (replace_doubled s)).
Qed.

Lemma escape_str_backslashes (s : str) (flag : bool) :
  escape_str s flag
  = quote_escaped (quote_of flag) (backslashes s).
Proof.
  unfold escape_str. rewrite replace_backslashes.
  destruct flag; by rewrite replace_char.
Qed.

Lemma unescaped_pair (c x : N) (s : str) :
  unescaped c (BACKSLASH :: x :: s) = unescaped c s.
Proof. reflexivity. Qed.

Lemma unescaped_plain (c x : N) (s : str) :
  x ≠ BACKSLASH → x ≠ c → unescaped c (x :: s) = unescaped c s.
Proof.
  intros H1 H2. cbn [unescaped].
  apply char_eqb_neq in H1, H2. by rewrite H1, H2.
Qed.

Lemma unescaped_escape (q c : N) (s : str) :
  q ≠ BACKSLASH → q ≠ 110%N → c = q ∨ c = BACKSLASH →
  unescaped c (quote_escaped q (backslashes s)) = false.
Proof.
  intros Hq Hn Hc. unfold quote_escaped.
  assert (Hq' : char_eqb q BACKSLASH = false) by by apply char_eqb_neq.
  assert (Hn' : char_eqb q 110 = false) by by apply char_eqb_neq.
  induction s as [|x s IH]; [done|].
  cbn [backslashes]. rewrite bind_app.
  destruct (decide (x = BACKSLASH)) as [->|Hx].
  - rewrite char_eqb_refl. destruct s as [|d s].
    + change (U "\\") with [BACKSLASH; BACKSLASH]. cbn [mbind list_bind app].
      rewrite Hq'. done.
    + destruct (decide (d = 110%N)) as [->|Hd].
      * rewrite char_eqb_refl.
        cbn [backslashes] in IH |- *.
        replace (char_eqb 110 BACKSLASH) with false in * by done.
        change (U "\\\") with [BACKSLASH; BACKSLASH; BACKSLASH].
        cbn [mbind list_bind app] in IH |- *.
        rewrite Hq', Hn' in *. cbn [app] in IH |- *.
        rewrite !unescaped_pair.
        rewrite unescaped_plain in IH; [done|done|]. destruct Hc as [->| ->]; [congruence|done].
      * assert (E : char_eqb d 110 = false) by by apply char_eqb_neq.
        rewrite E. change (U "\\") with [BACKSLASH; BACKSLASH].
        cbn [mbind list_bind app]. rewrite Hq'. cbn [app].
        by rewrite unescaped_pair.
  - assert (E : char_eqb x BACKSLASH = false) by by apply char_eqb_neq.
    rewrite E. cbn [mbind list_bind app].
    destruct (decide (q = x)) as [<-|Hqx].
    + rewrite char_eqb_refl. cbn [app]. by rewrite unescaped_pair.
    + assert (E2 : char_eqb q x = false) by by apply char_eqb_neq.
      rewrite E2. cbn [app]. rewrite unescaped_plain; [done|done|].
      destruct Hc as [->| ->]; congruence.
Qed.

(** C5.  Whatever the whitelist, and so for every whitelist that contains a
    backslash, a single quote and a double quote: the text escaped for a
    double-quoted literal has no unescaped double quote and no unescaped
    backslash, and the text escaped for a single-quoted literal has no
    unescaped single quote and no unescaped backslash. *)
Theorem escape_str_no_unescaped (W : str) :
  unescaped DQUOTE (escape_str W false) = false
  ∧ unescaped BACKSLASH (escape_str W false) = false
  ∧ unescaped SQUOTE (escape_str W true) = false
  ∧ unescaped BACKSLASH (escape_str W true) = false.
Proof.
  rewrite !escape_str_backslashes.
  repeat split; apply unescaped_escape; by auto.
Qed.

(** C9.  On a text without a backslash and without the quote character the
    flag selects, [escape_str] is the identity. *)
Theorem escape_str_identity (s : str) (single_quote : bool) :
  BACKSLASH ∉ s → quote_of single_quote ∉ s → escape_str s single_quote = s.
Proof.
  intros Hb Hq. unfold escape_str.
  change (U "\") with [BACKSLASH]. change (U "\n") with [BACKSLASH; 110%N].
  rewrite (replace_absent BACKSLASH [] _ s) by done.
  rewrite (replace_absent BACKSLASH _ _ s) by done.
  destruct single_quote; cbn [quote_of] in Hq; by rewrite replace_absent.
Qed.

Lemma escape_str_identity_witness :
  (BACKSLASH ∉ U "XYZ") ∧ (quote_of false ∉ U "XYZ")
  ∧ escape_str (U "XYZ") false = U "XYZ".
Proof.
  assert (H1 : BACKSLASH ∉ U "XYZ").
  { refine (bool_decide_unpack _ _). vm_compute. exact I. }
  assert (H2 : quote_of false ∉ U "XYZ").
  { refine (bool_decide_unpack _ _). vm_compute. exact I. }
  exact (conj H1 (conj H2 (escape_str_identity (U "XYZ") false H1 H2))).
Defined.

(** ** The matcher *)
Lemma strip_Some (p s r : str) : strip p s = Some r ↔ s = p ++ r.
Proof.
  revert s. induction p as [|a p IH]; intros s; simpl.
  - split; [by intros [= ->] | by intros ->].
  - destruct s as [|b s]; [done|].
    destruct (char_eqb a b) eqn:E.
    + apply char_eqb_eq in E. subst b. rewrite IH. split; [by intros ->|by intros [= ->]].
    + apply char_eqb_neq in E. split; [done|]. intros [= ? ?]. done.
Qed.

Lemma startswith_strip (p s : str) : startswith p s = true ↔ is_Some (strip p s).
Proof.
  revert s. induction p as [|a p IH]; intros s; simpl.
  - split; eauto.
  - destruct s as [|b s]; [split; [done|by intros [? ?]]|].
    destruct (char_eqb a b); simpl; [apply IH|].
    split; [done|by intros [? ?]].
Qed.

Lemma take_matched (a r s : str) :
  s = a ++ r → take (length s - length r) s = a.
Proof.
  intros ->. rewrite length_app.
  replace (length a + length r - length r) with (length a) by lia.
  by rewrite take_app_length.
Qed.

Section Star.
Context {A : Type} (p : N → bool) (k : str → option A).

Lemma star_sound (s : str) (r : A) :
  star p s k = Some r →
  ∃ a b, s = a ++ b ∧ Forall (λ x, p x = true) a ∧ k b = Some r.
Proof.
  induction s as [|x s IH]; simpl.
  - intros H. by exists [], [].
  - destruct (p x) eqn:Hx.
    + destruct (star p s k) as [r'|] eqn:Hs.
      * intros [= ->]. destruct (IH eq_refl) as (a & b & -> & Ha & Hk).
        exists (x :: a), b. split_and!; [done| by constructor |done].
      * intros H. by exists [], (x :: s).
    + intros H. by exists [], (x :: s).
Qed.

Lemma star_None (s a b : str) :
  star p s k = None → s = a ++ b → Forall (λ x, p x = true) a → k b = None.
Proof.
  revert a. induction s as [|x s IH]; intros a; simpl.
  - intros H Hs _. symmetry in Hs. apply app_eq_nil in Hs as [-> ->]. done.
  - destruct a as [|y a]; simpl.
    + intros H <- _. destruct (p x); [|done]. by destruct (star p s k).
    + intros H [= <- ->] Ha. apply Forall_cons in Ha as [Hy Ha].
      rewrite Hy in H. destruct (star p (a ++ b) k) eqn:Hs; [done|].
      by eapply IH.
Qed.

(** The star settles on the longest run after which the rest matches. *)
Lemma star_greedy (a b : str) (r : A) :
  Forall (λ x, p x = true) a → k b = Some r →
  (∀ a' b', a' ≠ [] → b = a' ++ b' → Forall (λ x, p x = true) a' → k b' = None) →
  star p (a ++ b) k = Some r.
Proof.
  intros Ha Hk Hlater. induction Ha as [|x a Hx Ha IH]; simpl.
  - rewrite <- Hk. clear Hk r.
    induction b as [|x b IH]; [done|]. simpl.
    destruct (p x) eqn:Hx; [|done].
    rewrite IH.
    + rewrite (Hlater [x] b); [done|done|done|]. by constructor.
    + intros a' b' Ha' -> Hp. apply (Hlater (x :: a') b'); [done|done|].
      by constructor.
  - by rewrite Hx, IH.
Qed.
End Star.

(** A greedy run of characters other than a newline, then the character
    [c]: the run ends before the last [c] of the line. *)
Section Until.
Context {A : Type} (p : N → bool) (c : N) (f : str → A).
Hypothesis p_spec : ∀ x, p x = true ↔ x ≠ NL.
Hypothesis c_not_NL : c ≠ NL.

Lemma until_Some (s : str) (r : A) :
  until c f s = Some r ↔ ∃ s', s = c :: s' ∧ r = f s'.
Proof.
  unfold until. destruct (strip [c] s) as [s'|] eqn:E.
  - apply strip_Some in E. subst s. split.
    + intros [= <-]. by exists s'.
    + by intros (? & [= <-] & ->).
  - split; [done|]. intros (s' & -> & _). simpl in E.
    by rewrite char_eqb_refl in E.
Qed.

Lemma line_lacks_app (z s : str) :
  NL ∉ z → line_lacks c (z ++ s) = bool_decide (c ∉ z) && line_lacks c s.
Proof.
  induction z as [|x z IH]; intros Hz; [done|].
  apply not_elem_of_cons in Hz as [Hx Hz]. simpl.
  assert (E : char_eqb x NL = false) by by apply char_eqb_neq.
  rewrite E, (IH Hz). destruct (decide (x = c)) as [->|Hxc].
  - rewrite char_eqb_refl. rewrite (bool_decide_eq_false_2 (c ∉ c :: z)); [done|].
    intros H. apply H. by left.
  - assert (E2 : char_eqb x c = false) by by apply char_eqb_neq.
    rewrite E2. simpl. f_equal. apply bool_decide_ext.
    rewrite not_elem_of_cons.
    split; [intros ?; split; [congruence|done] | by intros [_ ?]].
Qed.

Lemma star_until_None (s : str) :
  star p s (until c f) = None ↔ line_lacks c s = true.
Proof.
  induction s as [|x s IH]; simpl; [done|].
  destruct (decide (x = NL)) as [->|Hx].
  - rewrite char_eqb_refl. destruct (p NL) eqn:E.
    + by apply (proj1 (p_spec _)) in E.
    + unfold until. simpl. 
      assert (E2 : char_eqb c NL = false) by by apply char_eqb_neq.
      by rewrite E2.
  - assert (E : char_eqb x NL = false) by by apply char_eqb_neq.
    rewrite E. apply p_spec in Hx. rewrite Hx.
    destruct (star p s (until c f)) as [r|] eqn:Hs.
    + split; [done|]. intros [_ H]%andb_true_iff.
      apply IH in H. done.
    + destruct IH as [IH _]. rewrite (IH eq_refl), andb_true_r.
      unfold until. simpl. rewrite (char_eqb_sym c x).
      destruct (char_eqb x c); simpl; done.
Qed.

Lemma star_until_Some (s : str) (r : A) :
  star p s (until c f) = Some r ↔
  ∃ z s', s = z ++ c :: s' ∧ (NL ∉ z) ∧ line_lacks c s' = true ∧ r = f s'.
Proof.
  split.
  - revert r. induction s as [|x s IH]; intros r; simpl; [done|].
    destruct (p x) eqn:Hx.
    + destruct (star p s (until c f)) as [r'|] eqn:Hs.
      * intros [= ->]. destruct (IH r eq_refl) as (z & s' & -> & Hz & Hl & ->).
        exists (x :: z), s'. split_and!; try done.
        apply not_elem_of_cons. split; [|done].
        intros <-. by apply p_spec in Hx.
      * intros (s' & [= -> ->] & ->)%until_Some.
        exists [], s'. split_and!; try done; [apply not_elem_of_nil|].
        by apply star_until_None.
    + intros (s' & [= -> ->] & ->)%until_Some.
      assert (p c = true) by by apply p_spec. congruence.
  - intros (z & s' & -> & Hz & Hl & ->).
    apply star_greedy.
    + apply Forall_forall. intros x Hx. apply p_spec. intros ->. done.
    + apply until_Some. eauto.
    + intros a' b' Ha' Hs' Hp.
      destruct (until c f b') as [r|] eqn:Hu; [|done].
      apply until_Some in Hu as (s'' & -> & ->).
      destruct a' as [|y a']; [done|]. injection Hs' as Hy Hs'. subst s'.
      rewrite line_lacks_app in Hl.
      * apply andb_true_iff in Hl as [_ Hl]. simpl in Hl.
        rewrite char_eqb_refl in Hl.
        assert (E2 : char_eqb c NL = false) by by apply char_eqb_neq.
        by rewrite E2 in Hl.
      * intros Hin. apply Forall_cons in Hp as [_ Hp].
        rewrite Forall_forall in Hp. apply Hp in Hin. by apply p_spec in Hin.
Qed.
End Until.

(** ** The search loop *)

Lemma scan_skip (r : regex) (k : nat) (s : str) :
  k ≤ length s → scan r k s = scan r 0 (drop k s).
Proof.
  revert k. induction s as [|c s IH]; intros k Hk.
  - simpl in Hk. by replace k with 0 by lia.
  - destruct k as [|k]; [done|]. simpl in Hk. cbn [scan drop].
    apply IH. lia.
Qed.

Lemma scan_miss (r : regex) (c : N) (s : str) :
  match_at false r (c :: s) = None → scan r 0 (c :: s) = Ch c :: scan r 0 s.
Proof. intros H. cbn [scan]. by rewrite H. Qed.

Lemma scan_match (r : regex) (s text rest : str) (cs : caps) :
  match_at false r s = Some (rest, cs) → s = text ++ rest → text ≠ [] →
  scan r 0 s = Match {| m_text := text; m_groups := cs |} :: scan r 0 rest.
Proof.
  intros Hm -> Ht. destruct text as [|c text]; [done|].
  cbn [app scan]. cbn [app] in Hm. rewrite Hm. unfold matched.
  assert (E : length (c :: text ++ rest) - length rest = S (length text))
    by (simpl; rewrite length_app; lia).
  rewrite E. cbn [take]. rewrite take_app_length.
  rewrite scan_skip by (rewrite length_app; lia).
  by rewrite drop_app_length.
Qed.

Lemma scan_all_miss (r : regex) (x s : str) :
  (∀ a b, x = a ++ b → b ≠ [] → match_at false r (b ++ s) = None) →
  scan r 0 (x ++ s) = (Ch <$> x) ++ scan r 0 s.
Proof.
  induction x as [|c x IH]; intros H; [done|].
  cbn [app fmap list_fmap]. rewrite scan_miss.
  - f_equal. apply IH. intros a b -> Hb. by apply (H (c :: a) b).
  - by apply (H [] (c :: x)).
Qed.

(** ** The patterns of the script *)

Lemma notnl_dot (x : N) : in_cset CDot x = true ↔ x ≠ NL.
Proof. simpl. rewrite negb_true_iff. apply char_eqb_neq. Qed.

Lemma notnl_set (x : N) : in_cset (CNot [NL]) x = true ↔ x ≠ NL.
Proof.
  simpl. rewrite negb_true_iff, bool_decide_eq_false.
  by rewrite list_elem_of_singleton.
Qed.

Lemma match_quoted_sound (q : N) (s rest : str) (cs : caps) :
  q ≠ NL →
  match_at false (quoted q) s = Some (rest, cs) →
  ∃ y tok z,
    s = q :: y ++ tok ++ z ++ q :: rest
    ∧ (NL ∉ y) ∧ is_token tok ∧ (NL ∉ z) ∧ line_lacks q rest = true
    ∧ cs = [(3, z ++ [q]); (2, tok); (1, q :: y)].
Proof.
  intros Hq. unfold match_at, quoted. cbn [exec andb].
  destruct (strip [q] s) as [sa|] eqn:Hs; [|done].
  apply strip_Some in Hs. subst s. intros H.
  apply star_sound in H as (y & b & -> & Hy & H).
  assert (Hy' : NL ∉ y).
  { intros Hin. rewrite Forall_forall in Hy. apply Hy in Hin.
    by apply notnl_set in Hin. }
  unfold TOKEN in H. cbn [exec] in H.
  assert (Htok : ∃ tok s1, is_token tok ∧ b = tok ++ s1 ∧
    star (in_cset (CNot [NL])) s1
      (λ s3, match strip [q] s3 with
             | Some s4 => Some (s4, [(3, take (length s1 - length s4) s1);
                    (2, take (length b - length s1) b);
                    (1, take (length ([q] ++ y ++ b) - length b) ([q] ++ y ++ b))])
             | None => None
             end) = Some (rest, cs)).
  { destruct (strip (U "a-zA-Z") b) as [s1|] eqn:H1.
    - destruct (star _ s1 _) as [r|] eqn:H2 in H.
      + exists (U "a-zA-Z"), s1. apply strip_Some in H1. split_and!; [by left|done|].
        by rewrite <- H.
      + destruct (strip (U "A-Za-z") b) as [s2|] eqn:H3; [|done].
        exists (U "A-Za-z"), s2. apply strip_Some in H3. split_and!; [by right|done|done].
    - destruct (strip (U "A-Za-z") b) as [s2|] eqn:H3; [|done].
      exists (U "A-Za-z"), s2. apply strip_Some in H3. split_and!; [by right|done|done]. }
  clear H. destruct Htok as (tok & s1 & Htok & -> & H).
  apply (star_until_Some _ q (λ s4, (s4, _)) notnl_set Hq) in H
    as (z & s' & -> & Hz & Hl & [= -> ->]).
  exists y, tok, z. split_and!; try done.
  rewrite (take_matched (z ++ [q]) s') by (by rewrite <- app_assoc).
  rewrite (take_matched tok (z ++ q :: s')) by done.
  change (S (length (y ++ tok ++ z ++ q :: s')))
    with (length (q :: y ++ tok ++ z ++ q :: s')).
  by rewrite (take_matched (q :: y) (tok ++ z ++ q :: s')).
Qed.

Lemma match_target_sound (s rest : str) (cs : caps) :
  match_at false TARGET s = Some (rest, cs) →
  ∃ mid,
    s = ALLOW ++ mid ++ RPAREN :: rest
    ∧ (NL ∉ mid) ∧ line_lacks RPAREN rest = true ∧ cs = [].
Proof.
  unfold match_at, TARGET. cbn [exec andb].
  destruct (strip ALLOW s) as [sa|] eqn:Hs; [|done].
  apply strip_Some in Hs. subst s. intros H.
  apply (star_until_Some _ RPAREN (λ s4, (s4, [])) notnl_dot) in H
    as (z & s' & -> & Hz & Hl & [= -> ->]); [|done].
  by exists z.
Qed.

Lemma match_target_complete (mid rest : str) :
  NL ∉ mid → line_lacks RPAREN rest = true →
  match_at false TARGET (ALLOW ++ mid ++ RPAREN :: rest) = Some (rest, []).
Proof.
  intros Hm Hl. unfold match_at, TARGET. cbn [exec andb].
  rewrite (proj2 (strip_Some ALLOW _ (mid ++ RPAREN :: rest)) eq_refl).
  apply (star_until_Some _ RPAREN (λ s4, (s4, [])) notnl_dot); [done|].
  by exists mid, rest.
Qed.


Section Advancing.
Context (r : regex) (Hadv : advancing r).

Lemma scan_nil : scan r 0 [] = [].
Proof.
  cbn [scan]. destruct (match_at false r []) as [[rest cs]|] eqn:H; [|done].
  apply Hadv in H as (text & Ht & H). symmetry in H.
  apply app_eq_nil in H as [-> _]. done.
Qed.

(** Induction along the search loop. *)
Lemma scan_induction (P : str → list piece → Prop) :
  P [] [] →
  (∀ c s, match_at false r (c :: s) = None →
     P s (scan r 0 s) → P (c :: s) (Ch c :: scan r 0 s)) →
  (∀ text rest cs, text ≠ [] →
     match_at false r (text ++ rest) = Some (rest, cs) →
     P rest (scan r 0 rest) →
     P (text ++ rest)
       (Match {| m_text := text; m_groups := cs |} :: scan r 0 rest)) →
  ∀ s, P s (scan r 0 s).
Proof.
  intros Hnil Hmiss Hmatch s.
  remember (length s) as n eqn:Hn. revert s Hn.
  induction n as [n IH] using lt_wf_ind. intros s ->.
  destruct s as [|c s]; [by rewrite scan_nil|].
  destruct (match_at false r (c :: s)) as [[rest cs]|] eqn:Hm.
  - destruct (Hadv _ _ _ Hm) as (text & Ht & Hs).
    rewrite Hs in Hm |- *. rewrite (scan_match _ _ text rest cs Hm eq_refl Ht).
    apply Hmatch; [done|done|].
    apply (IH (length rest)); [|done].
    rewrite Hs. destruct text; [done|]. rewrite length_app. simpl. lia.
  - rewrite scan_miss by done. apply Hmiss; [done|].
    apply (IH (length s)); [simpl; lia|done].
Qed.

Lemma scan_text (s : str) : scan r 0 s ≫= piece_text = s.
Proof.
  apply (scan_induction (λ s ps, ps ≫= piece_text = s)).
  - done.
  - intros c s' _ IH. cbn [mbind list_bind piece_text app]. by f_equal.
  - intros text rest cs _ _ IH. cbn [mbind list_bind piece_text m_text].
    by f_equal.
Qed.
End Advancing.

Lemma advancing_quoted (q : N) : q ≠ NL → advancing (quoted q).
Proof.
  intros Hq s rest cs H.
  apply match_quoted_sound in H as (y & tok & z & -> & _); [|done].
  exists (q :: y ++ tok ++ z ++ [q]). split; [done|].
  by rewrite <- !app_comm_cons, <- !app_assoc.
Qed.

Lemma advancing_target : advancing TARGET.
Proof.
  intros s rest cs H. apply match_target_sound in H as (mid & -> & _).
  exists (ALLOW ++ mid ++ [RPAREN]). split; [done|].
  by rewrite <- !app_assoc.
Qed.

Lemma token_no_newline (tok : str) : is_token tok → NL ∉ tok.
Proof.
  intros [-> | ->]; apply (bool_decide_unpack _); vm_compute; exact I.
Qed.





Lemma startswith_app_stop (p b m : str) (c : N) :
  c ∉ p → startswith p (b ++ c :: m) = startswith p b.
Proof.
  revert b. induction p as [|a p IH]; intros b Hc; [done|].
  apply not_elem_of_cons in Hc as [Hca Hc].
  destruct b as [|x b]; simpl.
  - assert (E : char_eqb a c = false) by (apply char_eqb_neq; congruence).
    by rewrite E.
  - by rewrite IH.
Qed.

Lemma strip_None_startswith (p s : str) :
  startswith p s = false → strip p s = None.
Proof.
  intros H. destruct (strip p s) eqn:E; [|done].
  assert (startswith p s = true) by (apply startswith_strip; eauto).
  congruence.
Qed.

Lemma no_token_in_suffix (a m : str) :
  no_token_in (a ++ m) = true → token_at m = false.
Proof.
  induction a as [|x a IH]; simpl.
  - destruct m as [|x m]; [done|]. simpl.
    intros [H _]%andb_true_iff. by apply negb_true_iff in H.
  - intros [_ H]%andb_true_iff. by apply IH.
Qed.

Section Quoted.
Context (q : N).
Hypothesis q_not_NL : q ≠ NL.
Hypothesis q_not_in_T1 : q ∉ U "a-zA-Z".
Hypothesis q_not_in_T2 : q ∉ U "A-Za-z".

Lemma tail_quoted_Some (c1 : caps) (tok z after : str) :
  is_token tok → NL ∉ z → line_lacks q after = true →
  tail_quoted q c1 (tok ++ z ++ q :: after)
  = Some (after, (3, z ++ [q]) :: (2, tok) :: c1).
Proof.
  intros Htok Hz Hl. unfold tail_quoted, TOKEN. cbn [exec].
  assert (Hrun : ∀ c2,
    star (in_cset (CNot [NL])) (z ++ q :: after)
      (λ s3, match strip [q] s3 with
             | Some s4 =>
                 Some (s4, (3, take (length (z ++ q :: after) - length s4)
                                 (z ++ q :: after)) :: c2)
             | None => None
             end)
    = Some (after, (3, z ++ [q]) :: c2)).
  { intros c2.
    apply (star_until_Some _ q (λ s4, (s4, _)) notnl_set q_not_NL).
    exists z, after. split_and!; try done.
    by rewrite (take_matched (z ++ [q]) after) by (by rewrite <- app_assoc). }
  destruct Htok as [-> | ->].
  - rewrite (proj2 (strip_Some (U "a-zA-Z") _ (z ++ q :: after)) eq_refl).
    rewrite Hrun. by rewrite (take_matched (U "a-zA-Z") (z ++ q :: after)).
  - replace (strip (U "a-zA-Z") (U "A-Za-z" ++ z ++ q :: after)) with (@None (str)) by done.
    rewrite (proj2 (strip_Some (U "A-Za-z") _ (z ++ q :: after)) eq_refl).
    rewrite Hrun. by rewrite (take_matched (U "A-Za-z") (z ++ q :: after)).
Qed.

Lemma tail_quoted_None (c1 : caps) (b : str) :
  (∀ tok s1, is_token tok → b = tok ++ s1 → line_lacks q s1 = true) →
  tail_quoted q c1 b = None.
Proof.
  intros H. unfold tail_quoted, TOKEN. cbn [exec].
  assert (Hrun : ∀ tok s1 c2, is_token tok → b = tok ++ s1 →
    star (in_cset (CNot [NL])) s1
      (λ s3, match strip [q] s3 with
             | Some s4 =>
                 Some (s4, (3, take (length s1 - length s4) s1) :: c2)
             | None => None
             end) = None).
  { intros tok s1 c2 Htok Hb.
    apply (star_until_None _ q (λ s4, (s4, _)) notnl_set q_not_NL).
    by apply (H tok). }
  destruct (strip (U "a-zA-Z") b) as [s1|] eqn:H1.
  - apply strip_Some in H1. rewrite (Hrun (U "a-zA-Z") s1) by (by try left).
    destruct (strip (U "A-Za-z") b) as [s2|] eqn:H2; [|done].
    apply strip_Some in H2. by rewrite (Hrun (U "A-Za-z") s2) by (by try right).
  - destruct (strip (U "A-Za-z") b) as [s2|] eqn:H2; [|done].
    apply strip_Some in H2. by rewrite (Hrun (U "A-Za-z") s2) by (by try right).
Qed.

Lemma match_quoted_head (s : str) :
  match_at false (quoted q) s
  = match s with
    | x :: sa =>
        if char_eqb q x
        then star (in_cset (CNot [NL])) sa
               (λ b, tail_quoted q [(1, take (length s - length b) s)] b)
        else None
    | [] => None
    end.
Proof.
  unfold match_at, quoted, tail_quoted. cbn [exec andb strip].
  destruct s as [|x sa]; [done|]. by destruct (char_eqb q x).
Qed.

Lemma match_quoted_other (x : N) (s : str) :
  x ≠ q → match_at false (quoted q) (x :: s) = None.
Proof.
  intros Hx. rewrite match_quoted_head.
  assert (E : char_eqb q x = false) by (apply char_eqb_neq; congruence).
  by rewrite E.
Qed.

Lemma match_quoted_complete (y tok z after : str) :
  NL ∉ y → is_token tok → NL ∉ z →
  no_token_in (drop 1 (tok ++ z)) = true →
  line_lacks q after = true →
  match_at false (quoted q) (q :: y ++ tok ++ z ++ q :: after)
  = Some (after, [(3, z ++ [q]); (2, tok); (1, q :: y)]).
Proof.
  intros Hy Htok Hz Hlast Hl. rewrite match_quoted_head, char_eqb_refl.
  apply star_greedy.
  - apply Forall_forall. intros x Hx. apply notnl_set. by intros ->.
  - rewrite (take_matched (q :: y) (tok ++ z ++ q :: after)) by done.
    by apply tail_quoted_Some.
  - intros a' b' Ha' Hsplit Hnl. apply tail_quoted_None.
    intros tok' s1 Htok' ->.
    assert (Ha'nl : NL ∉ a').
    { intros Hin. rewrite Forall_forall in Hnl. apply Hnl in Hin.
      by apply notnl_set in Hin. }
    assert (Hstart : startswith tok' (tok' ++ s1) = true).
    { apply startswith_strip. exists s1. by apply strip_Some. }
    assert (Hq' : q ∉ tok') by (by destruct Htok' as [-> | ->]).
    rewrite (app_assoc tok z) in Hsplit.
    apply app_eq_inv in Hsplit as [(m & Hm1 & Hm2) | (m & Hm1 & Hm2)].
    + (* the token would begin inside the literal, after the last one *)
      exfalso. rewrite Hm2, startswith_app_stop in Hstart by done.
      destruct a' as [|x a']; [done|]. rewrite Hm1 in Hlast.
      cbn [app drop] in Hlast. rewrite drop_0 in Hlast.
      apply no_token_in_suffix in Hlast. unfold token_at in Hlast.
      apply orb_false_iff in Hlast as [H1 H2].
      destruct Htok' as [-> | ->]; congruence.
    + (* the token would begin after the closing quote *)
      destruct m as [|x m].
      * exfalso. simpl in Hm2.
        destruct Htok' as [-> | ->]; injection Hm2 as Hm2 _;
          [apply q_not_in_T1 | apply q_not_in_T2]; rewrite Hm2; by left.
      * injection Hm2 as <- ->.
        rewrite (line_lacks_app _ m) in Hl.
        -- apply andb_true_iff in Hl as [_ Hl].
           rewrite (line_lacks_app _ tok') in Hl.
           ++ by apply andb_true_iff in Hl as [_ Hl].
           ++ by apply token_no_newline.
        -- rewrite Hm1 in Ha'nl. rewrite !not_elem_of_app, not_elem_of_cons in Ha'nl.
           by destruct Ha'nl as (_ & _ & ?).
Qed.
End Quoted.

(** ** Templates *)

Lemma backslashes_id (s : str) : BACKSLASH ∉ s → backslashes s = s.
Proof.
  induction s as [|c s IH]; [done|]. intros [Hc Hs]%not_elem_of_cons.
  simpl. assert (E : char_eqb c BACKSLASH = false) by (apply char_eqb_neq; congruence).
  rewrite E. simpl. by rewrite IH.
Qed.

Lemma quote_escaped_quote (q : N) (W : str) :
  quote_escaped q (q :: W) = BACKSLASH :: q :: quote_escaped q W.
Proof. unfold quote_escaped. cbn [mbind list_bind]. by rewrite char_eqb_refl. Qed.

Lemma quote_escaped_other (q c : N) (W : str) :
  c ≠ q → quote_escaped q (c :: W) = c :: quote_escaped q W.
Proof.
  intros Hc. unfold quote_escaped. cbn [mbind list_bind].
  assert (E : char_eqb q c = false) by (apply char_eqb_neq; congruence).
  by rewrite E.
Qed.

Lemma parse_group_ref (n : nat) (d : N) (X : str) :
  char_eqb d 103 = false → char_eqb d 48 = false → is_digit d = true →
  leading_digit X = false →
  parse_template n (BACKSLASH :: d :: X)
  = tcons (tgroup n (digit_val d)) (parse_template n X).
Proof.
  intros H1 H2 H3 HX. cbn [parse_template]. rewrite char_eqb_refl.
  cbn [negb]. rewrite H1, H2, H3.
  destruct X as [|x X]; [done|]. simpl in HX. by rewrite HX.
Qed.

Lemma quote_escaped_app (q : char) (a b : str) :
  quote_escaped q (a ++ b) = quote_escaped q a ++ quote_escaped q b.
Proof. unfold quote_escaped. apply bind_app. Qed.

Lemma parse_template_escaped (n : nat) (single : bool) (W tail : str) :
  parse_template n (escape_str W single ++ tail)
  = rbind (parse_template n tail)
          (λ l, Ret ((TLit <$> template_text (quote_of single) W) ++ l)).
Proof.
  rewrite escape_str_backslashes.
  remember (length W) as k eqn:Hk. revert W Hk.
  induction k as [k IH] using lt_wf_ind. intros W ->.
  destruct W as [|c W]; [simpl; by destruct (parse_template n tail)|].
  assert (Hb2 : quote_escaped (quote_of single) (U "\\") = U "\\")
    by (by destruct single).
  assert (Hb3 : quote_escaped (quote_of single) (U "\\\") = U "\\\")
    by (by destruct single).
  assert (Hn : 110%N ≠ quote_of single) by (by destruct single).
  cbn [backslashes template_text]. rewrite quote_escaped_app, <- app_assoc.
  destruct (decide (c = BACKSLASH)) as [->|Hc].
  - rewrite char_eqb_refl. destruct W as [|d W].
    + rewrite Hb2. simpl. by destruct (parse_template n tail).
    + destruct (decide (d = 110%N)) as [->|Hd].
      * rewrite char_eqb_refl. cbn [backslashes].
        replace (char_eqb 110 BACKSLASH) with false by done.
        rewrite Hb3. cbn [app]. rewrite quote_escaped_other by done.
        change (parse_template n (U "\\\" ++ (110%N :: ?a) ++ ?t))
          with (tcons (Ret (TLit BACKSLASH))
                  (tcons (Ret (TLit NL)) (parse_template n (a ++ t)))).
        rewrite (IH (length W)) by (simpl; lia || done).
        cbn [fmap list_fmap app]. by destruct (parse_template n tail).
      * assert (E : char_eqb d 110 = false) by by apply char_eqb_neq.
        rewrite E, Hb2.
        change (parse_template n (U "\\" ++ ?t))
          with (tcons (Ret (TLit BACKSLASH)) (parse_template n t)).
        rewrite (IH (length (d :: W))) by (simpl; lia || done).
        cbn [fmap list_fmap app]. by destruct (parse_template n tail).
  - assert (E : char_eqb c BACKSLASH = false) by by apply char_eqb_neq.
    rewrite E. destruct (decide (c = quote_of single)) as [->|Hq].
    + rewrite char_eqb_refl, (quote_escaped_quote _ []).
      change (quote_escaped (quote_of single) []) with (@nil N).
      cbn [app].
      destruct single; cbn [quote_of] in *;
        (change (parse_template n (BACKSLASH :: ?a :: ?t))
           with (tcons (Ret (TLit BACKSLASH))
                   (tcons (Ret (TLit a)) (parse_template n t))));
        rewrite (IH (length W)) by (simpl; lia || done);
        cbn [fmap list_fmap app]; by destruct (parse_template n tail).
    + assert (E2 : char_eqb c (quote_of single) = false) by by apply char_eqb_neq.
      rewrite E2. rewrite (quote_escaped_other _ _ []) by done.
      change (quote_escaped (quote_of single) []) with (@nil N).
      cbn [app parse_template]. rewrite E. cbn [negb].
      rewrite (IH (length W)) by (simpl; lia || done).
      cbn [fmap list_fmap app]. by destruct (parse_template n tail).
Qed.

Lemma escape_str_plain (c : char) (W : str) (single : bool) :
  c ≠ BACKSLASH → c ≠ quote_of single →
  escape_str (c :: W) single = c :: escape_str W single.
Proof.
  intros H1 H2. rewrite !escape_str_backslashes. cbn [backslashes].
  assert (E : char_eqb c BACKSLASH = false) by by apply char_eqb_neq.
  rewrite E. cbn [app]. by rewrite quote_escaped_other.
Qed.

Lemma digit_plain (c : char) (single : bool) :
  is_digit c = true → c ≠ BACKSLASH ∧ c ≠ quote_of single.
Proof.
  unfold is_digit. intros [H1 H2]%andb_true_iff.
  apply N.leb_le in H1, H2.
  split; [|destruct single; cbn [quote_of]]; intros ->; vm_compute in H1, H2; 
    first [by apply H1 | by apply H2].
Qed.

Lemma template_text_id (q : char) (W : str) :
  BACKSLASH ∉ W → template_text q W = quote_escaped q W.
Proof.
  induction W as [|c W IH]; [done|]. intros [Hc HW]%not_elem_of_cons.
  cbn [template_text].
  assert (E : char_eqb c BACKSLASH = false) by (apply char_eqb_neq; congruence).
  rewrite E. destruct (decide (c = q)) as [->|Hq].
  - by rewrite char_eqb_refl, quote_escaped_quote, IH.
  - assert (E2 : char_eqb c q = false) by by apply char_eqb_neq.
    by rewrite E2, quote_escaped_other, IH.
Qed.

(** The group reference [\2] when a digit follows it. *)
Lemma parse_group2_digit (d1 : char) (t3 : str) :
  is_digit d1 = true →
  parse_template 3 (BACKSLASH :: 50%N :: d1 :: t3)
  = match t3 with
    | d2 :: t4 =>
        if is_octdigit d1 && is_octdigit d2
        then tcons (Ret (TLit (128 + 8 * digit_val d1 + digit_val d2)%N))
                   (parse_template 3 t4)
        else Raise ReError
    | [] => Raise ReError
    end.
Proof.
  intros Hd. cbn [parse_template]. rewrite char_eqb_refl. cbn [negb].
  replace (char_eqb 50 103) with false by done.
  replace (char_eqb 50 48) with false by done.
  replace (is_digit 50) with true by done. rewrite Hd.
  replace (is_octdigit 50) with true by done. cbn [andb].
  assert (Hbad : ∀ rest, tcons (tgroup 3 (10 * digit_val 50 + digit_val d1)) rest
                         = Raise ReError).
  { intros rest. unfold tgroup. rewrite bool_decide_eq_false_2; [done|].
    change (digit_val 50) with 2%N. lia. }
  destruct t3 as [|d2 t4]; [apply Hbad|].
  destruct (is_octdigit d1 && is_octdigit d2) eqn:Ho; [|apply Hbad].
  apply andb_true_iff in Ho as [H1 H2]. unfold is_octdigit in H1, H2.
  apply andb_true_iff in H1 as [H1a H1b]. apply andb_true_iff in H2 as [H2a H2b].
  apply N.leb_le in H1a, H1b, H2a, H2b.
  change (digit_val 50) with 2%N. unfold digit_val.
  replace (64 * 2 + 8 * (d1 - 48) + (d2 - 48))%N
    with (128 + 8 * (d1 - 48) + (d2 - 48))%N by lia.
  destruct (255 <? 128 + 8 * (d1 - 48) + (d2 - 48))%N eqn:Hv; [|done].
  apply N.ltb_lt in Hv. lia.
Qed.

Lemma parse_rule_template_general (W : str) (single : bool) :
  leading_digit W = false →
  parse_template 3 (rule_template W single)
  = Ret (TGroup 1 :: TGroup 2
           :: (TLit <$> template_text (quote_of single) W) ++ [TGroup 3]).
Proof.
  intros Hd. unfold rule_template.
  change (U "\1\2" ++ ?X) with (BACKSLASH :: 49%N :: BACKSLASH :: 50%N :: X).
  rewrite parse_group_ref by done.
  rewrite parse_group_ref; try done.
  - by rewrite parse_template_escaped.
  - rewrite escape_str_backslashes. destruct W as [|c W]; [done|].
    cbn [backslashes]. simpl in Hd.
    destruct (char_eqb c BACKSLASH).
    { destruct single; destruct W as [|d W];
        try destruct (char_eqb d 110); done. }
    cbn [app]. destruct (decide (c = quote_of single)) as [->|Hq].
    + by rewrite quote_escaped_quote.
    + by rewrite quote_escaped_other.
Qed.

Lemma parse_template_plain (n : nat) (a t : str) :
  BACKSLASH ∉ a →
  parse_template n (a ++ t)
  = rbind (parse_template n t) (λ l, Ret ((TLit <$> a) ++ l)).
Proof.
  induction a as [|c a IH]; intros Ha.
  - simpl. by destruct (parse_template n t).
  - apply not_elem_of_cons in Ha as [Hc Ha]. cbn [app parse_template].
    assert (E : char_eqb c BACKSLASH = false) by (apply char_eqb_neq; congruence).
    rewrite E. cbn [negb]. rewrite IH by done.
    by destruct (parse_template n t).
Qed.

(** The templates of the script stay inside the model. *)
Lemma templates_modelled (W : str) :
  parse_template 0 (declaration W)
  = Ret (TLit <$> U "string allowSpecialChars = " ++ [DQUOTE]
           ++ template_text SQUOTE W ++ [DQUOTE] ++ U ")")
  ∧ ∀ single, parse_template 3 (rule_template W single) ≠ Raise Unmodelled.
Proof.
  split.
  - unfold declaration.
    rewrite (app_assoc _ [DQUOTE]), parse_template_plain
      by (apply (bool_decide_unpack _); vm_compute; exact I).
    rewrite (parse_template_escaped 0 true). cbn [rbind parse_template].
    change (parse_template 0 ([DQUOTE] ++ U ")"))
      with (Ret (TLit <$> [DQUOTE] ++ U ")")).
    cbn [rbind quote_of]. by rewrite !fmap_app, <- !app_assoc.
  - intros single.
    destruct (leading_digit W) eqn:Hd;
      [|by rewrite parse_rule_template_general].
    destruct W as [|d1 W]; [done|]. simpl in Hd.
    destruct (digit_plain d1 single Hd) as [Hb Hq].
    unfold rule_template. rewrite escape_str_plain by done.
    change (U "\1\2" ++ ?X) with (BACKSLASH :: 49%N :: BACKSLASH :: 50%N :: X).
    rewrite parse_group_ref by done. cbn [app].
    rewrite parse_group2_digit by done.
    destruct (escape_str W single ++ U "\3") as [|d2 t4] eqn:Ht; [done|].
    destruct (is_octdigit d1 && is_octdigit d2) eqn:Ho; [|done].
    apply andb_true_iff in Ho as [_ Ho].
    assert (Hd2 : is_digit d2 = true).
    { unfold is_octdigit in Ho. unfold is_digit.
      apply andb_true_iff in Ho as [H1 H2]. apply N.leb_le in H1, H2.
      apply andb_true_iff. split; apply N.leb_le; lia. }
    destruct W as [|c W].
    + destruct single; vm_compute in Ht; injection Ht as <- _; done.
    + destruct (decide (c = BACKSLASH)) as [->|Hcb].
      { rewrite escape_str_backslashes in Ht. cbn [backslashes] in Ht.
        rewrite char_eqb_refl in Ht.
        assert (d2 = BACKSLASH); [|by subst].
        destruct single; destruct W as [|e W];
          try destruct (char_eqb e 110); by injection Ht as <- _. }
      destruct (decide (c = quote_of single)) as [->|Hcq].
      { rewrite escape_str_backslashes in Ht. cbn [backslashes] in Ht.
        assert (E : char_eqb (quote_of single) BACKSLASH = false) by by destruct single.
        rewrite E in Ht. cbn [app] in Ht. rewrite quote_escaped_quote in Ht.
        injection Ht as <- _. done. }
      rewrite escape_str_plain in Ht by done. injection Ht as <- <-.
      rewrite parse_template_escaped. done.
Qed.

Lemma parse_rule_template (W : str) (single : bool) :
  BACKSLASH ∉ W → leading_digit W = false →
  parse_template 3 (rule_template W single)
  = Ret (TGroup 1 :: TGroup 2 :: (TLit <$> escape_str W single) ++ [TGroup 3]).
Proof.
  intros HW Hd. rewrite parse_rule_template_general by done.
  rewrite template_text_id by done.
  by rewrite escape_str_backslashes, backslashes_id.
Qed.

Lemma expand_rule (E g1 g2 g3 t : str) :
  expand (TGroup 1 :: TGroup 2 :: (TLit <$> E) ++ [TGroup 3])
         {| m_text := t; m_groups := [(3, g3); (2, g2); (1, g1)] |}
  = g1 ++ g2 ++ E ++ g3.
Proof.
  unfold expand. cbn [mbind list_bind]. rewrite bind_app.
  cbn [mbind list_bind m_groups group]. 
  replace ((TLit <$> E) ≫= _) with E.
  - simpl. by rewrite app_nil_r.
  - induction E as [|c E IH]; [done|]. cbn [fmap list_fmap mbind list_bind app].
    by f_equal.
Qed.

Lemma quote_not_NL (single : bool) : quote_of single ≠ NL.
Proof. by destruct single. Qed.

Lemma quote_not_in_T1 (single : bool) : quote_of single ∉ U "a-zA-Z".
Proof. destruct single; apply (bool_decide_unpack _); vm_compute; exact I. Qed.

Lemma quote_not_in_T2 (single : bool) : quote_of single ∉ U "A-Za-z".
Proof. destruct single; apply (bool_decide_unpack _); vm_compute; exact I. Qed.

Lemma bind_Ch (tpl : list titem) (x : str) : (Ch <$> x) ≫= sub_piece tpl = x.
Proof.
  induction x as [|c x IH]; [done|].
  cbn [fmap list_fmap mbind list_bind sub_piece app]. by f_equal.
Qed.

Lemma startswith_app_long (p u v : str) :
  length p ≤ length u → startswith p (u ++ v) = startswith p u.
Proof.
  revert u. induction p as [|a p IH]; intros u Hu; [done|].
  destruct u as [|x u]; [simpl in Hu; lia|]. simpl in *.
  rewrite IH by lia. done.
Qed.

Lemma match_target_None (s : str) :
  startswith ALLOW s = false → match_at false TARGET s = None.
Proof.
  intros H. unfold match_at, TARGET. cbn [exec].
  by rewrite strip_None_startswith.
Qed.

Lemma star_ext {A} (p : N → bool) (k k' : str → option A) (s : str) :
  (∀ s', k s' = k' s') → star p s k = star p s k'.
Proof.
  intros H. induction s as [|x s IH]; simpl; [done|].
  by rewrite IH, H.
Qed.

Lemma exec_ext {A} (r : regex) (s : str) (cs : caps)
    (k k' : str → caps → option A) :
  (∀ s' cs', k s' cs' = k' s' cs') → exec r s cs k = exec r s cs k'.
Proof.
  revert s cs k k'. induction r as [t|c|c|r1 IH1 r2 IH2|r1 IH1 r2 IH2|n r1 IH1];
    intros s cs k k' H; cbn [exec].
  - destruct (strip t s); [apply H|done].
  - destruct s as [|x s]; [done|]. destruct (in_cset c x); [apply H|done].
  - apply star_ext. intros s'. apply H.
  - apply IH1. intros s1 c1. by apply IH2.
  - by rewrite (IH1 s cs k k'), (IH2 s cs k k').
  - apply IH1. intros s1 c1. apply H.
Qed.

Lemma star_fmap {A B} (f : A → B) (p : N → bool) (k : str → option A)
    (s : str) :
  star p s (λ s', f <$> k s') = f <$> star p s k.
Proof.
  induction s as [|x s IH]; simpl; [done|].
  destruct (p x); [|done]. rewrite IH. by destruct (star p s k).
Qed.

Lemma exec_fmap {A B} (f : A → B) (r : regex) (s : str)
    (cs : caps) (k : str → caps → option A) :
  exec r s cs (λ s' cs', f <$> k s' cs') = f <$> exec r s cs k.
Proof.
  revert s cs k. induction r as [t|c|c|r1 IH1 r2 IH2|r1 IH1 r2 IH2|n r1 IH1];
    intros s cs k; cbn [exec].
  - by destruct (strip t s).
  - destruct s as [|x s]; [done|]. by destruct (in_cset c x).
  - apply star_fmap.
  - rewrite <- IH1. apply exec_ext. intros s1 c1. apply IH2.
  - rewrite IH1, IH2. by destruct (exec r1 s cs k).
  - apply IH1.
Qed.

Lemma strip_line (t s tl : str) :
  NL ∉ t → strip t (s ++ NL :: tl) = (λ s', s' ++ NL :: tl) <$> strip t s.
Proof.
  revert s. induction t as [|a t IH]; intros s Ht; [done|].
  apply not_elem_of_cons in Ht as [Ha Ht].
  destruct s as [|x s]; simpl.
  - assert (E : char_eqb a NL = false) by (apply char_eqb_neq; congruence).
    by rewrite E.
  - destruct (char_eqb a x); [by apply IH|done].
Qed.

Lemma star_line {A} (p : N → bool) (k : str → option A) (s tl : str) :
  p NL = false →
  star p (s ++ NL :: tl) k = star p s (λ s', k (s' ++ NL :: tl)).
Proof.
  intros Hp. induction s as [|x s IH]; simpl.
  - by rewrite Hp.
  - by rewrite IH.
Qed.

(** Matching stops at the end of the line: what follows the first newline
    of the subject has no part in it. *)
Lemma exec_line {A} (r : regex) (s tl : str) (cs : caps)
    (k : str → caps → option A) :
  no_newline r = true →
  exec r (s ++ NL :: tl) cs k
  = exec r s cs (λ s' cs', k (s' ++ NL :: tl) cs').
Proof.
  revert s cs k. induction r as [t|c|c|r1 IH1 r2 IH2|r1 IH1 r2 IH2|n r1 IH1];
    intros s cs k Hr; cbn [exec no_newline] in *.
  - apply bool_decide_eq_true in Hr. rewrite strip_line by done.
    by destruct (strip t s).
  - apply negb_true_iff in Hr. destruct s as [|x s]; simpl; [by rewrite Hr|done].
  - apply negb_true_iff in Hr. by apply star_line.
  - apply andb_true_iff in Hr as [H1 H2]. rewrite IH1 by done.
    apply exec_ext. intros s1 c1. by apply IH2.
  - apply andb_true_iff in Hr as [H1 H2]. by rewrite IH1, IH2.
  - rewrite IH1 by done. apply exec_ext. intros s1 c1. do 3 f_equal.
    rewrite !length_app. 
    replace (length s + length (NL :: tl) - (length s1 + length (NL :: tl)))
      with (length s - length s1) by lia.
    apply take_app_le. lia.
Qed.

Lemma match_at_line (r : regex) (s tl : str) :
  no_newline r = true →
  match_at false r (s ++ NL :: tl)
  = (λ m, (m.1 ++ NL :: tl, m.2)) <$> match_at false r s.
Proof.
  intros Hr. unfold match_at. cbn [andb]. rewrite exec_line by done.
  by rewrite <- exec_fmap.
Qed.

Section Lines.
Context (r : regex) (Hadv : advancing r) (Hnl : no_newline r = true).

(** The search treats every line on its own. *)
Lemma scan_line (l tl : str) :
  NL ∉ l → scan r 0 (l ++ NL :: tl) = scan r 0 l ++ Ch NL :: scan r 0 tl.
Proof.
  remember (length l) as n eqn:Hn. revert l Hn.
  induction n as [n IH] using lt_wf_ind. intros l -> Hl.
  destruct l as [|c l].
  - rewrite scan_nil by done. cbn [app]. apply scan_miss.
    assert (Hm := match_at_line r [] tl Hnl). cbn [app] in Hm. rewrite Hm.
    destruct (match_at false r []) as [[rest cs]|] eqn:H; [|done].
    apply Hadv in H as (text & Ht & H). symmetry in H.
    by apply app_eq_nil in H as [-> _].
  - destruct (match_at false r (c :: l)) as [[rest cs]|] eqn:Hm.
    + destruct (Hadv _ _ _ Hm) as (text & Ht & Hs).
      assert (Hm' := match_at_line r (c :: l) tl Hnl). rewrite Hm in Hm'.
      cbn [fmap option_fmap option_map fst snd] in Hm'.
      rewrite Hs in Hm, Hm' |- *.
      rewrite (scan_match r (text ++ rest) text rest cs Hm eq_refl Ht).
      rewrite <- app_assoc in Hm' |- *.
      rewrite (scan_match r _ text (rest ++ NL :: tl) cs Hm' eq_refl Ht).
      cbn [app]. f_equal. apply (IH (length rest)); [|done|].
      * rewrite Hs. destruct text; [done|]. rewrite length_app. simpl. lia.
      * rewrite Hs in Hl. rewrite not_elem_of_app in Hl. by destruct Hl.
    + assert (Hm' := match_at_line r (c :: l) tl Hnl). rewrite Hm in Hm'.
      cbn [app] in *. rewrite !scan_miss by done. cbn [app]. f_equal.
      apply not_elem_of_cons in Hl as [_ Hl].
      apply (IH (length l)); [simpl; lia|done|done].
Qed.

Lemma scan_lines (before s : str) :
  scan r 0 ((before ++ [NL]) ++ s) = scan r 0 (before ++ [NL]) ++ scan r 0 s.
Proof.
  remember (length before) as n eqn:Hn. revert before Hn.
  induction n as [n IH] using lt_wf_ind. intros before ->.
  destruct (decide (NL ∈ before)) as [Hin|Hout].
  - apply list_elem_of_split_l in Hin as (l & b' & -> & Hl).
    rewrite <- !app_assoc. cbn [app].
    rewrite (scan_line l (b' ++ NL :: s)), (scan_line l (b' ++ [NL])) by done.
    rewrite <- app_assoc. cbn [app]. do 2 f_equal.
    assert (Hlt : length b' < length (l ++ NL :: b'))
      by (rewrite length_app; simpl; lia).
    specialize (IH (length b') Hlt b' eq_refl).
    rewrite <- !app_assoc in IH. exact IH.
  - rewrite <- app_assoc. cbn [app].
    rewrite (scan_line before s), (scan_line before []) by done.
    rewrite scan_nil by done. by rewrite <- app_assoc.
Qed.
End Lines.


Lemma no_newline_quoted (q : N) : q ≠ NL → no_newline (quoted q) = true.
Proof.
  intros Hq. cbn [no_newline quoted TOKEN]. 
  rewrite !andb_true_iff. split_and!; try done.
  apply bool_decide_eq_true. rewrite list_elem_of_singleton. congruence.
  apply bool_decide_eq_true. rewrite list_elem_of_singleton. congruence.
Qed.



(** C1, as amended.  Group 2 of a rule is the text [a-zA-Z] or the text
    [A-Za-z], not an ASCII letter.  Let [q] be the quote character of the
    rule, [W] a whitelist without a backslash that does not begin with a
    digit, and take a text [before x q y T z q after] in which [before] is
    made of whole lines, [q] does not occur in [x], [y] and [z] hold no
    newline, [T] is one of the two texts and occurs nowhere later in [T z],
    and no [q] follows on the line.  The pattern of the rule compiles to
    [quoted q], whose search finds the span [q y T z q],
    captures [q y], [T] and [z q], and re-emits it with [escape_str W]
    right after [T]; the lines before and the text after are rewritten on
    their own. *)
Theorem rule_rewrites_token_literal (W : str) (single : bool)
    (before x y tok z after : str) :
  let q := quote_of single in
  let pattern := (rule W single).1 in
  let repl := (rule W single).2 in
  let search := quoted q in
  BACKSLASH ∉ W → leading_digit W = false →
  before = [] ∨ last before = Some NL →
  q ∉ x → NL ∉ y → is_token tok → NL ∉ z →
  no_token_in (drop 1 (tok ++ z)) = true →
  line_lacks q after = true →
  scan search 0 (before ++ x ++ q :: y ++ tok ++ z ++ q :: after)
  = scan search 0 before
    ++ (Ch <$> x)
    ++ Match {| m_text := q :: y ++ tok ++ z ++ [q];
                m_groups := [(3, z ++ [q]); (2, tok); (1, q :: y)] |}
    :: scan search 0 after
  ∧ re_compile pattern = Ret search
  ∧ ∃ out1 out2,
      re_sub pattern repl before = Ret out1
      ∧ re_sub pattern repl after = Ret out2
      ∧ re_sub pattern repl (before ++ x ++ q :: y ++ tok ++ z ++ q :: after)
        = Ret (out1 ++ x ++ q :: y ++ tok ++ escape_str W single
                 ++ z ++ q :: out2).
Proof.
  intros q pattern repl search HW Hd Hb Hx Hy Htok Hz Hlast Hl.
  subst pattern repl search. cbn [rule fst snd]. fold q.
  assert (Hadv : advancing (quoted q)) by apply advancing_quoted, quote_not_NL.
  assert (Hnl : no_newline (quoted q) = true)
    by apply no_newline_quoted, quote_not_NL.
  assert (Hmatch :
    scan (quoted q) 0 (x ++ q :: y ++ tok ++ z ++ q :: after)
    = (Ch <$> x)
      ++ Match {| m_text := q :: y ++ tok ++ z ++ [q];
                  m_groups := [(3, z ++ [q]); (2, tok); (1, q :: y)] |}
      :: scan (quoted q) 0 after).
  { rewrite scan_all_miss.
    - f_equal. apply scan_match.
      + apply match_quoted_complete; try done;
          [apply quote_not_NL | apply quote_not_in_T1 | apply quote_not_in_T2].
      + by rewrite <- !app_comm_cons, <- !app_assoc.
      + done.
    - intros a b -> Hb'. destruct b as [|c b]; [done|].
      apply match_quoted_other. intros ->. apply Hx.
      apply elem_of_app. right. by left. }
  assert (Hscan :
    scan (quoted q) 0 (before ++ x ++ q :: y ++ tok ++ z ++ q :: after)
    = scan (quoted q) 0 before
      ++ scan (quoted q) 0 (x ++ q :: y ++ tok ++ z ++ q :: after)).
  { destruct Hb as [->|Hb].
    - by rewrite scan_nil.
    - destruct before as [|c b] using rev_ind; [done|].
      rewrite last_snoc in Hb. injection Hb as ->.
      by apply scan_lines. }
  rewrite Hscan, Hmatch. split; [done|]. split; [apply compile_quoted|].
  set (tpl := TGroup 1 :: TGroup 2
                :: (TLit <$> escape_str W single) ++ [TGroup 3]).
  exists (scan (quoted q) 0 before ≫= sub_piece tpl),
         (scan (quoted q) 0 after ≫= sub_piece tpl).
  unfold q. rewrite !re_sub_quoted. fold q.
  unfold pattern_sub. change (groups (quoted q)) with 3.
  rewrite parse_rule_template by done. cbn [rbind]. fold tpl.
  split_and!; [done|done|].
  rewrite Hscan, Hmatch, !bind_app, bind_Ch. cbn [mbind list_bind sub_piece].
  unfold tpl. rewrite expand_rule. do 3 f_equal. cbn [app]. f_equal.
  rewrite <- !app_assoc. done.
Qed.

(** With whitelist XYZ, the double-quote rule rewrites the literal
    [[^a-zA-Z0-9_]] to [[^a-zA-ZXYZ0-9_]] and leaves the literal of the line
    before alone. *)
Lemma rule_rewrites_token_literal_witness :
  re_sub (rule (U "XYZ") false).1 (rule (U "XYZ") false).2
    ((U "s = " ++ DQ "abc" ++ U ";" ++ [NL])
       ++ U "t = " ++ DQ "[^a-zA-Z0-9_]" ++ U ";")
  = Ret ((U "s = " ++ DQ "abc" ++ U ";" ++ [NL])
           ++ U "t = " ++ DQ "[^a-zA-ZXYZ0-9_]" ++ U ";").
Proof.
  destruct (rule_rewrites_token_literal (U "XYZ") false
              (U "s = " ++ DQ "abc" ++ U ";" ++ [NL])
              (U "t = ") (U "[^") (U "a-zA-Z") (U "0-9_]") (U ";"))
    as (_ & _ & out1 & out2 & H1 & H2 & H).
  - apply (bool_decide_unpack _). vm_compute. exact I.
  - reflexivity.
  - right. vm_compute. reflexivity.
  - apply (bool_decide_unpack _). vm_compute. exact I.
  - apply (bool_decide_unpack _). vm_compute. exact I.
  - by left.
  - apply (bool_decide_unpack _). vm_compute. exact I.
  - vm_compute. reflexivity.
  - vm_compute. reflexivity.
  - assert (E1 : re_sub (rule (U "XYZ") false).1 (rule (U "XYZ") false).2
                   (U "s = " ++ DQ "abc" ++ U ";" ++ [NL])
                 = Ret (U "s = " ++ DQ "abc" ++ U ";" ++ [NL]))
      by (vm_compute; reflexivity).
    assert (E2 : re_sub (rule (U "XYZ") false).1 (rule (U "XYZ") false).2 (U ";")
                 = Ret (U ";")) by (vm_compute; reflexivity).
    rewrite E1 in H1. rewrite E2 in H2.
    injection H1 as <-. injection H2 as <-. exact H.
Defined.

(** C1 as stated fails: the double-quoted literal [hello world] holds ASCII
    letters but neither [a-zA-Z] nor [A-Za-z], and with whitelist XYZ the
    double-quote rule leaves it as it is instead of producing
    [hXYZello world]. *)
Lemma hello_world_is_left_alone :
  re_sub (rule (U "XYZ") false).1 (rule (U "XYZ") false).2 (DQ "hello world")
  = Ret (DQ "hello world")
  ∧ DQ "hello world" ≠ DQ "hXYZello world".
Proof. split; [vm_compute; reflexivity | done]. Qed.

(** Whitelists the amended statement leaves out: a leading digit runs into
    the group reference before it, and a backslash is halved again by the
    template. *)
Example rule_template_leading_digit :
  re_sub (rule (U "1") false).1 (rule (U "1") false).2 (DQ "a-zA-Z")
  = Raise ReError.
Proof. vm_compute. reflexivity. Qed.

Example rule_template_backslash :
  escape_str (U "\") false = U "\\"
  ∧ re_sub (rule (U "\") false).1 (rule (U "\") false).2 (DQ "a-zA-Z")
    = Ret ([DQUOTE] ++ U "a-zA-Z\" ++ [DQUOTE]).
Proof. vm_compute. done. Qed.



Example targeted_rewrite_two_parentheses :
  re_sub TARGET_PATTERN (declaration (U "Q"))
    (U "f(" ++ ALLOW ++ U " = g(1), h(2" ++ [RPAREN] ++ U " { }")
  = Ret (U "f(string allowSpecialChars = " ++ DQ "Q" ++ U ") { }").
Proof. vm_compute. reflexivity. Qed.

(** ** Traces *)

Section Emits.
Context (Q : event → Prop).

Lemma emits_ret {A} (a : A) : emits Q (ret a).
Proof. intros w. exists []. by rewrite app_nil_r. Qed.

Lemma emits_lift {A} (r : result A) : emits Q (lift r).
Proof. intros w. exists []. by rewrite app_nil_r. Qed.

Lemma emits_bind {A B} (m : M A) (f : A → M B) :
  emits Q m → (∀ a, emits Q (f a)) → emits Q (bind m f).
Proof.
  intros Hm Hf w. unfold bind. destruct (Hm w) as (e1 & H1 & HQ1).
  destruct (m w) as [[a|e] w1]; simpl in H1.
  - destruct (Hf a w1) as (e2 & H2 & HQ2).
    exists (e1 ++ e2). rewrite H2, H1, app_assoc. split; [done|].
    by apply Forall_app.
  - by exists e1.
Qed.

Lemma emits_try_except {A} (body handler : M A) (cls : exn) :
  emits Q body → emits Q handler → emits Q (try_except body cls handler).
Proof.
  intros Hb Hh w. unfold try_except. destruct (Hb w) as (e1 & H1 & HQ1).
  destruct (body w) as [[a|e] w1]; simpl in H1.
  - by exists e1.
  - case_bool_decide.
    + destruct (Hh w1) as (e2 & H2 & HQ2).
      exists (e1 ++ e2). rewrite H2, H1, app_assoc. split; [done|].
      by apply Forall_app.
    + by exists e1.
Qed.

Lemma emits_for_each {A} (l : list A) (body : A → M unit) :
  (∀ x, x ∈ l → emits Q (body x)) → emits Q (for_each l body).
Proof.
  induction l as [|x l IH]; intros H; cbn [for_each].
  - apply emits_ret.
  - apply emits_bind.
    + apply H. by left.
    + intros _. apply IH. intros y Hy. apply H. by right.
Qed.

Lemma emits_print (line : str) : Q (EvPrint line) → emits Q (print line).
Proof. intros H w. exists [EvPrint line]. split; [done|]. by constructor. Qed.

Lemma emits_read_file (pf : platform) (enc : encoding) (path : str) :
  Q (EvRead path enc) → emits Q (read_file pf enc path).
Proof.
  intros H w. exists [EvRead path enc]. split; [|by constructor].
  unfold read_file. destruct (files w !! path) as [bs|]; [|done].
  by destruct (decode _ bs).
Qed.

Lemma emits_write_file (pf : platform) (enc : encoding) (path content : str) :
  Q (EvWrite path enc content) → emits Q (write_file pf enc path content).
Proof.
  intros H w. exists [EvWrite path enc content]. split; [|by constructor].
  unfold write_file. by destruct (encode _ _).
Qed.

Lemma emits_read_content (pf : platform) (path : str) :
  (∀ enc, Q (EvRead path enc)) → emits Q (read_content pf path).
Proof. intros H. apply emits_try_except; by apply emits_read_file. Qed.

Lemma emits_write_content (pf : platform) (path content : str) :
  (∀ enc, Q (EvWrite path enc content)) → emits Q (write_content pf path content).
Proof. intros H. apply emits_try_except; by apply emits_write_file. Qed.

Lemma emits_apply_rules (pf : platform) (rules : list (str * str))
    (path content : str) :
  (∀ line, Q (EvPrint line)) → (∀ enc text, Q (EvWrite path enc text)) →
  emits Q (apply_rules pf rules path content).
Proof.
  intros Hp Hw. revert content.
  induction rules as [|[search repl] rules IH]; intros content; cbn [apply_rules].
  - apply emits_ret.
  - apply emits_bind; [apply emits_lift|]. intros content'.
    apply emits_bind; [apply emits_lift|]. intros found.
    apply emits_bind.
    { destruct found; [by apply emits_print | apply emits_ret]. }
    intros _. apply emits_bind; [by apply emits_write_content|].
    intros _. apply IH.
Qed.

Lemma emits_process_file (pf : platform) (W root file : str) :
  (∀ line, Q (EvPrint line)) →
  ((file = U "Extensions.cs" ∨ (splitext file).2 = U ".cs") →
     (∀ enc, Q (EvRead (join root file) enc))
     ∧ (∀ enc text, Q (EvWrite (join root file) enc text))) →
  emits Q (process_file pf W root file).
Proof.
  intros Hp H. unfold process_file, str_eqb.
  case_bool_decide as H1; [|case_bool_decide as H2].
  - destruct H as [Hr Hw]; [by left|].
    unfold targeted_rewrite. apply emits_bind; [by apply emits_read_content|].
    intros content. apply emits_bind; [apply emits_lift|].
    intros content'. apply emits_bind; [by apply emits_print|].
    intros _. by apply emits_write_content.
  - destruct H as [Hr Hw]; [by right|].
    unfold generic_substitution. apply emits_bind; [by apply emits_read_content|].
    intros content. by apply emits_apply_rules.
  - apply emits_ret.
Qed.
End Emits.

Lemma patch_events (pf : platform) (W : str) (w : world) :
  ∃ evs, trace (patch pf W w).2 = trace w ++ evs
         ∧ Forall (patched_file pf w) evs.
Proof.
  unfold patch, bind, os_walk.
  cut (emits (patched_file pf w)
         (for_each (walked pf w) (λ entry,
            for_each entry.2 (λ file, process_file pf W entry.1.1 file)))).
  { intros H. apply H. }
  apply emits_for_each. intros entry Hentry.
  apply emits_for_each. intros file Hfile.
  apply emits_process_file; [done|]. intros Hcs.
  split; [intros enc | intros enc text]; by exists entry, file.
Qed.

Lemma main_events (pf : platform) (w : world) :
  ∃ evs, trace (main pf w).2 = trace w ++ EvInput PROMPT :: evs
         ∧ Forall (patched_file pf w) evs.
Proof.
  unfold main, bind, input. destruct (stdin w) as [|line rest].
  - by exists [].
  - destruct (patch_events pf line (next_line (emit (EvInput PROMPT) w)))
      as (evs & H & HQ).
    exists evs. split; [|done].
    rewrite H. cbn [trace next_line emit]. by rewrite <- app_assoc.
Qed.

Lemma main_input (pf : platform) (w : world) :
  main pf w
  = match stdin w with
    | line :: _ => patch pf line (next_line (emit (EvInput PROMPT) w))
    | [] => (Raise EOFError, emit (EvInput PROMPT) w)
    end.
Proof. unfold main, bind, input. by destruct (stdin w). Qed.

Lemma for_each_skip {A} (l : list A) (body : A → M unit) (w : world) :
  (∀ x, x ∈ l → body x w = (Ret tt, w)) → for_each l body w = (Ret tt, w).
Proof.
  induction l as [|x l IH]; intros H; [done|].
  cbn [for_each]. unfold bind. rewrite H by (by left).
  apply IH. intros y Hy. apply H. by right.
Qed.

Lemma process_file_other (pf : platform) (W root file : str) (w : world) :
  file ≠ U "Extensions.cs" → (splitext file).2 ≠ U ".cs" →
  process_file pf W root file w = (Ret tt, w).
Proof.
  intros H1 H2. unfold process_file, str_eqb.
  by rewrite !bool_decide_eq_false_2.
Qed.

Lemma patch_nothing (pf : platform) (W : str) (w : world) :
  (∀ entry file, entry ∈ walked pf w → file ∈ entry.2 →
     file ≠ U "Extensions.cs" ∧ (splitext file).2 ≠ U ".cs") →
  patch pf W w = (Ret tt, w).
Proof.
  intros H. unfold patch, bind, os_walk.
  apply for_each_skip. intros entry Hentry.
  apply for_each_skip. intros file Hfile.
  destruct (H entry file Hentry Hfile). by apply process_file_other.
Qed.

(** C7.  When the walk lists no file named Extensions.cs and no file with
    the extension .cs, the run adds the prompt to the trace and nothing else
    (no line printed, no file opened), and leaves every file as it was.  In
    every run, whatever the walk lists, each file that is read or written is
    listed by the walk under the name Extensions.cs or with the extension
    .cs: the other files are never opened. *)
Theorem other_files_are_ignored (pf : platform) (w : world) :
  ((∀ entry file, entry ∈ walked pf w → file ∈ entry.2 →
      file ≠ U "Extensions.cs" ∧ (splitext file).2 ≠ U ".cs") →
   trace (main pf w).2 = trace w ++ [EvInput PROMPT]
   ∧ files (main pf w).2 = files w)
  ∧ ∃ evs, trace (main pf w).2 = trace w ++ EvInput PROMPT :: evs
           ∧ ∀ path,
               ((∃ enc, EvRead path enc ∈ evs)
                ∨ (∃ enc text, EvWrite path enc text ∈ evs)) →
               ∃ entry file,
                 entry ∈ walked pf w ∧ file ∈ entry.2
                 ∧ path = join entry.1.1 file
                 ∧ (file = U "Extensions.cs" ∨ (splitext file).2 = U ".cs").
Proof.
  split.
  - intros H. rewrite main_input. destruct (stdin w) as [|line rest]; [done|].
    by rewrite patch_nothing.
  - destruct (main_events pf w) as (evs & H & HQ). exists evs. split; [done|].
    rewrite Forall_forall in HQ.
    intros path [(enc & Hin) | (enc & text & Hin)]; by apply HQ in Hin.
Qed.

(** A tree with [README.md], [.cs], [a.CS] and [Cpp/notes.txt]. *)
Lemma other_files_are_ignored_witness :
  trace (main (posix_ascii (U "/repo")) world1).2 = [EvInput PROMPT]
  ∧ files (main (posix_ascii (U "/repo")) world1).2 = ∅.
Proof.
  apply (proj1 (other_files_are_ignored (posix_ascii (U "/repo")) world1)).
  assert (H : Forall (λ entry : str * list str * list str,
                Forall (λ file, file ≠ U "Extensions.cs"
                                ∧ (splitext file).2 ≠ U ".cs") entry.2)
              (walked (posix_ascii (U "/repo")) world1)).
  { apply (bool_decide_unpack _). vm_compute. exact I. }
  intros entry file He Hf. rewrite Forall_forall in H.
  specialize (H entry He). rewrite Forall_forall in H. by apply H.
Defined.

(** C8.  The script asks once, reads one line and uses it as it is: the
    run is the prompt followed by the two loops on the line read, or
    [EOFError] when there is no line, and no other [input] follows.  The
    prompt it shows is misspelt (chararacters) and ends in a space: it is
    not the text [Enter the characters you want to allow:]. *)
Theorem prompt_is_misspelt (pf : platform) (w : world) :
  PROMPT = U "Enter the chararacters you want to allow: "
  ∧ PROMPT ≠ U "Enter the characters you want to allow:"
  ∧ main pf w
    = match stdin w with
      | line :: _ => patch pf line (next_line (emit (EvInput PROMPT) w))
      | [] => (Raise EOFError, emit (EvInput PROMPT) w)
      end
  ∧ ∃ evs, trace (main pf w).2 = trace w ++ EvInput PROMPT :: evs
           ∧ ∀ prompt, EvInput prompt ∉ evs.
Proof.
  split_and!; [done|done|apply main_input|].
  destruct (main_events pf w) as (evs & H & HQ). exists evs. split; [done|].
  rewrite Forall_forall in HQ. intros prompt Hin. by apply HQ in Hin.
Qed.

(** ** Encoding fallback *)

Lemma try_except_other {A} (body handler : M A) (cls e : exn) (w w' : world) :
  body w = (Raise e, w') → e ≠ cls →
  try_except body cls handler w = (Raise e, w').
Proof.
  intros H He. unfold try_except. rewrite H. by rewrite bool_decide_eq_false_2.
Qed.

Lemma try_except_caught {A} (body handler : M A) (cls : exn) (w w' : world) :
  body w = (Raise cls, w') → try_except body cls handler w = handler w'.
Proof.
  intros H. unfold try_except. rewrite H. by rewrite bool_decide_eq_true_2.
Qed.

(** The write is retried in UTF-8 when the default encoding cannot encode
    the text. *)
Lemma write_retried_in_utf8 (pf : platform) (path content : str) (w : world) :
  encode (default_codec pf) (write_newlines (linesep pf) content) = None →
  write_content pf path content w
  = write_file pf Utf8 path content
      (store path [] (emit (EvWrite path Default content) w)).
Proof.
  intros H. unfold write_content. apply try_except_caught.
  unfold write_file. cbn [codec_of]. by rewrite H.
Qed.

(** C4.  The read is not retried.  A file whose bytes the default encoding
    cannot decode makes the read raise [UnicodeDecodeError]; the handler of
    lines 25 and 41 is for [UnicodeEncodeError], so the exception leaves
    [read_content] after the single attempt in the default encoding, and
    UTF-8 is never tried. *)
Theorem read_not_retried_in_utf8 (pf : platform) (path : str)
    (bs : list byte) (w : world) :
  files w !! path = Some bs → decode (default_codec pf) bs = None →
  read_content pf path w
  = (Raise UnicodeDecodeError, emit (EvRead path Default) w).
Proof.
  intros Hf Hd. unfold read_content. apply try_except_other; [|done].
  unfold read_file. cbn [codec_of]. by rewrite Hf, Hd.
Qed.

(** Locale encoding ASCII, a file holding the UTF-8 bytes of U+00E9. *)
Lemma read_not_retried_in_utf8_witness :
  utf8_decode [xc3; xa9] = Some [233%N]
  ∧ read_content (posix_ascii []) (U "a.cs")
      (world0 {[ U "a.cs" := [xc3; xa9] ]})
    = (Raise UnicodeDecodeError,
       emit (EvRead (U "a.cs") Default) (world0 {[ U "a.cs" := [xc3; xa9] ]})).
Proof.
  split; [reflexivity|].
  apply (read_not_retried_in_utf8 (posix_ascii []) (U "a.cs") [xc3; xa9]).
  - vm_compute. reflexivity.
  - vm_compute. reflexivity.
Defined.

(** ** Generic substitution on a text without quote characters *)

Lemma scan_no_quote (q : N) (s : str) :
  q ≠ NL → q ∉ s → scan (quoted q) 0 s = Ch <$> s.
Proof.
  intros Hq Hs. rewrite <- (app_nil_r s) at 1. rewrite scan_all_miss.
  - rewrite scan_nil by (by apply advancing_quoted). by rewrite app_nil_r.
  - intros a b -> Hb. destruct b as [|c b]; [done|].
    apply match_quoted_other. intros ->. apply Hs.
    apply elem_of_app. right. by left.
Qed.

Lemma re_sub_no_quote (single : bool) (repl s : str) :
  quote_of single ∉ s → compiles 3 repl = true →
  re_sub (quoted_pattern (quote_of single)) repl s = Ret s
  ∧ re_findall_any (quoted_pattern (quote_of single)) s = Ret false.
Proof.
  intros Hs Hc. rewrite re_sub_quoted, re_findall_any_quoted.
  unfold pattern_sub, pattern_findall_any, compiles in *.
  change (groups (quoted (quote_of single))) with 3.
  rewrite scan_no_quote by (done || apply quote_not_NL).
  destruct (parse_template 3 repl) as [tpl|]; [|done]. cbn [rbind].
  split; [by rewrite bind_Ch|].
  f_equal. clear. by induction s.
Qed.

Lemma rule_template_compiles (W : str) (single : bool) :
  leading_digit W = false → compiles 3 (rule_template W single) = true.
Proof.
  intros Hd. unfold compiles. by rewrite parse_rule_template_general.
Qed.

(** When both templates compile, a text without quote characters goes
    through both rules unchanged: nothing is printed and the same text is
    written back after each rule. *)
Lemma generic_substitution_without_literals (pf : platform)
    (W path content : str) (w : world) :
  DQUOTE ∉ content → SQUOTE ∉ content →
  compiles 3 (rule_template W false) = true →
  compiles 3 (rule_template W true) = true →
  apply_rules pf (FIND W) path content w
  = (write_content pf path content ;;;
     write_content pf path content ;;;
     ret tt) w.
Proof.
  intros Hd Hs Hc1 Hc2. unfold FIND, rule. cbn [apply_rules quote_of].
  destruct (re_sub_no_quote false (rule_template W false) content)
    as [E1 F1]; [done..|].
  destruct (re_sub_no_quote true (rule_template W true) content)
    as [E2 F2]; [done..|].
  cbn [quote_of] in E1, F1, E2, F2.
  unfold bind, lift, ret. rewrite E1, F1.
  destruct (write_content pf path content w) as [[[]|e] w1]; [|done].
  rewrite E2, F2. done.
Qed.

Example generic_substitution_XYZ :
  let w0 := world0 {[ U "a.cs" := B "int x;" ]} in
  trace (generic_substitution (posix_ascii []) (U "XYZ") (U "a.cs") w0).2
  = [ EvRead (U "a.cs") Default;
      EvWrite (U "a.cs") Default (U "int x;");
      EvWrite (U "a.cs") Default (U "int x;") ].
Proof. vm_compute. reflexivity. Qed.

(** C6.  A file without any quote character is not always written back
    unchanged.  With the whitelist [1] the template of the first rule is
    [\1\21\3]; [re.sub] rejects the group reference [\21] when it compiles the
    template, before it searches, so the generic substitution raises
    [re.error] right after the read: no content comes back and nothing is
    written. *)
Theorem generic_substitution_digit_whitelist :
  let w0 := world0 {[ U "a.cs" := B "int x;" ]} in
  ascii_decode (B "int x;") = Some (U "int x;")
  ∧ (DQUOTE ∉ U "int x;") ∧ (SQUOTE ∉ U "int x;")
  ∧ rule_template (U "1") false = U "\1\21\3"
  ∧ generic_substitution (posix_ascii []) (U "1") (U "a.cs") w0
    = (Raise ReError, emit (EvRead (U "a.cs") Default) w0).
Proof.
  split_and!.
  - reflexivity.
  - apply (bool_decide_unpack _). vm_compute. exact I.
  - apply (bool_decide_unpack _). vm_compute. exact I.
  - reflexivity.
  - vm_compute. reflexivity.
Qed.

(** C2.  The declaration the Targeted Rewrite writes holds the whitelist
    escaped with the single-quote flag, inside double quotes.  With a
    whitelist that is one double quote, the default value written between
    the two double quotes of the declaration is that double quote, bare,
    where [escape_str] with the double-quote flag puts a backslash before
    it. *)
Theorem targeted_rewrite_leaves_double_quote :
  let W := [DQUOTE] in
  let path := U "Extensions.cs" in
  let before := U "string allowSpecialChars = " ++ DQ "abc" ++ U ")" in
  let written :=
    U "string allowSpecialChars = " ++ [DQUOTE; DQUOTE; DQUOTE] ++ U ")" in
  let w0 := world0 {[ path := ascii_bytes before ]} in
  let w1 := (targeted_rewrite (posix_ascii []) W path w0).2 in
  trace w1
  = [ EvRead path Default; EvPrint (SUCCESS path);
      EvWrite path Default written ]
  ∧ files w1 !! path = Some (ascii_bytes written)
  ∧ written
    = U "string allowSpecialChars = " ++ [DQUOTE] ++ escape_str W true
        ++ [DQUOTE] ++ U ")"
  ∧ written
    ≠ U "string allowSpecialChars = " ++ [DQUOTE] ++ escape_str W false
        ++ [DQUOTE] ++ U ")".
Proof. vm_compute. done. Qed.

(** The instance the specification gives holds: no character of [Q] needs
    escaping. *)
Example targeted_rewrite_Q :
  re_sub TARGET_PATTERN (declaration (U "Q"))
         (U "string allowSpecialChars = " ++ DQ "abc" ++ U ")")
  = Ret (U "string allowSpecialChars = " ++ DQ "Q" ++ U ")").
Proof. vm_compute. reflexivity. Qed.

(* ------------------------------------------------------------------ *)
(** * Further properties *)

(** ** [escape_str], character by character *)

Lemma quote_not_backslash (f : bool) : quote_of f ≠ BACKSLASH.
Proof. by destruct f. Qed.

Lemma quote_not_n (f : bool) : quote_of f ≠ 110%N.
Proof. by destruct f. Qed.

Lemma startswith_n (s : str) :
  startswith (U "n") s
  = match s with d :: _ => char_eqb d 110 | [] => false end.
Proof.
  destruct s as [|d s]; [done|]. change (U "n") with [110%N].
  cbn [startswith]. rewrite andb_true_r. apply char_eqb_sym.
Qed.

Lemma escape_str_step (c : char) (s : str) (f : bool) :
  escape_str (c :: s) f
  = escape_char_before (quote_of f) c s ++ escape_str s f.
Proof.
  rewrite !escape_str_backslashes. cbn [backslashes].
  rewrite quote_escaped_app. f_equal. unfold escape_char_before.
  assert (Hq : char_eqb (quote_of f) BACKSLASH = false)
    by apply char_eqb_neq, quote_not_backslash.
  destruct (char_eqb c BACKSLASH) eqn:Hc.
  - destruct s as [|d s]; [by destruct f|].
    rewrite startswith_n. destruct (char_eqb d 110); by destruct f.
  - unfold quote_escaped. cbn [mbind list_bind]. rewrite app_nil_r.
    rewrite (char_eqb_sym c). destruct (char_eqb (quote_of f) c) eqn:E; [|done].
    apply char_eqb_eq in E. by subst c.
Qed.

Lemma startswith_n_app (a b : str) :
  a ≠ [] → startswith (U "n") (a ++ b) = startswith (U "n") a.
Proof. intros Ha. rewrite !startswith_n. by destruct a. Qed.

(** X1.  [escape_str] amounts to one pass from left to right that
    looks one character ahead: a backslash becomes two backslashes, three
    when the letter n follows it; the quote character the flag selects gets
    a backslash before it; every other character is copied.  So the escaped
    form of a concatenation is the concatenation of the escaped forms,
    unless the cut separates a backslash from an n that follows it. *)
Theorem escape_str_one_pass (single_quote : bool) :
  escape_str [] single_quote = []
  ∧ (∀ c s,
       escape_str (c :: s) single_quote
       = (if char_eqb c BACKSLASH then
            if startswith (U "n") s then U "\\\" else U "\\"
          else if char_eqb c (quote_of single_quote) then [BACKSLASH; c]
          else [c])
         ++ escape_str s single_quote)
  ∧ (∀ a b,
       last a ≠ Some BACKSLASH ∨ startswith (U "n") b = false →
       escape_str (a ++ b) single_quote
       = escape_str a single_quote ++ escape_str b single_quote).
Proof.
  assert (Hnil : escape_str [] single_quote = []) by by destruct single_quote.
  split_and!; [done|intros c s; apply escape_str_step|].
  intros a b Hab. induction a as [|c a IH]; [by rewrite Hnil|].
  cbn [app]. rewrite !escape_str_step. unfold escape_char_before.
  destruct a as [|d a].
  - cbn [app]. rewrite Hnil, app_nil_r.
    destruct (char_eqb c BACKSLASH) eqn:Hc; [|done].
    apply char_eqb_eq in Hc. subst c. destruct Hab as [Hl | ->]; [done|].
    by rewrite startswith_n.
  - rewrite startswith_n_app by done. rewrite <- app_assoc. f_equal.
    apply IH. destruct Hab as [Hl | Hb]; [left|by right].
    by rewrite last_cons_cons in Hl.
Qed.

(** A backslash at the end of the first text and an n at the head of the
    second: the escaped forms do not concatenate; any other cut does. *)
Lemma escape_str_one_pass_witness :
  escape_str (U "a\b" ++ U "n") false
  = escape_str (U "a\b") false ++ escape_str (U "n") false
  ∧ escape_str (U "a\" ++ U "n") false
    ≠ escape_str (U "a\") false ++ escape_str (U "n") false.
Proof.
  split; [|by vm_compute].
  apply (proj2 (proj2 (escape_str_one_pass false)) (U "a\b") (U "n")).
  by left.
Defined.

(** X2.  [escape_str] escapes nothing else: a character other
    than the backslash, the letter n and the selected quote occurs unescaped
    in the result exactly when it occurs in the text.  In particular the
    quote character the flag does not select stays bare. *)
Theorem escape_str_keeps_other_characters (c : char) (s : str)
    (single_quote : bool) :
  c ≠ BACKSLASH → c ≠ 110%N → c ≠ quote_of single_quote →
  unescaped c (escape_str s single_quote) = bool_decide (c ∈ s).
Proof.
  intros Hb Hn Hq.
  assert (Hmem : ∀ x l, bool_decide (c ∈ x :: l) = char_eqb x c || bool_decide (c ∈ l)).
  { intros x l. unfold char_eqb. rewrite <- bool_decide_or.
    apply bool_decide_ext. rewrite elem_of_cons.
    split; (intros [?|?]; [left; congruence | by right]). }
  induction s as [|x s IH]; [by destruct single_quote|].
  rewrite escape_str_step, Hmem. unfold escape_char_before.
  destruct (char_eqb x BACKSLASH) eqn:Hx.
  - apply char_eqb_eq in Hx. subst x.
    assert (E : char_eqb BACKSLASH c = false) by by apply char_eqb_neq.
    rewrite E, orb_false_l.
    destruct s as [|d s]; [by destruct single_quote|].
    rewrite startswith_n. destruct (char_eqb d 110) eqn:Hd.
    + apply char_eqb_eq in Hd. subst d.
      rewrite escape_str_step in IH |- *. unfold escape_char_before in IH |- *.
      replace (char_eqb 110 BACKSLASH) with false in * by done.
      assert (E2 : char_eqb 110 (quote_of single_quote) = false)
        by (apply char_eqb_neq; intros H; by apply (quote_not_n single_quote)).
      rewrite E2 in *. cbn [app] in IH |- *.
      change (U "\\\") with [BACKSLASH; BACKSLASH; BACKSLASH]. cbn [app].
      rewrite !unescaped_pair. rewrite <- IH.
      rewrite unescaped_plain; [done|done|congruence].
    + change (U "\\") with [BACKSLASH; BACKSLASH]. cbn [app].
      by rewrite unescaped_pair.
  - apply char_eqb_neq in Hx.
    destruct (char_eqb x (quote_of single_quote)) eqn:Hxq.
    + apply char_eqb_eq in Hxq. subst x. cbn [app].
      rewrite unescaped_pair, IH.
      assert (E : char_eqb (quote_of single_quote) c = false) by (apply char_eqb_neq; congruence).
      by rewrite E.
    + cbn [app]. cbn [unescaped].
      assert (E : char_eqb x BACKSLASH = false) by by apply char_eqb_neq.
      by rewrite E, IH.
Qed.

Lemma escape_str_keeps_other_characters_witness :
  unescaped DQUOTE (escape_str (U "a" ++ [DQUOTE]) true) = true.
Proof.
  exact (escape_str_keeps_other_characters DQUOTE (U "a" ++ [DQUOTE]) true
           ltac:(done) ltac:(done) ltac:(done)).
Defined.

Lemma unescape_escape_str (s : str) (f : bool) :
  unescape (quote_of f) (escape_str s f) = s.
Proof.
  induction s as [|x s IH]; [by destruct f|].
  rewrite escape_str_step. unfold escape_char_before.
  assert (Hq : char_eqb (quote_of f) BACKSLASH = false)
    by apply char_eqb_neq, quote_not_backslash.
  destruct (char_eqb x BACKSLASH) eqn:Hx.
  - apply char_eqb_eq in Hx. subst x.
    destruct s as [|d s]; [by destruct f|].
    rewrite startswith_n. destruct (char_eqb d 110) eqn:Hd.
    + apply char_eqb_eq in Hd. subst d.
      rewrite escape_str_step in IH |- *. unfold escape_char_before in IH |- *.
      replace (char_eqb 110 BACKSLASH) with false in * by done.
      assert (E2 : char_eqb 110 (quote_of f) = false)
        by (apply char_eqb_neq; intros H; by apply (quote_not_n f)).
      rewrite E2 in *. cbn [app] in IH |- *.
      change (U "\\\") with [BACKSLASH; BACKSLASH; BACKSLASH]. cbn [app].
      cbn [unescape]. rewrite !char_eqb_refl.
      replace (char_eqb 110 BACKSLASH) with false by done. rewrite E2.
      cbn [unescape] in IH.
      replace (char_eqb 110 BACKSLASH) with false in IH by done.
      by rewrite IH.
    + change (U "\\") with [BACKSLASH; BACKSLASH]. cbn [app].
      cbn [unescape]. rewrite !char_eqb_refl. by rewrite IH.
  - destruct (char_eqb x (quote_of f)) eqn:Hxq.
    + apply char_eqb_eq in Hxq. subst x. cbn [app unescape].
      rewrite !char_eqb_refl, Hq. by rewrite IH.
    + cbn [app unescape]. rewrite Hx. by rewrite IH.
Qed.

(** X3.  [escape_str] loses nothing: two texts with the same
    escaped form, under the same flag, are equal. *)
Theorem escape_str_injective (s t : str) (single_quote : bool) :
  escape_str s single_quote = escape_str t single_quote → s = t.
Proof.
  intros H.
  rewrite <- (unescape_escape_str s single_quote),
          <- (unescape_escape_str t single_quote).
  by rewrite H.
Qed.

Lemma escape_str_injective_witness : U "a\n" = U "a\n".
Proof.
  exact (escape_str_injective (U "a\n") (U "a\n") false eq_refl).
Defined.

(** ** Whitelists that begin with a digit *)

Lemma is_octdigit_digit (c : char) : is_octdigit c = true → is_digit c = true.
Proof.
  unfold is_octdigit, is_digit. rewrite !andb_true_iff, !N.leb_le. lia.
Qed.

Lemma parse_group3 : parse_template 3 (U "\3") = Ret [TGroup 3].
Proof. reflexivity. Qed.

(** The head of the escaped text is an octal digit only when the head of
    the text is one, and then it is that digit. *)
Lemma escape_str_head (c : char) (W : str) (single : bool) :
  ∃ d t, escape_str (c :: W) single = d :: t
         ∧ is_octdigit d = is_octdigit c
         ∧ (is_octdigit c = true → d = c ∧ t = escape_str W single).
Proof.
  rewrite escape_str_step. unfold escape_char_before.
  destruct (char_eqb c BACKSLASH) eqn:Hc.
  - apply char_eqb_eq in Hc. subst c.
    exists BACKSLASH. destruct (startswith (U "n") W); eexists; by split_and!.
  - destruct (char_eqb c (quote_of single)) eqn:Hq.
    + apply char_eqb_eq in Hq. subst c. exists BACKSLASH. eexists.
      split_and!; [done|by destruct single|by destruct single].
    + exists c. eexists. by split_and!.
Qed.

Lemma parse_rule_template_digit (d1 : char) (W : str) (single : bool) :
  is_digit d1 = true →
  parse_template 3 (rule_template (d1 :: W) single)
  = match W with
    | d2 :: W' =>
        if is_octdigit d1 && is_octdigit d2
        then Ret (TGroup 1 :: TLit (128 + 8 * digit_val d1 + digit_val d2)%N
                    :: (TLit <$> template_text (quote_of single) W')
                    ++ [TGroup 3])
        else Raise ReError
    | [] => Raise ReError
    end.
Proof.
  intros Hd. unfold rule_template.
  destruct (digit_plain d1 single Hd) as [H1 H2].
  rewrite escape_str_plain by done.
  change (U "\1\2" ++ (d1 :: escape_str W single) ++ U "\3")
    with (BACKSLASH :: 49%N :: BACKSLASH :: 50%N :: d1
            :: escape_str W single ++ U "\3").
  rewrite parse_group_ref by done.
  rewrite parse_group2_digit by done.
  destruct W as [|c W'].
  - replace (escape_str [] single) with (@nil N) by (by destruct single).
    change ([] ++ U "\3") with [BACKSLASH; 51%N].
    cbv iota. replace (is_octdigit BACKSLASH) with false by done.
    by rewrite andb_false_r.
  - destruct (escape_str_head c W' single) as (d & t & E & Ho & Hc).
    rewrite E. cbn [app]. rewrite Ho.
    destruct (is_octdigit d1 && is_octdigit c) eqn:Hoct; [|reflexivity].
    apply andb_true_iff in Hoct as [_ Hco].
    destruct (Hc Hco) as [-> ->].
    rewrite parse_template_escaped, parse_group3. reflexivity.
Qed.

Lemma compiles_rule_template (W : str) (single : bool) :
  compiles 3 (rule_template W single) = negb (leading_digit W) || octal_pair W.
Proof.
  unfold compiles. destruct (leading_digit W) eqn:Hd.
  - destruct W as [|d1 W]; [done|]. cbn [leading_digit] in Hd.
    rewrite parse_rule_template_digit by done. cbn [negb orb octal_pair].
    destruct W as [|d2 W']; [done|].
    by destruct (is_octdigit d1 && is_octdigit d2).
  - by rewrite parse_rule_template_general.
Qed.

(** X4.  The replacement text of a rule compiles exactly when
    the whitelist does not begin with a decimal digit, or begins with two
    octal digits; otherwise compiling it raises [re.error].  The answer does
    not depend on the flag: the two rules of [FIND] compile or fail
    together. *)
Theorem rule_templates_compile_together (W : str) (single_quote : bool) :
  compiles 3 (rule_template W single_quote)
  = negb (leading_digit W) || octal_pair W
  ∧ (compiles 3 (rule_template W single_quote) = false →
     parse_template 3 (rule_template W single_quote) = Raise ReError)
  ∧ compiles 3 (rule_template W true) = compiles 3 (rule_template W false).
Proof.
  split_and!.
  - apply compiles_rule_template.
  - rewrite compiles_rule_template. intros H.
    apply orb_false_iff in H as [Hd Ho]. apply negb_false_iff in Hd.
    destruct W as [|d1 W]; [done|]. cbn [leading_digit] in Hd.
    rewrite parse_rule_template_digit by done.
    destruct W as [|d2 W']; [done|]. cbn [octal_pair] in Ho. by rewrite Ho.
  - by rewrite !compiles_rule_template.
Qed.

(** Whitelist [7]: both templates are rejected. *)
Lemma rule_templates_compile_together_witness :
  parse_template 3 (rule_template (U "7") true) = Raise ReError
  ∧ parse_template 3 (rule_template (U "7") false) = Raise ReError.
Proof.
  split.
  - apply (proj1 (proj2 (rule_templates_compile_together (U "7") true))).
    reflexivity.
  - apply (proj1 (proj2 (rule_templates_compile_together (U "7") false))).
    reflexivity.
Defined.

Lemma bind_TLit {B} (E : str) (f : titem → list B) :
  (TLit <$> E) ≫= f = E ≫= λ c, f (TLit c).
Proof.
  induction E as [|c E IH]; [done|].
  cbn [fmap list_fmap mbind list_bind]. by rewrite <- IH.
Qed.

Lemma expand_TLit (E : str) (m : rmatch) : expand (TLit <$> E) m = E.
Proof.
  unfold expand. rewrite bind_TLit.
  induction E as [|c E IH]; [done|]. cbn [mbind list_bind]. by rewrite IH.
Qed.

Lemma expand_app (t1 t2 : list titem) (m : rmatch) :
  expand (t1 ++ t2) m = expand t1 m ++ expand t2 m.
Proof. unfold expand. apply bind_app. Qed.

Lemma expand_octal (v : char) (E g1 g2 g3 t : str) :
  expand (TGroup 1 :: TLit v :: (TLit <$> E) ++ [TGroup 3])
         {| m_text := t; m_groups := [(3, g3); (2, g2); (1, g1)] |}
  = g1 ++ v :: E ++ g3.
Proof.
  change (TGroup 1 :: TLit v :: (TLit <$> E) ++ [TGroup 3])
    with ([TGroup 1; TLit v] ++ (TLit <$> E) ++ [TGroup 3]).
  rewrite !expand_app, expand_TLit.
  unfold expand. cbn [mbind list_bind m_groups group].
  rewrite !app_nil_r. simpl. by rewrite <- app_assoc.
Qed.

Lemma contains_cons (p : str) (c : char) (s : str) :
  contains p (c :: s) = false → contains p s = false.
Proof. cbn [contains]. by intros [_ ?]%orb_false_iff. Qed.

Lemma template_text_quote_escaped (q : char) (W : str) :
  q ≠ BACKSLASH → contains (U "\n") W = false →
  template_text q W = quote_escaped q W.
Proof.
  intros Hq.
  assert (Hq' : char_eqb q BACKSLASH = false) by by apply char_eqb_neq.
  induction W as [|c W IH]; [done|]. intros H.
  specialize (IH (contains_cons _ _ _ H)).
  cbn [template_text]. destruct (char_eqb c BACKSLASH) eqn:Hc.
  - apply char_eqb_eq in Hc. subst c.
    rewrite quote_escaped_other by done.
    destruct W as [|d W]; [done|].
    destruct (char_eqb d 110) eqn:Hd.
    + apply char_eqb_eq in Hd. subst d. done.
    + by rewrite IH.
  - destruct (char_eqb c q) eqn:Hcq.
    + apply char_eqb_eq in Hcq. subst c. by rewrite quote_escaped_quote, IH.
    + apply char_eqb_neq in Hcq. by rewrite quote_escaped_other, IH.
Qed.

(** X5.  For a whitelist that does not begin with a digit,
    [re.sub] with a rule copies the text outside the matches and rewrites
    each match to its group 1, its group 2, the text [template_text q W] and
    its group 3.  That text is not [escape_str W]: compiling the template
    takes the doubling of the backslashes back, so that, unless the
    whitelist holds a backslash followed by n, it is the whitelist with a
    backslash before each selected quote and nothing else. *)
Theorem rule_inserts_template_text (W : str) (single : bool) :
  let q := quote_of single in
  let pattern := (rule W single).1 in
  let repl := (rule W single).2 in
  leading_digit W = false →
  (∀ s, re_sub pattern repl s
        = Ret (scan (quoted q) 0 s ≫=
                 sub_piece (TGroup 1 :: TGroup 2
                              :: (TLit <$> template_text q W) ++ [TGroup 3])))
  ∧ (∀ g1 g2 g3 t,
       expand (TGroup 1 :: TGroup 2
                 :: (TLit <$> template_text q W) ++ [TGroup 3])
              {| m_text := t; m_groups := [(3, g3); (2, g2); (1, g1)] |}
       = g1 ++ g2 ++ template_text q W ++ g3)
  ∧ (contains (U "\n") W = false → template_text q W = quote_escaped q W).
Proof.
  intros q pattern repl Hd. subst q pattern repl. cbn [rule fst snd].
  split_and!.
  - intros s. rewrite re_sub_quoted. unfold pattern_sub.
    change (groups (quoted (quote_of single))) with 3.
    by rewrite parse_rule_template_general.
  - intros. apply expand_rule.
  - apply template_text_quote_escaped, quote_not_backslash.
Qed.

(** Whitelist [\d]: [escape_str] doubles the backslash, the template takes
    the doubling back, and the literal receives a single backslash. *)
Lemma rule_inserts_template_text_witness :
  re_sub (rule (U "\d") false).1 (rule (U "\d") false).2 (DQ "[a-zA-Z]")
  = Ret (DQ "[a-zA-Z\d]")
  ∧ escape_str (U "\d") false = U "\\d".
Proof.
  split; [|reflexivity].
  rewrite (proj1 (rule_inserts_template_text (U "\d") false eq_refl)).
  vm_compute. reflexivity.
Defined.

(** X6.  For a whitelist that begins with two octal digits
    [d1 d2], the template reads the reference to group 2 and the two digits
    as one octal escape: each match is rewritten to its group 1, the
    character of code 128 + 8 d1 + d2, what the template holds for the rest
    of the whitelist, and its group 3.  The captured text [a-zA-Z] or
    [A-Za-z] does not come back. *)
Theorem rule_octal_whitelist_drops_token (d1 d2 : char) (W : str)
    (single : bool) :
  let q := quote_of single in
  let pattern := (rule (d1 :: d2 :: W) single).1 in
  let repl := (rule (d1 :: d2 :: W) single).2 in
  let v := (128 + 8 * digit_val d1 + digit_val d2)%N in
  is_octdigit d1 = true → is_octdigit d2 = true →
  (∀ s, re_sub pattern repl s
        = Ret (scan (quoted q) 0 s ≫=
                 sub_piece (TGroup 1 :: TLit v
                              :: (TLit <$> template_text q W) ++ [TGroup 3])))
  ∧ (∀ g1 g2 g3 t,
       expand (TGroup 1 :: TLit v
                 :: (TLit <$> template_text q W) ++ [TGroup 3])
              {| m_text := t; m_groups := [(3, g3); (2, g2); (1, g1)] |}
       = g1 ++ v :: template_text q W ++ g3).
Proof.
  intros q pattern repl v H1 H2. subst q pattern repl v. cbn [rule fst snd].
  split.
  - intros s. rewrite re_sub_quoted. unfold pattern_sub.
    change (groups (quoted (quote_of single))) with 3.
    rewrite parse_rule_template_digit by by apply is_octdigit_digit.
    by rewrite H1, H2.
  - intros. apply expand_octal.
Qed.

(** Whitelist [12]: the literal loses [a-zA-Z] and receives U+008A. *)
Lemma rule_octal_whitelist_drops_token_witness :
  re_sub (rule (U "12") false).1 (rule (U "12") false).2 (DQ "[a-zA-Z]")
  = Ret ([DQUOTE] ++ U "[" ++ [138%N] ++ U "]" ++ [DQUOTE]).
Proof.
  rewrite (proj1 (rule_octal_whitelist_drops_token 49 50 [] false
                    eq_refl eq_refl)).
  vm_compute. reflexivity.
Defined.

Lemma read_content_decoded (pf : platform) (path : str) (bs : list byte)
    (t : str) (w : world) :
  files w !! path = Some bs → decode (default_codec pf) bs = Some t →
  read_content pf path w
  = (Ret (universal_newlines t), emit (EvRead path Default) w).
Proof.
  intros Hf Hd. unfold read_content, try_except, read_file. cbn [codec_of].
  by rewrite Hf, Hd.
Qed.

(** X7.  With a whitelist that begins with a digit but not
    with two octal digits, the Generic Substitution of any file the default
    encoding decodes raises [re.error] right after the read, whatever the
    content: nothing is printed and nothing is written. *)
Theorem generic_substitution_rejects_digit (pf : platform)
    (W path : str) (bs : list byte) (t : str) (w : world) :
  leading_digit W = true → octal_pair W = false →
  files w !! path = Some bs → decode (default_codec pf) bs = Some t →
  generic_substitution pf W path w
  = (Raise ReError, emit (EvRead path Default) w).
Proof.
  intros Hd Ho Hf Hdec. unfold generic_substitution, bind.
  rewrite (read_content_decoded pf path bs t) by done.
  unfold FIND, rule. cbn [apply_rules quote_of]. unfold bind, lift.
  rewrite (re_sub_quoted false). unfold pattern_sub.
  change (groups (quoted (quote_of false))) with 3.
  destruct W as [|d1 W]; [done|]. cbn [leading_digit] in Hd.
  rewrite parse_rule_template_digit by done.
  destruct W as [|d2 W']; [done|]. cbn [octal_pair] in Ho. by rewrite Ho.
Qed.

Lemma generic_substitution_rejects_digit_witness :
  generic_substitution (posix_ascii []) (U "9_") (U "b.cs")
    (world0 {[ U "b.cs" := B "s = 'a-zA-Z';" ]})
  = (Raise ReError,
     emit (EvRead (U "b.cs") Default)
          (world0 {[ U "b.cs" := B "s = 'a-zA-Z';" ]})).
Proof.
  apply (generic_substitution_rejects_digit (posix_ascii []) (U "9_")
           (U "b.cs") (B "s = 'a-zA-Z';") (U "s = 'a-zA-Z';")).
  - reflexivity.
  - reflexivity.
  - vm_compute. reflexivity.
  - vm_compute. reflexivity.
Defined.

(** ** The Targeted Rewrite, for every whitelist *)



Lemma bind_Ch_copy (f : piece → str) (s : str) :
  (∀ c, f (Ch c) = [c]) → (Ch <$> s) ≫= f = s.
Proof.
  intros Hf. induction s as [|c s IH]; [done|].
  cbn [fmap list_fmap mbind list_bind]. by rewrite Hf, IH.
Qed.

Lemma re_sub_declaration (W s : str) :
  re_sub TARGET_PATTERN (declaration W) s
  = Ret (scan TARGET 0 s ≫= redeclare W).
Proof.
  rewrite re_sub_target. unfold pattern_sub. change (groups TARGET) with 0.
  rewrite (proj1 (templates_modelled W)). cbn [rbind]. f_equal.
  induction (scan TARGET 0 s) as [|p ps IH]; [done|].
  cbn [mbind list_bind]. rewrite IH. f_equal.
  destruct p as [c|m]; [done|]. cbn [sub_piece redeclare]. apply expand_TLit.
Qed.





(** ** Files without literals, for every whitelist whose templates compile *)

(** X10.  For every whitelist whose templates compile, the
    Generic Substitution of a file whose content holds neither quote
    character reads the file once and writes the content it read twice,
    once after each rule; it prints nothing. *)
Theorem generic_substitution_without_quotes (pf : platform)
    (W path : str) (bs : list byte) (t : str) (w : world) :
  leading_digit W = false ∨ octal_pair W = true →
  files w !! path = Some bs → decode (default_codec pf) bs = Some t →
  DQUOTE ∉ universal_newlines t → SQUOTE ∉ universal_newlines t →
  generic_substitution pf W path w
  = (write_content pf path (universal_newlines t) ;;;
     write_content pf path (universal_newlines t) ;;;
     ret tt) (emit (EvRead path Default) w).
Proof.
  intros HW Hf Hd Hdq Hsq. unfold generic_substitution.
  unfold bind at 1. rewrite (read_content_decoded pf path bs t) by done.
  apply generic_substitution_without_literals; try done;
    rewrite compiles_rule_template; destruct HW as [-> | ->]; try done;
    apply orb_true_r.
Qed.

Lemma generic_substitution_without_quotes_witness :
  let w0 := world0 {[ U "c.cs" := B "int x;" ]} in
  (generic_substitution (posix_ascii []) (U "\n'") (U "c.cs") w0).1 = Ret tt
  ∧ trace (generic_substitution (posix_ascii []) (U "\n'") (U "c.cs") w0).2
    = [ EvRead (U "c.cs") Default;
        EvWrite (U "c.cs") Default (U "int x;");
        EvWrite (U "c.cs") Default (U "int x;") ]
  ∧ files (generic_substitution (posix_ascii []) (U "\n'") (U "c.cs") w0).2
    = {[ U "c.cs" := B "int x;" ]}.
Proof.
  intros w0.
  rewrite (generic_substitution_without_quotes (posix_ascii []) (U "\n'")
             (U "c.cs") (B "int x;") (U "int x;")).
  - vm_compute. done.
  - by left.
  - vm_compute. reflexivity.
  - vm_compute. reflexivity.
  - apply (bool_decide_unpack _). vm_compute. exact I.
  - apply (bool_decide_unpack _). vm_compute. exact I.
Defined.

(** ** The success line of a rule *)

Lemma findall_suffix (r : regex) (a b : str) :
  is_Some (match_at false r b) → pattern_findall_any r (a ++ b) = true.
Proof.
  intros [[rest cs] Hm]. unfold pattern_findall_any.
  induction a as [|c a IH]; cbn [app].
  - destruct b as [|c b]; cbn [scan]; rewrite Hm; [done|].
    by destruct (length (c :: b) - length rest).
  - cbn [scan].
    destruct (match_at false r (c :: a ++ b)) as [[rest' cs']|]; [|done].
    by destruct (length (c :: a ++ b) - length rest').
Qed.

Lemma findall_none (r : regex) (tpl : list titem) (s : str) :
  advancing r → pattern_findall_any r s = false →
  scan r 0 s ≫= sub_piece tpl = s.
Proof.
  intros Hadv H. rewrite <- (scan_text r Hadv s) at 2.
  unfold pattern_findall_any in H.
  induction (scan r 0 s) as [|p ps IH]; [done|].
  cbn [existsb] in H. apply orb_false_iff in H as [Hp H].
  cbn [mbind list_bind]. rewrite (IH H). f_equal. by destruct p.
Qed.

Section Exists.
Context (q : N).
Hypothesis q_not_NL : q ≠ NL.

Lemma tail_quoted_exists (c1 : caps) (tok z rest : str) :
  is_token tok → NL ∉ z →
  is_Some (tail_quoted q c1 (tok ++ z ++ q :: rest)).
Proof.
  intros Htok Hz. unfold tail_quoted, TOKEN. cbn [exec].
  assert (Hrun : ∀ {A} (f : str → A),
    is_Some (star (in_cset (CNot [NL])) (z ++ q :: rest) (until q f))).
  { intros A f.
    destruct (star _ (z ++ q :: rest) (until q f)) as [r|] eqn:E; [done|].
    exfalso.
    assert (H : until q f (q :: rest) = None).
    { apply (star_None _ _ (z ++ q :: rest) z (q :: rest) E eq_refl).
      apply Forall_forall. intros x Hx. apply notnl_set. by intros ->. }
    unfold until in H. cbn [strip] in H. by rewrite char_eqb_refl in H. }
  destruct Htok as [-> | ->].
  - rewrite (proj2 (strip_Some (U "a-zA-Z") _ (z ++ q :: rest)) eq_refl).
    match goal with
    | |- is_Some (match ?x with _ => _ end) => destruct x eqn:E; [done|]
    end.
    exfalso. specialize (Hrun _ (λ s4, (s4,
      (3, take (length (z ++ q :: rest) - length s4) (z ++ q :: rest))
        :: (2, take (length (U "a-zA-Z" ++ z ++ q :: rest)
                     - length (z ++ q :: rest))
                    (U "a-zA-Z" ++ z ++ q :: rest)) :: c1))).
    unfold until in Hrun. rewrite E in Hrun. by destruct Hrun.
  - replace (strip (U "a-zA-Z") (U "A-Za-z" ++ z ++ q :: rest))
      with (@None (str)) by done.
    rewrite (proj2 (strip_Some (U "A-Za-z") _ (z ++ q :: rest)) eq_refl).
    specialize (Hrun _ (λ s4, (s4,
      (3, take (length (z ++ q :: rest) - length s4) (z ++ q :: rest))
        :: (2, take (length (U "A-Za-z" ++ z ++ q :: rest)
                     - length (z ++ q :: rest))
                    (U "A-Za-z" ++ z ++ q :: rest)) :: c1))).
    exact Hrun.
Qed.

Lemma match_quoted_exists (y tok z rest : str) :
  NL ∉ y → is_token tok → NL ∉ z →
  is_Some (match_at false (quoted q) (q :: y ++ tok ++ z ++ q :: rest)).
Proof.
  intros Hy Htok Hz. rewrite match_quoted_head, char_eqb_refl.
  match goal with
  | |- is_Some ?x => destruct x eqn:E; [done|]
  end.
  exfalso.
  pose proof (star_None _ _ _ y (tok ++ z ++ q :: rest) E eq_refl) as H.
  cbv beta in H.
  destruct (tail_quoted_exists
              [(1, take (length (q :: y ++ tok ++ z ++ q :: rest)
                         - length (tok ++ z ++ q :: rest))
                        (q :: y ++ tok ++ z ++ q :: rest))]
              tok z rest Htok Hz) as [r Hr].
  rewrite H in Hr; [done|].
  apply Forall_forall. intros x Hx. apply notnl_set. by intros ->.
Qed.

Lemma scan_quoted_matches (s : str) :
  Forall (λ p, match p with
               | Ch _ => True
               | Match m =>
                   ∃ y tok z, (NL ∉ y) ∧ is_token tok ∧ (NL ∉ z)
                     ∧ m = {| m_text := q :: y ++ tok ++ z ++ [q];
                              m_groups := [(3, z ++ [q]); (2, tok);
                                           (1, q :: y)] |}
               end)
         (scan (quoted q) 0 s).
Proof.
  apply (scan_induction (quoted q) (advancing_quoted q q_not_NL)
           (λ _ ps, Forall _ ps)).
  - constructor.
  - intros c s' _ IH. by constructor.
  - intros text rest cs _ Hm IH. constructor; [|done].
    apply match_quoted_sound in Hm as (y & tok & z & Hs & Hy & Htok & Hz & _ & ->);
      [|done].
    exists y, tok, z. split_and!; try done. f_equal.
    apply (app_inv_tail rest). rewrite Hs. cbn [app].
    by rewrite <- !app_assoc.
Qed.

Lemma findall_after_sub (E s : str) :
  NL ∉ E →
  pattern_findall_any (quoted q)
    (scan (quoted q) 0 s ≫=
       sub_piece (TGroup 1 :: TGroup 2 :: (TLit <$> E) ++ [TGroup 3]))
  = pattern_findall_any (quoted q) s.
Proof.
  intros HE. set (tpl := TGroup 1 :: TGroup 2 :: (TLit <$> E) ++ [TGroup 3]).
  destruct (pattern_findall_any (quoted q) s) eqn:Hf.
  - unfold pattern_findall_any in Hf.
    apply existsb_exists in Hf as (p & Hin & Hp).
    destruct p as [c|m]; [done|]. clear Hp.
    pose proof (scan_quoted_matches s) as Hall.
    rewrite Forall_forall in Hall. specialize (Hall _ (proj2 (list_elem_of_In _ _) Hin)).
    destruct Hall as (y & tok & z & Hy & Htok & Hz & ->).
    apply list_elem_of_In, list_elem_of_split in Hin as (pre & post & ->).
    rewrite bind_app. cbn [mbind list_bind sub_piece]. unfold tpl.
    rewrite expand_rule.
    cbn [app]. rewrite <- !app_assoc. cbn [app].
    apply findall_suffix. rewrite (app_assoc E z).
    apply (match_quoted_exists y tok (E ++ z)); [done|done|].
    rewrite elem_of_app. by intros [?|?].
  - by rewrite findall_none; [|apply advancing_quoted|].
Qed.
End Exists.

Lemma quote_escaped_no_newline (q : char) (W : str) :
  q ≠ NL → NL ∉ W → NL ∉ quote_escaped q W.
Proof.
  intros Hq. induction W as [|c W IH]; [done|].
  intros [Hc HW]%not_elem_of_cons. specialize (IH HW).
  destruct (decide (c = q)) as [->|Hcq].
  - rewrite quote_escaped_quote, !not_elem_of_cons. by split_and!.
  - rewrite quote_escaped_other by done. by apply not_elem_of_cons.
Qed.

(** X11.  The check of line 46 runs on the content after the
    substitution.  For a whitelist that does not begin with a digit and
    holds neither a newline nor a backslash followed by n, it answers as it
    would on the content before: the substitution succeeds, the rewritten
    content holds a match exactly when the original did, and without a match
    the content is unchanged. *)
Theorem success_line_follows_matches (W : str) (single : bool) (s : str) :
  let pattern := (rule W single).1 in
  let repl := (rule W single).2 in
  leading_digit W = false → NL ∉ W → contains (U "\n") W = false →
  ∃ s', re_sub pattern repl s = Ret s'
        ∧ re_findall_any pattern s' = re_findall_any pattern s
        ∧ (re_findall_any pattern s = Ret false → s' = s).
Proof.
  intros pattern repl Hd Hnl Hbn. subst pattern repl. cbn [rule fst snd].
  rewrite re_sub_quoted, !re_findall_any_quoted. unfold pattern_sub.
  change (groups (quoted (quote_of single))) with 3.
  rewrite parse_rule_template_general by done. cbn [rbind].
  eexists. split; [reflexivity|]. split.
  - rewrite re_findall_any_quoted. f_equal.
    apply findall_after_sub; [apply quote_not_NL|].
    rewrite template_text_quote_escaped
      by (done || apply quote_not_backslash).
    apply quote_escaped_no_newline; [apply quote_not_NL|done].
  - intros [= H]. apply findall_none; [|done].
    apply advancing_quoted, quote_not_NL.
Qed.

Lemma success_line_follows_matches_witness :
  ∃ s', re_sub (rule (U "XYZ") true).1 (rule (U "XYZ") true).2
          (U "c = '[a-zA-Z]';") = Ret s'
        ∧ re_findall_any (rule (U "XYZ") true).1 s'
          = re_findall_any (rule (U "XYZ") true).1 (U "c = '[a-zA-Z]';")
        ∧ (re_findall_any (rule (U "XYZ") true).1 (U "c = '[a-zA-Z]';")
           = Ret false → s' = U "c = '[a-zA-Z]';").
Proof.
  apply (success_line_follows_matches (U "XYZ") true (U "c = '[a-zA-Z]';")).
  - reflexivity.
  - apply (bool_decide_unpack _). vm_compute. exact I.
  - reflexivity.
Defined.

(** The whitelist backslash-n: the template turns it into a backslash and
    a newline, the literal is rewritten across two lines, and the check
    that decides on the success line finds nothing. *)
Example success_line_missed :
  re_sub (rule (U "\n") false).1 (rule (U "\n") false).2 (DQ "a-zA-Z")
  = Ret ([DQUOTE] ++ U "a-zA-Z\" ++ [NL; DQUOTE])
  ∧ re_findall_any (rule (U "\n") false).1
      ([DQUOTE] ++ U "a-zA-Z\" ++ [NL; DQUOTE])
    = Ret false
  ∧ re_findall_any (rule (U "\n") false).1 (DQ "a-zA-Z") = Ret true.
Proof. vm_compute. done. Qed.

(** ** Applying a rule again *)

Lemma sub_single_span (W : str) (single : bool) (x y tok z after : str) :
  let q := quote_of single in
  leading_digit W = false →
  q ∉ x → NL ∉ y → is_token tok → NL ∉ z →
  no_token_in (drop 1 (tok ++ z)) = true → q ∉ after →
  re_sub (rule W single).1 (rule W single).2
    (x ++ q :: y ++ tok ++ z ++ q :: after)
  = Ret (x ++ q :: y ++ tok ++ template_text q W ++ z ++ q :: after).
Proof.
  intros q Hd Hx Hy Htok Hz Hlast Hafter. cbn [rule fst snd]. fold q.
  unfold q at 1. rewrite re_sub_quoted. fold q. unfold pattern_sub.
  change (groups (quoted q)) with 3.
  unfold q at 1. rewrite parse_rule_template_general by done. fold q.
  cbn [rbind]. f_equal.
  assert (Hl : line_lacks q after = true).
  { clear -Hafter. induction after as [|c s IH]; [done|].
    apply not_elem_of_cons in Hafter as [Hc Hs]. cbn [line_lacks].
    destruct (char_eqb c NL); [done|].
    assert (E : char_eqb c q = false) by (apply char_eqb_neq; congruence).
    rewrite E. by apply IH. }
  rewrite scan_all_miss.
  - rewrite (scan_match (quoted q) _ (q :: y ++ tok ++ z ++ [q]) after
               [(3, z ++ [q]); (2, tok); (1, q :: y)]).
    + rewrite scan_no_quote by (done || apply quote_not_NL).
      rewrite bind_app, bind_Ch. cbn [mbind list_bind sub_piece].
      rewrite expand_rule, bind_Ch. cbn [app]. rewrite <- !app_assoc. done.
    + apply match_quoted_complete; try done;
        [apply quote_not_NL | apply quote_not_in_T1 | apply quote_not_in_T2].
    + cbn [app]. by rewrite <- !app_assoc.
    + done.
  - intros a b -> Hb. destruct b as [|c b]; [done|].
    apply match_quoted_other. intros ->. apply Hx.
    apply elem_of_app. right. by left.
Qed.

(** X12.  A rule is not idempotent.  On a text with one span
    [q y tok z q] and no other quote character [q], one application inserts
    the text [T] that the template holds for the whitelist after [tok], and
    a second application, on the result, inserts it again: the literal then
    holds [tok T T z]. *)
Theorem rule_applied_twice_inserts_twice (W : str) (single : bool)
    (x y tok z after : str) :
  let q := quote_of single in
  let pattern := (rule W single).1 in
  let repl := (rule W single).2 in
  let T := template_text q W in
  leading_digit W = false → NL ∉ T →
  q ∉ x → NL ∉ y → is_token tok → NL ∉ z → q ∉ after →
  no_token_in (drop 1 (tok ++ z)) = true →
  no_token_in (drop 1 (tok ++ T ++ z)) = true →
  re_sub pattern repl (x ++ q :: y ++ tok ++ z ++ q :: after)
  = Ret (x ++ q :: y ++ tok ++ T ++ z ++ q :: after)
  ∧ re_sub pattern repl (x ++ q :: y ++ tok ++ T ++ z ++ q :: after)
    = Ret (x ++ q :: y ++ tok ++ T ++ T ++ z ++ q :: after).
Proof.
  intros q pattern repl T Hd HT Hx Hy Htok Hz Hafter H1 H2.
  subst pattern repl. split.
  - by apply sub_single_span.
  - replace (x ++ q :: y ++ tok ++ T ++ z ++ q :: after)
      with (x ++ q :: y ++ tok ++ (T ++ z) ++ q :: after)
      by (by rewrite <- !app_assoc).
    unfold q. rewrite (sub_single_span W single x y tok (T ++ z) after);
      try done.
    + fold q T. by rewrite <- !app_assoc.
    + rewrite elem_of_app. by intros [?|?].
Qed.

(** Whitelist XYZ, run twice on one literal. *)
Lemma rule_applied_twice_inserts_twice_witness :
  re_sub (rule (U "XYZ") false).1 (rule (U "XYZ") false).2
    (U "r = " ++ DQ "[^a-zA-Z0-9_]" ++ U ";")
  = Ret (U "r = " ++ DQ "[^a-zA-ZXYZ0-9_]" ++ U ";")
  ∧ re_sub (rule (U "XYZ") false).1 (rule (U "XYZ") false).2
      (U "r = " ++ DQ "[^a-zA-ZXYZ0-9_]" ++ U ";")
    = Ret (U "r = " ++ DQ "[^a-zA-ZXYZXYZ0-9_]" ++ U ";").
Proof.
  apply (rule_applied_twice_inserts_twice (U "XYZ") false
           (U "r = ") (U "[^") (U "a-zA-Z") (U "0-9_]") (U ";")).
  - reflexivity.
  - apply (bool_decide_unpack _). vm_compute. exact I.
  - apply (bool_decide_unpack _). vm_compute. exact I.
  - apply (bool_decide_unpack _). vm_compute. exact I.
  - by left.
  - apply (bool_decide_unpack _). vm_compute. exact I.
  - apply (bool_decide_unpack _). vm_compute. exact I.
  - vm_compute. reflexivity.
  - vm_compute. reflexivity.
Defined.

(** ** Running the Targeted Rewrite again *)

Section First.
Context (r : regex) (Hadv : advancing r).

(** The search finds nothing, or a first match after a run of misses. *)
Lemma scan_first (s : str) :
  (scan r 0 s = Ch <$> s)
  ∨ (∃ x text rest cs,
       s = x ++ text ++ rest ∧ text ≠ []
       ∧ match_at false r (text ++ rest) = Some (rest, cs)
       ∧ (∀ a b, x = a ++ b → b ≠ [] →
            match_at false r (b ++ text ++ rest) = None)
       ∧ scan r 0 s
         = (Ch <$> x) ++ Match {| m_text := text; m_groups := cs |}
                      :: scan r 0 rest).
Proof.
  apply (scan_induction r Hadv (λ s ps,
    (ps = Ch <$> s)
    ∨ (∃ x text rest cs,
         s = x ++ text ++ rest ∧ text ≠ []
         ∧ match_at false r (text ++ rest) = Some (rest, cs)
         ∧ (∀ a b, x = a ++ b → b ≠ [] →
              match_at false r (b ++ text ++ rest) = None)
         ∧ ps = (Ch <$> x) ++ Match {| m_text := text; m_groups := cs |}
                           :: scan r 0 rest))).
  - by left.
  - intros c s' Hm [IH | (x & text & rest & cs & -> & Ht & Hmatch & Hx & ->)].
    + left. by rewrite IH.
    + right. exists (c :: x), text, rest, cs. split_and!; try done.
      intros a b Hab Hb. destruct a as [|a0 a].
      * cbn [app] in Hab. by subst b.
      * injection Hab as -> ->. by apply (Hx a b).
  - intros text rest cs Ht Hm _. right. exists [], text, rest, cs.
    split_and!; try done. intros a b Hab Hb.
    symmetry in Hab. by apply app_eq_nil in Hab as [_ ->].
Qed.
End First.

Lemma line_lacks_absent (c : char) (s : str) :
  NL ∉ s → line_lacks c s = true → c ∉ s.
Proof.
  induction s as [|x s IH]; [intros; apply not_elem_of_nil|].
  intros [Hx Hs]%not_elem_of_cons. cbn [line_lacks].
  assert (E : char_eqb x NL = false) by (apply char_eqb_neq; congruence).
  rewrite E. intros [Hc Hl]%andb_true_iff.
  apply negb_true_iff, char_eqb_neq in Hc.
  apply not_elem_of_cons. split; [congruence|by apply IH].
Qed.

Lemma scan_target_no_paren (s : str) :
  RPAREN ∉ s → scan TARGET 0 s = Ch <$> s.
Proof.
  intros H. rewrite <- (app_nil_r s) at 1. rewrite scan_all_miss.
  - rewrite (scan_nil TARGET advancing_target). by rewrite app_nil_r.
  - intros a b -> Hb. rewrite app_nil_r.
    destruct (match_at false TARGET b) as [[rest cs]|] eqn:Hm; [|done].
    apply match_target_sound in Hm as (mid & -> & _). exfalso. apply H.
    rewrite !elem_of_app. right. right. right. by left.
Qed.

(** Where the search fails although the text [string allowSpecialChars]
    and a closing parenthesis follow on the line, that text does not start
    here. *)
Lemma match_target_miss (b mid rest : str) :
  b ≠ [] → NL ∉ b → NL ∉ mid → line_lacks RPAREN rest = true →
  match_at false TARGET (b ++ ALLOW ++ mid ++ RPAREN :: rest) = None →
  startswith ALLOW (b ++ ALLOW) = false.
Proof.
  intros Hb Hnb Hmid Hl Hm.
  destruct (startswith ALLOW (b ++ ALLOW)) eqn:Hs; [|done]. exfalso.
  apply startswith_strip in Hs as [u Hu]. apply strip_Some in Hu.
  assert (HNL : NL ∉ u ++ mid).
  { assert (Hall : NL ∉ ALLOW)
      by (apply (bool_decide_unpack _); vm_compute; exact I).
    assert (H : NL ∉ ALLOW ++ u).
    { rewrite <- Hu. rewrite elem_of_app. by intros [?|?]. }
    rewrite elem_of_app in H. rewrite elem_of_app. intros [?|?]; [|done].
    apply H. by right. }
  replace (b ++ ALLOW ++ mid ++ RPAREN :: rest)
    with (ALLOW ++ (u ++ mid) ++ RPAREN :: rest) in Hm.
  - by rewrite match_target_complete in Hm.
  - rewrite <- (app_assoc u mid), (app_assoc ALLOW u), <- Hu.
    by rewrite <- !app_assoc.
Qed.

Section Redeclare.
Context (W : str).
Hypothesis declared_NL : NL ∉ template_text SQUOTE W.

Lemma declared_span :
  ∃ mid, declared W = ALLOW ++ mid ++ [RPAREN] ∧ NL ∉ mid.
Proof.
  exists (U " = " ++ [DQUOTE] ++ template_text SQUOTE W ++ [DQUOTE]).
  split.
  - unfold declared. change (U "string allowSpecialChars = ")
      with (ALLOW ++ U " = "). change (U ")") with [RPAREN].
    by rewrite <- !app_assoc.
  - rewrite !elem_of_app. intros [H|[H|[H|H]]]; try done.
    + revert H. apply (bool_decide_unpack _). vm_compute. exact I.
    + revert H. apply (bool_decide_unpack _). vm_compute. exact I.
    + revert H. apply (bool_decide_unpack _). vm_compute. exact I.
Qed.

Lemma redeclare_Ch (s : str) : (Ch <$> s) ≫= redeclare W = s.
Proof. by apply bind_Ch_copy. Qed.

(** A line is left alone, or its span from the first
    [string allowSpecialChars] to its last closing parenthesis becomes the
    declaration. *)
Lemma redeclare_line (l : str) :
  NL ∉ l →
  scan TARGET 0 l ≫= redeclare W = l
  ∨ ∃ x mid rest,
      l = x ++ ALLOW ++ mid ++ RPAREN :: rest
      ∧ (RPAREN ∉ rest)
      ∧ (∀ a b, x = a ++ b → b ≠ [] → startswith ALLOW (b ++ ALLOW) = false)
      ∧ scan TARGET 0 l ≫= redeclare W = x ++ declared W ++ rest.
Proof.
  intros Hl.
  destruct (scan_first TARGET advancing_target l)
    as [H | (x & text & rest & cs & Hs & Ht & Hm & Hx & Hscan)].
  - left. by rewrite H, redeclare_Ch.
  - right. pose proof Hm as Hm'.
    apply match_target_sound in Hm' as (mid & Htext & Hmid & Hrest & ->).
    assert (Hrest' : RPAREN ∉ rest).
    { apply line_lacks_absent; [|done]. subst l.
      rewrite !elem_of_app in Hl. intros ?. apply Hl. by right; right. }
    exists x, mid, rest. split_and!.
    + by rewrite Hs, Htext.
    + done.
    + intros a b -> Hb.
      apply (match_target_miss b mid rest); try done.
      * subst l. rewrite !elem_of_app in Hl. intros ?. apply Hl. left. by right.
      * rewrite <- Htext. by apply (Hx a b).
    + rewrite Hscan, bind_app, redeclare_Ch. cbn [mbind list_bind redeclare].
      by rewrite scan_target_no_paren, redeclare_Ch.
Qed.

Lemma redeclare_again (x rest : str) :
  RPAREN ∉ rest →
  (∀ a b, x = a ++ b → b ≠ [] → startswith ALLOW (b ++ ALLOW) = false) →
  scan TARGET 0 (x ++ declared W ++ rest) ≫= redeclare W
  = x ++ declared W ++ rest.
Proof.
  intros Hrest Hx. destruct declared_span as (mid & HD & Hmid).
  assert (Hl : line_lacks RPAREN rest = true).
  { clear -Hrest. induction rest as [|c s IH]; [done|].
    apply not_elem_of_cons in Hrest as [Hc Hs]. cbn [line_lacks].
    destruct (char_eqb c NL); [done|].
    assert (E : char_eqb c RPAREN = false) by (apply char_eqb_neq; congruence).
    rewrite E. by apply IH. }
  rewrite scan_all_miss.
  - rewrite (scan_match TARGET _ (declared W) rest []).
    + rewrite bind_app, redeclare_Ch. cbn [mbind list_bind redeclare].
      by rewrite scan_target_no_paren, redeclare_Ch.
    + rewrite HD, <- !app_assoc. by apply match_target_complete.
    + done.
    + intros H. apply (f_equal length) in H.
      rewrite HD, !length_app in H. cbn in H. lia.
  - intros a b Hab Hb. apply match_target_None.
    rewrite HD, <- !app_assoc, (app_assoc b ALLOW).
    rewrite startswith_app_long; [by apply (Hx a b)|].
    rewrite length_app. lia.
Qed.

Lemma redeclare_no_newline (l : str) :
  NL ∉ l → NL ∉ scan TARGET 0 l ≫= redeclare W.
Proof.
  intros Hl. destruct declared_span as (mid & HD & Hmid).
  destruct (redeclare_line l Hl) as [-> | (x & mid' & rest & -> & _ & _ & ->)];
    [done|].
  rewrite !elem_of_app in Hl. rewrite HD, !elem_of_app.
  intros [H|[[H|[H|H]]|H]].
  - apply Hl. by left.
  - apply Hl. right. by left.
  - done.
  - by apply list_elem_of_singleton in H.
  - apply Hl. right. right. right. by right.
Qed.

Lemma redeclare_lines (s : str) :
  scan TARGET 0 (scan TARGET 0 s ≫= redeclare W) ≫= redeclare W
  = scan TARGET 0 s ≫= redeclare W.
Proof.
  remember (length s) as n eqn:Hn. revert s Hn.
  induction n as [n IH] using lt_wf_ind. intros s ->.
  destruct (decide (NL ∈ s)) as [Hin | Hout].
  - apply list_elem_of_split_l in Hin as (l & tl & -> & Hl).
    rewrite (scan_line TARGET advancing_target eq_refl l tl Hl).
    rewrite bind_app. cbn [mbind list_bind redeclare app].
    rewrite (scan_line TARGET advancing_target eq_refl)
      by by apply redeclare_no_newline.
    rewrite bind_app. cbn [mbind list_bind redeclare app].
    rewrite (IH (length l)) by (rewrite ?length_app; simpl; lia || done).
    rewrite (IH (length tl)) by (rewrite ?length_app; simpl; lia || done).
    done.
  - destruct (redeclare_line s Hout)
      as [H | (x & mid & rest & -> & Hrest & Hx & H)].
    + by rewrite !H.
    + rewrite H. by apply redeclare_again.
Qed.
End Redeclare.

(** X13.  The substitution of the Targeted Rewrite is idempotent
    for a whitelist that holds neither a newline nor a backslash followed by
    n: applied to its own result, it changes nothing. *)
Theorem targeted_rewrite_is_idempotent (W s : str) :
  NL ∉ W → contains (U "\n") W = false →
  ∃ s1, re_sub TARGET_PATTERN (declaration W) s = Ret s1
        ∧ re_sub TARGET_PATTERN (declaration W) s1 = Ret s1.
Proof.
  intros HW Hbn. rewrite re_sub_declaration. eexists. split; [reflexivity|].
  rewrite re_sub_declaration. f_equal. apply redeclare_lines.
  rewrite template_text_quote_escaped by done.
  by apply quote_escaped_no_newline.
Qed.

(** Two lines, the first with a call in the default value; a second run
    changes nothing. *)
Lemma targeted_rewrite_is_idempotent_witness :
  ∃ s1, re_sub TARGET_PATTERN (declaration (U "a'b"))
          (U "f(string allowSpecialChars = g(1)) {" ++ [NL] ++ U "}")
        = Ret s1
        ∧ re_sub TARGET_PATTERN (declaration (U "a'b")) s1 = Ret s1.
Proof.
  apply (targeted_rewrite_is_idempotent (U "a'b")).
  - apply (bool_decide_unpack _). vm_compute. exact I.
  - reflexivity.
Defined.

(** ** Reading and writing *)

Lemma read_content_default (pf : platform) (path : str) (w : world) :
  read_content pf path w = read_file pf Default path w.
Proof.
  unfold read_content, try_except, read_file.
  destruct (files w !! path) as [bs|]; [|done].
  by destruct (decode (codec_of pf Default) bs).
Qed.

Section NoUtf8Read.
Context (pf : platform).

Lemma emits_read_content_default (path : str) :
  emits not_utf8_read (read_content pf path).
Proof.
  intros w. rewrite read_content_default.
  by apply (emits_read_file not_utf8_read pf Default path).
Qed.

Lemma emits_process_file_default (W root file : str) :
  emits not_utf8_read (process_file pf W root file).
Proof.
  unfold process_file.
  destruct (str_eqb file (U "Extensions.cs"));
    [|destruct (str_eqb (splitext file).2 (U ".cs"))].
  - unfold targeted_rewrite.
    apply emits_bind; [apply emits_read_content_default|]. intros content.
    apply emits_bind; [apply emits_lift|]. intros content'.
    apply emits_bind; [by apply emits_print|].
    intros _. by apply emits_write_content.
  - unfold generic_substitution.
    apply emits_bind; [apply emits_read_content_default|]. intros content.
    by apply emits_apply_rules.
  - apply emits_ret.
Qed.
End NoUtf8Read.

Lemma emits_input (Q : event → Prop) (prompt : str) :
  Q (EvInput prompt) → emits Q (input prompt).
Proof.
  intros H w. exists [EvInput prompt]. split; [|by constructor].
  unfold input. by destruct (stdin w).
Qed.

Lemma emits_main_default (pf : platform) : emits not_utf8_read (main pf).
Proof.
  unfold main. apply emits_bind; [by apply emits_input|]. intros W.
  unfold patch. apply emits_bind.
  { intros w. exists []. by rewrite app_nil_r. }
  intros entries. apply emits_for_each. intros entry _.
  apply emits_for_each. intros file _. apply emits_process_file_default.
Qed.

(** X14.  The reads with [encoding='utf-8'] (lines 26-27 and
    42-43) are dead code: reading a file is the single attempt in the
    default encoding, in every world, and no run ever opens a file for
    reading in UTF-8. *)
Theorem utf8_read_is_never_tried (pf : platform) (w : world) :
  (∀ path, read_content pf path w = read_file pf Default path w)
  ∧ ∃ evs, trace (main pf w).2 = trace w ++ evs
           ∧ ∀ path, EvRead path Utf8 ∉ evs.
Proof.
  split; [intros path; apply read_content_default|].
  destruct (emits_main_default pf w) as (evs & H & HQ).
  exists evs. split; [done|]. intros path Hin.
  rewrite Forall_forall in HQ. by apply HQ in Hin.
Qed.

(** X15.  What a write (lines 31-36 and 48-53) leaves behind: no
    other file changes; when the default encoding can encode the text, the
    file holds those bytes; when it cannot and UTF-8 can, the file holds the
    UTF-8 bytes; when neither can, the write raises [UnicodeEncodeError] and
    the file is left empty. *)
Theorem write_content_outcomes (pf : platform) (path content : str)
    (w : world) :
  let text := write_newlines (linesep pf) content in
  let r := write_content pf path content w in
  (∀ p, p ≠ path → files r.2 !! p = files w !! p)
  ∧ match encode (default_codec pf) text, utf8_encode text with
    | Some bs, _ => r.1 = Ret tt ∧ files r.2 !! path = Some bs
    | None, Some bs => r.1 = Ret tt ∧ files r.2 !! path = Some bs
    | None, None =>
        r.1 = Raise UnicodeEncodeError ∧ files r.2 !! path = Some []
    end.
Proof.
  intros text r. subst text r.
  unfold write_content, try_except, write_file. cbn [codec_of utf8_codec encode].
  destruct (encode (default_codec pf) _) as [bs|] eqn:E1.
  - cbn [fst snd store files emit]. split; [|by rewrite lookup_insert_eq].
    intros p Hp. by rewrite !lookup_insert_ne.
  - rewrite bool_decide_eq_true_2 by done.
    cbn [store emit files linesep].
    destruct (utf8_encode _) as [bs|] eqn:E2.
    + cbn [fst snd store files emit]. split; [|by rewrite lookup_insert_eq].
      intros p Hp. by rewrite !lookup_insert_ne.
    + cbn [fst snd store files emit]. split; [|by rewrite lookup_insert_eq].
      intros p Hp. by rewrite !lookup_insert_ne.
Qed.

(** ** UTF-8 *)

Lemma to_N_byte_of (n : N) : (n < 256)%N → Byte.to_N (byte_of n) = n.
Proof.
  intros H. unfold byte_of. destruct (Byte.of_N n) as [b|] eqn:E.
  - by apply Byte.to_of_N.
  - apply Byte.of_N_None_iff in E. lia.
Qed.

Lemma in_range_byte_of (lo hi n : N) :
  (n < 256)%N → in_range lo hi (byte_of n) = (lo <=? n)%N && (n <=? hi)%N.
Proof. intros H. unfold in_range. by rewrite to_N_byte_of. Qed.

Lemma cont_byte_of (n : N) : (n < 64)%N → cont (byte_of (128 + n)) = n.
Proof. intros H. unfold cont. rewrite to_N_byte_of; lia. Qed.

Lemma split64 (c : N) :
  (c = 64 * (c / 64) + c mod 64)%N ∧ (c mod 64 < 64)%N.
Proof. split; [apply N.div_mod'|by apply N.mod_lt]. Qed.

Lemma leb_true (a b : N) : (a <= b)%N → (a <=? b)%N = true.
Proof. apply N.leb_le. Qed.

Lemma leb_false (a b : N) : (b < a)%N → (a <=? b)%N = false.
Proof. apply N.leb_gt. Qed.

Lemma ltb_false (a b : N) : (b <= a)%N → (a <? b)%N = false.
Proof. apply N.ltb_ge. Qed.

Lemma utf8_decode_char (c : char) (bs rest : list byte) :
  utf8_encode_char c = Some bs →
  utf8_decode (bs ++ rest) = cons c <$> utf8_decode rest.
Proof.
  unfold utf8_encode_char.
  destruct (split64 c) as [F1 B1].
  destruct (split64 (c / 64)) as [F2 B2].
  destruct (split64 (c / 4096)) as [F3 B3].
  replace (c / 64 / 64)%N with (c / 4096)%N in F2
    by (by rewrite N.Div0.div_div).
  replace (c / 4096 / 64)%N with (c / 262144)%N in F3
    by (by rewrite N.Div0.div_div).
  remember ((c / 4096) mod 64)%N as m3 eqn:E3.
  remember ((c / 64) mod 64)%N as m2 eqn:E2.
  remember (c mod 64)%N as m1 eqn:E1.
  remember (c / 262144)%N as d3 eqn:E6.
  remember (c / 4096)%N as d2 eqn:E5.
  remember (c / 64)%N as d1 eqn:E4.
  clear E1 E2 E3 E4 E5 E6.
  destruct (c <? 128)%N eqn:H1.
  { intros [= <-]. apply N.ltb_lt in H1. cbn [app utf8_decode].
    rewrite to_N_byte_of by lia.
    by rewrite (proj2 (N.ltb_lt c 128) H1). }
  apply N.ltb_ge in H1.
  destruct (c <? 2048)%N eqn:H2.
  { intros [= <-]. apply N.ltb_lt in H2. cbn [app utf8_decode].
    rewrite to_N_byte_of by lia.
    rewrite ltb_false by lia.
    rewrite !in_range_byte_of by lia.
    rewrite (leb_true 194), (leb_true _ 223), (leb_true 128), (leb_true _ 191)
      by lia.
    cbn [andb]. rewrite cont_byte_of by done.
    replace ((192 + d1 - 192) * 64 + m1)%N with c by lia. done. }
  apply N.ltb_ge in H2.
  destruct (c <? 65536)%N eqn:H3.
  { apply N.ltb_lt in H3.
    destruct ((55296 <=? c)%N && (c <=? 57343)%N) eqn:Hs; [done|].
    intros [= <-]. cbn [app utf8_decode].
    rewrite to_N_byte_of by lia.
    rewrite ltb_false by lia.
    rewrite !in_range_byte_of by lia.
    rewrite (leb_false _ 223) by lia. rewrite andb_false_r.
    rewrite (leb_true 224), (leb_true _ 239) by lia.
    cbn [andb].
    assert (Hr : ((if bool_decide ((224 + d2)%N = 224%N) then 160 else 128)
                    <=? 128 + m2)%N
                 && (128 + m2
                     <=? (if bool_decide ((224 + d2)%N = 237%N)
                          then 159 else 191))%N = true).
    { apply andb_true_iff. rewrite !N.leb_le.
      apply andb_false_iff in Hs.
      rewrite N.leb_gt, N.leb_gt in Hs.
      split; case_bool_decide; lia. }
    rewrite Hr.
    rewrite (leb_true 128), (leb_true _ 191) by lia.
    cbn [andb]. rewrite !cont_byte_of by done.
    replace ((224 + d2 - 224) * 4096 + m2 * 64 + m1)%N with c by lia.
    done. }
  apply N.ltb_ge in H3.
  destruct (c <? 1114112)%N eqn:H4; [|done].
  apply N.ltb_lt in H4.
  intros [= <-]. cbn [app utf8_decode].
  rewrite to_N_byte_of by lia.
  rewrite ltb_false by lia.
  rewrite !in_range_byte_of by lia.
  rewrite (leb_false _ 223) by lia. rewrite andb_false_r.
  rewrite (leb_false _ 239) by lia. rewrite andb_false_r.
  rewrite (leb_true 240), (leb_true _ 244) by lia.
  cbn [andb].
  assert (Hr : ((if bool_decide ((240 + d3)%N = 240%N) then 144 else 128)
                  <=? 128 + m3)%N
               && (128 + m3
                   <=? (if bool_decide ((240 + d3)%N = 244%N)
                        then 143 else 191))%N = true).
  { apply andb_true_iff. rewrite !N.leb_le.
    split; case_bool_decide; lia. }
  rewrite Hr.
  rewrite !(leb_true 128), !(leb_true _ 191) by lia.
  cbn [andb]. rewrite !cont_byte_of by done.
  replace ((240 + d3 - 240) * 262144 + m3 * 4096 + m2 * 64 + m1)%N
    with c by lia.
  done.
Qed.

(** X16.  The bytes the UTF-8 codec produces for a text decode to
    that text. *)
Theorem utf8_round_trip (s : str) (bs : list byte) :
  utf8_encode s = Some bs → utf8_decode bs = Some s.
Proof.
  unfold utf8_encode. revert bs. induction s as [|c s IH]; intros bs.
  - by intros [= <-].
  - cbn [mapM]. destruct (utf8_encode_char c) as [b1|] eqn:E1; [|done].
    cbn [mbind option_bind]. destruct (mapM utf8_encode_char s) as [bss|] eqn:E2;
      [|done].
    intros [= <-]. cbn [concat].
    rewrite (utf8_decode_char c b1) by done.
    by rewrite (IH (concat bss) eq_refl).
Qed.

(** U+0041, U+00E9, U+20AC and U+1F600: one, two, three and four bytes. *)
Lemma utf8_round_trip_witness :
  utf8_decode [x41; xc3; xa9; xe2; x82; xac; xf0; x9f; x98; x80]
  = Some [65; 233; 8364; 128512]%N.
Proof.
  apply (utf8_round_trip [65; 233; 8364; 128512]%N).
  vm_compute. reflexivity.
Defined.

(** ** Line endings *)

Lemma universal_newlines_no_CR (t : str) : CR ∉ universal_newlines t.
Proof.
  induction t as [|c s IH]; [apply not_elem_of_nil|].
  cbn [universal_newlines]. destruct (char_eqb c CR) eqn:Hc.
  - destruct s as [|d s']; [by apply not_elem_of_cons|].
    destruct (char_eqb d NL); [done|]. by apply not_elem_of_cons.
  - apply char_eqb_neq in Hc. apply not_elem_of_cons. split; [congruence|done].
Qed.

Lemma universal_newlines_id (t : str) : CR ∉ t → universal_newlines t = t.
Proof.
  induction t as [|c s IH]; [done|]. intros [Hc Hs]%not_elem_of_cons.
  cbn [universal_newlines].
  assert (E : char_eqb c CR = false) by (apply char_eqb_neq; congruence).
  by rewrite E, IH.
Qed.

Lemma write_newlines_posix (s : str) : write_newlines [NL] s = s.
Proof.
  unfold write_newlines. induction s as [|c s IH]; [done|].
  cbn [mbind list_bind]. rewrite IH.
  destruct (char_eqb c NL) eqn:E; [|done].
  apply char_eqb_eq in E. by subst c.
Qed.

Lemma write_newlines_windows (s : str) :
  CR ∉ s → universal_newlines (write_newlines [CR; NL] s) = s.
Proof.
  unfold write_newlines. induction s as [|c s IH]; [done|].
  intros [Hc Hs]%not_elem_of_cons. cbn [mbind list_bind].
  destruct (char_eqb c NL) eqn:E.
  - apply char_eqb_eq in E. subst c. cbn [app universal_newlines].
    rewrite !char_eqb_refl. replace (char_eqb NL CR) with false by done.
    by rewrite IH.
  - cbn [app universal_newlines].
    assert (E2 : char_eqb c CR = false) by (apply char_eqb_neq; congruence).
    by rewrite E2, IH.
Qed.

(** X17.  Line endings in text mode.  The content a read returns
    holds no carriage return, and it is the decoded text exactly when that
    text holds none; written with the line separator LF it is stored as it
    is (so a file with CR LF endings comes back with LF endings), and
    written with the separator CR LF it is read back unchanged. *)
Theorem text_mode_line_endings (t : str) :
  (CR ∉ universal_newlines t)
  ∧ (universal_newlines t = t ↔ CR ∉ t)
  ∧ write_newlines [NL] (universal_newlines t) = universal_newlines t
  ∧ universal_newlines (write_newlines [CR; NL] (universal_newlines t))
    = universal_newlines t.
Proof.
  split_and!.
  - apply universal_newlines_no_CR.
  - split; [|apply universal_newlines_id].
    intros <-. apply universal_newlines_no_CR.
  - apply write_newlines_posix.
  - apply write_newlines_windows, universal_newlines_no_CR.
Qed.

(** On a POSIX machine, a file with Windows line endings and nothing to
    rewrite comes back with bare newlines. *)
Example generic_substitution_line_endings :
  let w0 := world0 {[ U "d.cs" := [x61; x0d; x0a; x62] ]} in
  files (generic_substitution (posix_ascii []) (U "XYZ") (U "d.cs") w0).2
  = {[ U "d.cs" := [x61; x0a; x62] ]}.
Proof. vm_compute. reflexivity. Qed.

(** ** Writing, then reading again *)

Lemma utf8_encode_is_Some (s : str) :
  is_Some (utf8_encode s) ↔ Forall (λ c, is_Some (utf8_encode_char c)) s.
Proof.
  unfold utf8_encode. rewrite fmap_is_Some. apply mapM_is_Some.
Qed.

Lemma utf8_encode_newlines (ls s : str) :
  is_Some (utf8_encode ls) → is_Some (utf8_encode s) →
  is_Some (utf8_encode (write_newlines ls s)).
Proof.
  rewrite !utf8_encode_is_Some. intros Hls Hs. unfold write_newlines.
  induction Hs as [|c s Hc Hs IH]; [constructor|].
  cbn [mbind list_bind]. apply Forall_app. split; [|done].
  destruct (char_eqb c NL); [done|]. by constructor.
Qed.

(** X18.  On a platform whose default encoding is UTF-8 and
    whose line separator is LF or CR LF, a content without carriage return
    that UTF-8 can encode is written without error, and a later read of the
    file returns that content. *)
Theorem written_content_is_read_back (pf : platform) (path content : str)
    (w : world) :
  default_codec pf = utf8_codec →
  linesep pf = [NL] ∨ linesep pf = [CR; NL] →
  CR ∉ content → is_Some (utf8_encode content) →
  ∃ w1, write_content pf path content w = (Ret tt, w1)
        ∧ (read_content pf path w1).1 = Ret content.
Proof.
  intros Hcodec Hls HCR Henc.
  assert (Hls' : is_Some (utf8_encode (linesep pf))).
  { destruct Hls as [-> | ->]; by eexists. }
  destruct (utf8_encode_newlines (linesep pf) content Hls' Henc) as [bs Hbs].
  unfold write_content, try_except, write_file. cbn [codec_of].
  rewrite Hcodec. cbn [utf8_codec encode]. rewrite Hbs.
  eexists. split; [reflexivity|].
  rewrite read_content_default. unfold read_file. cbn [codec_of].
  cbn [store emit files]. rewrite lookup_insert_eq.
  rewrite Hcodec. cbn [utf8_codec decode].
  assert (Hdec : utf8_decode bs
                 = Some (write_newlines (linesep pf) content)).
  { clear -Hbs. revert bs Hbs.
    generalize (write_newlines (linesep pf) content). unfold utf8_encode.
    intros s. induction s as [|c s IH]; intros bs; [by intros [= <-]|].
    cbn [mapM]. destruct (utf8_encode_char c) as [b1|] eqn:E1; [|done].
    cbn [mbind option_bind].
    destruct (mapM utf8_encode_char s) as [bss|] eqn:E2; [|done].
    intros [= <-]. cbn [concat]. rewrite (utf8_decode_char c b1) by done.
    by rewrite (IH (concat bss) eq_refl). }
  rewrite Hdec. cbn [fst]. f_equal.
  destruct Hls as [-> | ->].
  - rewrite write_newlines_posix. by apply universal_newlines_id.
  - by apply write_newlines_windows.
Qed.

Lemma written_content_is_read_back_witness :
  ∃ w1, write_content (posix_utf8 []) (U "e.cs") [233%N; NL; 8364%N]
          (world0 ∅) = (Ret tt, w1)
        ∧ (read_content (posix_utf8 []) (U "e.cs") w1).1
          = Ret [233%N; NL; 8364%N].
Proof.
  apply (written_content_is_read_back (posix_utf8 []) (U "e.cs")
           [233%N; NL; 8364%N] (world0 ∅)).
  - reflexivity.
  - by left.
  - apply (bool_decide_unpack _). vm_compute. exact I.
  - by eexists.
Defined.

(** ** Which names take the generic branch *)

Lemma rfind1_absent (c : char) (s : str) : c ∉ s → rfind1 c s = 0.
Proof.
  induction s as [|x s IH]; [done|]. intros [Hx Hs]%not_elem_of_cons.
  cbn [rfind1]. rewrite (IH Hs).
  assert (E : char_eqb x c = false) by (apply char_eqb_neq; congruence).
  by rewrite E.
Qed.

Lemma rfind1_last (c : char) (a b : str) :
  c ∉ b → rfind1 c (a ++ c :: b) = S (length a).
Proof.
  intros Hb. induction a as [|x a IH]; cbn [app rfind1 length].
  - by rewrite (rfind1_absent c b Hb), char_eqb_refl.
  - by rewrite IH.
Qed.

Lemma rfind1_split (c : char) (s : str) :
  (c ∉ s) ∨ (∃ a b, s = a ++ c :: b ∧ c ∉ b).
Proof.
  induction s as [|x s IH]; [left; apply not_elem_of_nil|].
  destruct IH as [Hs | (a & b & -> & Hb)].
  - destruct (decide (x = c)) as [->|Hx].
    + right. by exists [], s.
    + left. by apply not_elem_of_cons.
  - right. by exists (x :: a), b.
Qed.

Lemma splitext_name (a b : str) :
  SEP ∉ a ++ DOT :: b → DOT ∉ b →
  splitext (a ++ DOT :: b)
  = if existsb (λ x, negb (char_eqb x DOT)) a
    then (a, DOT :: b) else (a ++ DOT :: b, []).
Proof.
  intros Hsep Hb. unfold splitext.
  rewrite (rfind1_absent SEP _ Hsep), (rfind1_last DOT a b Hb).
  rewrite bool_decide_eq_true_2 by lia. cbn [andb drop].
  replace (S (length a) - 1 - 0) with (length a) by lia.
  replace (S (length a) - 1) with (length a) by lia.
  rewrite drop_0, !take_app_length, drop_app_length. done.
Qed.

Lemma splitext_no_dot (p : str) : DOT ∉ p → splitext p = (p, []).
Proof.
  intros H. unfold splitext. rewrite (rfind1_absent DOT p H).
  rewrite bool_decide_eq_false_2 by lia. done.
Qed.

(** X19.  Which names line 37 sends to the Generic Substitution: a
    name without path separator has the extension [.cs] exactly when it is a
    stem holding a character other than a dot, followed by [.cs]; and
    [splitext] splits the name without losing a character. *)
Theorem generic_branch_names (file : str) :
  SEP ∉ file →
  ((splitext file).2 = U ".cs"
   ↔ ∃ stem, file = stem ++ U ".cs"
             ∧ existsb (λ x, negb (char_eqb x DOT)) stem = true)
  ∧ (splitext file).1 ++ (splitext file).2 = file.
Proof.
  intros Hsep. destruct (rfind1_split DOT file) as [Hd | (a & b & -> & Hb)].
  - rewrite splitext_no_dot by done. cbn [fst snd]. split; [|apply app_nil_r].
    split; [done|]. intros (stem & -> & _). exfalso. apply Hd.
    apply elem_of_app. right. by left.
  - rewrite splitext_name by done.
    destruct (existsb _ a) eqn:Ha; cbn [fst snd].
    + split; [|done]. split.
      * intros [= ->]. by exists a.
      * intros (stem & Hs & _).
        change (U ".cs") with (DOT :: U "cs") in Hs |- *.
        assert (Hcs : DOT ∉ U "cs").
        { apply (bool_decide_unpack _). vm_compute. exact I. }
        assert (Hl : S (length a) = S (length stem)).
        { rewrite <- (rfind1_last DOT a b Hb), Hs. by apply rfind1_last. }
        injection Hl as Hl.
        apply app_inj_1 in Hs as [_ Hs]; [|done]. by injection Hs as ->.
    + split; [|apply app_nil_r]. split; [done|].
      intros (stem & Hs & Hstem).
      change (U ".cs") with (DOT :: U "cs") in Hs.
      assert (Hcs : DOT ∉ U "cs").
      { apply (bool_decide_unpack _). vm_compute. exact I. }
      assert (Hl : S (length a) = S (length stem)).
      { rewrite <- (rfind1_last DOT a b Hb), Hs. by apply rfind1_last. }
      injection Hl as Hl.
      apply app_inj_1 in Hs as [-> _]; [|done]. congruence.
Qed.

(** [Program.cs] is a C# source; [.cs] and [..cs] are not. *)
Lemma generic_branch_names_witness :
  (splitext (U "Program.cs")).2 = U ".cs"
  ∧ (splitext (U "..cs")).2 ≠ U ".cs".
Proof.
  assert (H1 : SEP ∉ U "Program.cs")
    by (apply (bool_decide_unpack _); vm_compute; exact I).
  assert (H2 : SEP ∉ U "..cs")
    by (apply (bool_decide_unpack _); vm_compute; exact I).
  split.
  - apply (proj1 (generic_branch_names (U "Program.cs") H1)).
    exists (U "Program"). split; [reflexivity|]. vm_compute. reflexivity.
  - intros H. apply (proj1 (generic_branch_names (U "..cs") H2)) in H
      as (stem & Hs & Hstem).
    destruct stem as [|x [|y stem]]; [done| |].
    + injection Hs as <-. done.
    + injection Hs as <- <- Hs. destruct stem; [done|].
      injection Hs as _ Hs. by destruct stem as [|? [|? [|? ?]]].
Defined.

(** ** Files the run leaves alone *)

Section Frames.
Context (P : list N → Prop).

Lemma frames_ret {A} (a : A) : frames P (ret a).
Proof. by intros w p _. Qed.

Lemma frames_lift {A} (r : result A) : frames P (lift r).
Proof. by intros w p _. Qed.

Lemma frames_bind {A B} (m : M A) (f : A → M B) :
  frames P m → (∀ a, frames P (f a)) → frames P (bind m f).
Proof.
  intros Hm Hf w p Hp. unfold bind. specialize (Hm w p Hp).
  destruct (m w) as [[a|e] w1]; [|done].
  cbn [snd] in Hm. by rewrite (Hf a w1 p Hp).
Qed.

Lemma frames_try_except {A} (body handler : M A) (cls : exn) :
  frames P body → frames P handler → frames P (try_except body cls handler).
Proof.
  intros Hb Hh w p Hp. unfold try_except. specialize (Hb w p Hp).
  destruct (body w) as [[a|e] w1]; [done|]. cbn [snd] in Hb.
  case_bool_decide; [|done]. by rewrite (Hh w1 p Hp).
Qed.

Lemma frames_for_each {A} (l : list A) (body : A → M unit) :
  (∀ x, x ∈ l → frames P (body x)) → frames P (for_each l body).
Proof.
  induction l as [|x l IH]; intros H; cbn [for_each].
  - apply frames_ret.
  - apply frames_bind.
    + apply H. by left.
    + intros _. apply IH. intros y Hy. apply H. by right.
Qed.

Lemma frames_print (line : str) : frames P (print line).
Proof. by intros w p _. Qed.

Lemma frames_input (prompt : str) : frames P (input prompt).
Proof. intros w p _. unfold input. by destruct (stdin w). Qed.

Lemma frames_read_content (pf : platform) (path : str) :
  frames P (read_content pf path).
Proof.
  intros w p _. rewrite read_content_default. unfold read_file.
  destruct (files w !! path) as [bs|]; [|done].
  by destruct (decode _ bs).
Qed.

Lemma frames_write_content (pf : platform) (path content : str) :
  P path → frames P (write_content pf path content).
Proof.
  intros Hpath w p Hp. assert (p ≠ path) by by intros ->.
  unfold write_content, try_except, write_file.
  destruct (encode (codec_of pf Default) _).
  - cbn [snd store files emit]. by rewrite !lookup_insert_ne.
  - rewrite bool_decide_eq_true_2 by done.
    destruct (encode (codec_of pf Utf8) _);
      cbn [snd store files emit]; by rewrite !lookup_insert_ne.
Qed.
End Frames.

Lemma frames_apply_rules (P : list N → Prop) (pf : platform)
    (rules : list (str * str)) (path content : str) :
  P path → frames P (apply_rules pf rules path content).
Proof.
  intros Hpath. revert content.
  induction rules as [|[search repl] rules IH]; intros content; cbn [apply_rules].
  - apply frames_ret.
  - apply frames_bind; [apply frames_lift|]. intros content'.
    apply frames_bind; [apply frames_lift|]. intros found.
    apply frames_bind.
    { destruct found; [apply frames_print | apply frames_ret]. }
    intros _. apply frames_bind; [by apply frames_write_content|].
    intros _. apply IH.
Qed.

Lemma frames_process_file (P : list N → Prop) (pf : platform)
    (W root file : str) :
  (file = U "Extensions.cs" ∨ (splitext file).2 = U ".cs" →
   P (join root file)) →
  frames P (process_file pf W root file).
Proof.
  intros H. unfold process_file, str_eqb.
  case_bool_decide as H1; [|case_bool_decide as H2].
  - unfold targeted_rewrite.
    apply frames_bind; [apply frames_read_content|]. intros content.
    apply frames_bind; [apply frames_lift|]. intros content'.
    apply frames_bind; [apply frames_print|].
    intros _. apply frames_write_content. apply H. by left.
  - unfold generic_substitution.
    apply frames_bind; [apply frames_read_content|]. intros content.
    apply frames_apply_rules. apply H. by right.
  - apply frames_ret.
Qed.

(** X20.  A run leaves the content of a file untouched unless
    the walk lists it under the name Extensions.cs or with the extension
    .cs: every path that is not that of such a file holds the same bytes
    after the run as before. *)
Theorem unlisted_files_keep_their_content (pf : platform) (w : world)
    (p : str) :
  (∀ entry file,
     entry ∈ walked pf w → file ∈ entry.2 →
     file = U "Extensions.cs" ∨ (splitext file).2 = U ".cs" →
     p ≠ join entry.1.1 file) →
  files (main pf w).2 !! p = files w !! p.
Proof.
  intros H. rewrite main_input. destruct (stdin w) as [|line rest]; [done|].
  set (w' := next_line (emit (EvInput PROMPT) w)).
  change (files w) with (files w').
  set (P := λ path : str,
         ∃ entry file, entry ∈ walked pf w ∧ file ∈ entry.2
           ∧ (file = U "Extensions.cs" ∨ (splitext file).2 = U ".cs")
           ∧ path = join entry.1.1 file).
  assert (HP : ¬ P p).
  { intros (entry & file & He & Hf & Hcs & ->). by apply (H entry file). }
  unfold patch, bind, os_walk.
  change (walked pf w') with (walked pf w).
  apply (frames_for_each P); [|done]. intros entry He.
  apply frames_for_each. intros file Hf.
  apply frames_process_file. intros Hcs. by exists entry, file.
Qed.

(** The run rewrites [A.cs]; [README.md], whose text a rule would match,
    keeps its bytes. *)
Lemma unlisted_files_keep_their_content_witness :
  files (main (posix_ascii (U "/repo")) world2).2
    !! U "/repo/Il2CppInspector.Common/README.md"
  = Some (B "a-zA-Z")
  ∧ files (main (posix_ascii (U "/repo")) world2).2
      !! U "/repo/Il2CppInspector.Common/A.cs"
    = Some (B "s = 'a-zA-ZXYZ';").
Proof.
  split; [|vm_compute; reflexivity].
  rewrite (unlisted_files_keep_their_content (posix_ascii (U "/repo")) world2
             (U "/repo/Il2CppInspector.Common/README.md")).
  - vm_compute. reflexivity.
  - assert (H : Forall (λ entry : str * list str * list str,
                  Forall (λ file,
                    file = U "Extensions.cs" ∨ (splitext file).2 = U ".cs" →
                    U "/repo/Il2CppInspector.Common/README.md"
                    ≠ join entry.1.1 file) entry.2)
                (walked (posix_ascii (U "/repo")) world2)).
    { apply (bool_decide_unpack _). vm_compute. exact I. }
    intros entry file He Hf. rewrite Forall_forall in H.
    specialize (H entry He). rewrite Forall_forall in H. by apply H.
Defined.

(** ** Where the run reads and writes *)

Lemma dirtree_induction (P : dirtree → Prop) :
  (∀ name files subdirs, Forall P subdirs → P (Dir name files subdirs)) →
  ∀ t, P t.
Proof.
  intros H. fix IH 1. intros [name files subdirs]. apply H.
  induction subdirs as [|d ds IHds]; constructor; [apply IH|exact IHds].
Qed.

Lemma join_plain (a b : str) :
  plain_name b = true → a `prefix_of` join a b.
Proof.
  unfold plain_name, join. intros H%negb_true_iff. rewrite H.
  destruct (_ || _); [by exists b | by exists (SEP :: b)].
Qed.

Lemma walk_under_top (t : dirtree) (top : str) :
  plain_names t = true →
  Forall (λ entry : str * list str * list str,
            top `prefix_of` entry.1.1
            ∧ Forall (λ file, plain_name file = true) entry.2)
         (walk top t).
Proof.
  revert top. induction t as [name files subdirs IH] using dirtree_induction.
  intros top. cbn [plain_names walk]. intros [Hf Hd]%andb_true_iff.
  constructor.
  - cbn [fst snd]. split; [done|]. apply Forall_forall. intros file Hin.
    rewrite forallb_forall in Hf. apply Hf. by apply list_elem_of_In.
  - apply Forall_bind. rewrite Forall_forall in IH.
    apply Forall_forall. intros d Hin.
    assert (Hd' : plain_name (dir_name d) && plain_names d = true).
    { rewrite forallb_forall in Hd. apply Hd. by apply list_elem_of_In. }
    apply andb_true_iff in Hd' as [Hn Hs].
    specialize (IH d Hin (join top (dir_name d)) Hs).
    eapply Forall_impl; [exact IH|]. intros entry [Hp Hfiles]. split; [|done].
    etrans; [|exact Hp]. by apply join_plain.
Qed.

(** X21.  A run opens nothing outside the directory it walks: when
    the names the listing gives do not begin with a separator, every path
    that is read or written begins with the path of Il2CppInspector.Common
    beside the script. *)
Theorem run_stays_under_top (pf : platform) (w : world) :
  (∀ t, dirs w (TOP pf) = Some t → plain_names t = true) →
  ∃ evs, trace (main pf w).2 = trace w ++ EvInput PROMPT :: evs
         ∧ ∀ path,
             ((∃ enc, EvRead path enc ∈ evs)
              ∨ (∃ enc text, EvWrite path enc text ∈ evs)) →
             TOP pf `prefix_of` path.
Proof.
  intros Hplain. destruct (main_events pf w) as (evs & H & HQ).
  exists evs. split; [done|]. rewrite Forall_forall in HQ.
  assert (Hlisted : ∀ path,
    (∃ entry file, entry ∈ walked pf w ∧ file ∈ entry.2
       ∧ path = join entry.1.1 file
       ∧ (file = U "Extensions.cs" ∨ (splitext file).2 = U ".cs")) →
    TOP pf `prefix_of` path).
  { intros path (entry & file & He & Hf & -> & _).
    unfold walked in He. destruct (dirs w (TOP pf)) as [t|] eqn:Ht;
      [|by apply elem_of_nil in He].
    pose proof (walk_under_top t (TOP pf) (Hplain t eq_refl)) as Hall.
    rewrite Forall_forall in Hall. destruct (Hall entry He) as [Hp Hfiles].
    rewrite Forall_forall in Hfiles.
    etrans; [exact Hp|]. apply join_plain. by apply Hfiles. }
  intros path [(enc & Hin) | (enc & text & Hin)];
    apply Hlisted; by apply HQ in Hin.
Qed.

Lemma run_stays_under_top_witness :
  ∃ evs, trace (main (posix_ascii (U "/repo")) world2).2
         = trace world2 ++ EvInput PROMPT :: evs
         ∧ ∀ path,
             ((∃ enc, EvRead path enc ∈ evs)
              ∨ (∃ enc text, EvWrite path enc text ∈ evs)) →
             U "/repo/Il2CppInspector.Common" `prefix_of` path.
Proof.
  apply (run_stays_under_top (posix_ascii (U "/repo")) world2).
  intros t Ht.
  assert (E : dirs world2 (TOP (posix_ascii (U "/repo"))) = Some tree2)
    by (vm_compute; reflexivity).
  rewrite E in Ht. injection Ht as <-. vm_compute. reflexivity.
Defined.

(** ** How a run can end *)

Section Raises.
Context (S : exn → Prop).

Lemma raises_ret {A} (a : A) : raises S (ret a).
Proof. by intros w. Qed.

Lemma raises_bind {A B} (m : M A) (f : A → M B) :
  raises S m → (∀ a, raises S (f a)) → raises S (bind m f).
Proof.
  intros Hm Hf w. unfold bind. specialize (Hm w).
  destruct (m w) as [[a|e] w1]; [apply Hf|done].
Qed.

Lemma raises_try_except {A} (body handler : M A) (cls : exn) :
  raises S body → raises S handler → raises S (try_except body cls handler).
Proof.
  intros Hb Hh w. unfold try_except. specialize (Hb w).
  destruct (body w) as [[a|e] w1]; [done|].
  case_bool_decide; [apply Hh|done].
Qed.

Lemma raises_for_each {A} (l : list A) (body : A → M unit) :
  (∀ x, raises S (body x)) → raises S (for_each l body).
Proof.
  intros H. induction l as [|x l IH]; cbn [for_each].
  - apply raises_ret.
  - apply raises_bind; [apply H|]. by intros _.
Qed.

Lemma raises_lift {A} (r : result A) :
  match r with Ret _ => True | Raise e => S e end → raises S (lift r).
Proof. by intros H w. Qed.
End Raises.

Lemma raises_read_content (pf : platform) (W path : str) :
  raises (patch_exception W) (read_content pf path).
Proof.
  intros w. rewrite read_content_default. unfold read_file.
  destruct (files w !! path) as [bs|];
    [destruct (decode _ bs)|]; cbn [fst]; [done| |];
    (split; [auto 10|done]).
Qed.

Lemma raises_write_content (pf : platform) (W path content : str) :
  raises (patch_exception W) (write_content pf path content).
Proof.
  apply raises_try_except; intros w; unfold write_file;
    (destruct (encode _ _); cbn [fst]; [done|]);
    (split; [auto 10|done]).
Qed.

Lemma raises_rule (W : str) (single : bool) (s : str) :
  match re_sub (rule W single).1 (rule W single).2 s with
  | Ret _ => True
  | Raise e => patch_exception W e
  end.
Proof.
  cbn [rule fst snd]. rewrite re_sub_quoted. unfold pattern_sub.
  change (groups (quoted (quote_of single))) with 3.
  destruct (compiles 3 (rule_template W single)) eqn:Hc.
  - unfold compiles in Hc. by destruct (parse_template 3 _).
  - rewrite compiles_rule_template in Hc.
    apply orb_false_iff in Hc as [Hd Ho]. apply negb_false_iff in Hd.
    assert (HS : patch_exception W ReError) by (split; [auto 10|done]).
    destruct W as [|d1 W']; [done|]. cbn [leading_digit] in Hd.
    rewrite parse_rule_template_digit by done.
    destruct W' as [|d2 W'']; cbn [rbind]; [done|].
    cbn [octal_pair] in Ho. by rewrite Ho.
Qed.

Lemma raises_process_file (pf : platform) (W root file : str) :
  raises (patch_exception W) (process_file pf W root file).
Proof.
  unfold process_file.
  destruct (str_eqb file (U "Extensions.cs"));
    [|destruct (str_eqb (splitext file).2 (U ".cs"))].
  - unfold targeted_rewrite.
    apply raises_bind; [apply raises_read_content|]. intros content.
    apply raises_bind.
    { apply raises_lift. by rewrite re_sub_declaration. }
    intros content'. apply raises_bind; [by intros w|].
    intros _. apply raises_write_content.
  - unfold generic_substitution.
    apply raises_bind; [apply raises_read_content|]. intros content.
    unfold FIND. cbn [apply_rules].
    apply raises_bind; [apply raises_lift, (raises_rule W false)|].
    intros c1. apply raises_bind.
    { apply raises_lift. by rewrite (re_findall_any_quoted false). }
    intros f1. apply raises_bind; [destruct f1; by intros w|].
    intros _. apply raises_bind; [apply raises_write_content|].
    intros _.
    apply raises_bind; [apply raises_lift, (raises_rule W true)|].
    intros c2. apply raises_bind.
    { apply raises_lift. by rewrite (re_findall_any_quoted true). }
    intros f2. apply raises_bind; [destruct f2; by intros w|].
    intros _. apply raises_bind; [apply raises_write_content|].
    intros _. apply raises_ret.
  - apply raises_ret.
Qed.

Lemma raises_patch (pf : platform) (W : str) :
  raises (patch_exception W) (patch pf W).
Proof.
  unfold patch. apply raises_bind; [by intros w'|].
  intros entries. apply raises_for_each. intros entry.
  apply raises_for_each. intros file. apply raises_process_file.
Qed.

(** X22.  How a run can end.  It raises [EOFError] exactly when
    standard input holds no line.  It raises [re.error] only on a whitelist
    that begins with a digit and not with two octal digits.  In the world
    of this model, where a file can only be missing, undecodable or
    unencodable, those two, [FileNotFoundError], [UnicodeDecodeError] and
    [UnicodeEncodeError] are the only exceptions a run ends with: no
    library behaviour the model leaves out is reached. *)
Theorem run_failure_modes (pf : platform) (w : world) :
  ((main pf w).1 = Raise EOFError ↔ stdin w = [])
  ∧ ((main pf w).1 = Raise ReError →
     ∃ W rest, stdin w = W :: rest
               ∧ leading_digit W = true ∧ octal_pair W = false)
  ∧ (∀ e, (main pf w).1 = Raise e →
          e = EOFError ∨ e = FileNotFoundError ∨ e = UnicodeDecodeError
          ∨ e = UnicodeEncodeError ∨ e = ReError).
Proof.
  rewrite main_input. destruct (stdin w) as [|W rest].
  - split_and!; [done|done|]. intros e [= <-]. by left.
  - pose proof (raises_patch pf W (next_line (emit (EvInput PROMPT) w))) as H.
    destruct (patch pf W _).1 as [|e]; [by split_and!|].
    destruct H as [Hcase Hre]. split_and!.
    + split; [|done]. intros [= ->].
      by destruct Hcase as [?|[?|[?|?]]].
    + intros [= ->]. exists W, rest. split; [done|]. by apply Hre.
    + intros e' [= <-]. by right.
Qed.

(** The whitelist [1] on a tree with one C# source: the run ends with
    [re.error], and the whitelist begins with a digit. *)
Lemma run_failure_modes_witness :
  let w := {| files := files world2; dirs := dirs world2;
              stdin := [U "1"]; trace := [] |} in
  (main (posix_ascii (U "/repo")) w).1 = Raise ReError
  ∧ ∃ W rest, stdin w = W :: rest
              ∧ leading_digit W = true ∧ octal_pair W = false.
Proof.
  intros w.
  assert (H : (main (posix_ascii (U "/repo")) w).1 = Raise ReError)
    by (vm_compute; reflexivity).
  split; [done|].
  exact (proj1 (proj2 (run_failure_modes (posix_ascii (U "/repo")) w)) H).
Defined.

(** ** What the Generic Substitution leaves in the file *)

Lemma write_content_written (pf : platform) (path content : str) (w : world) :
  (write_content pf path content w).1 = Ret tt →
  ∃ bs, files (write_content pf path content w).2 !! path = Some bs
        ∧ (encode (default_codec pf) (write_newlines (linesep pf) content)
           = Some bs
           ∨ (encode (default_codec pf) (write_newlines (linesep pf) content)
              = None
              ∧ utf8_encode (write_newlines (linesep pf) content) = Some bs)).
Proof.
  unfold write_content, try_except, write_file. cbn [codec_of utf8_codec encode].
  destruct (encode (default_codec pf) _) as [bs|] eqn:E1.
  - intros _. exists bs. cbn [snd store files emit].
    rewrite lookup_insert_eq. auto.
  - rewrite bool_decide_eq_true_2 by done.
    destruct (utf8_encode _) as [bs|] eqn:E2; [|done].
    intros _. exists bs. cbn [snd store files emit].
    rewrite lookup_insert_eq. auto.
Qed.

Lemma print_if (b : bool) (line : str) (w : world) :
  ∃ w', (if b then print line else ret tt) w = (Ret tt, w').
Proof. destruct b; by eexists. Qed.

(** X23.  The Generic Substitution applies both rules in the
    order of [FIND], the second to the result of the first.  When it ends
    normally, the file holds the content after both rules, in the default
    encoding when that encoding can encode it and in UTF-8 otherwise; the
    intermediate write after the first rule is overwritten. *)
Theorem generic_substitution_final_content (pf : platform)
    (W path : str) (bs : list byte) (t c1 c2 : str) (w : world) :
  files w !! path = Some bs → decode (default_codec pf) bs = Some t →
  re_sub (rule W false).1 (rule W false).2 (universal_newlines t) = Ret c1 →
  re_sub (rule W true).1 (rule W true).2 c1 = Ret c2 →
  (generic_substitution pf W path w).1 = Ret tt →
  ∃ bs', files (generic_substitution pf W path w).2 !! path = Some bs'
         ∧ (encode (default_codec pf) (write_newlines (linesep pf) c2)
            = Some bs'
            ∨ (encode (default_codec pf) (write_newlines (linesep pf) c2)
               = None
               ∧ utf8_encode (write_newlines (linesep pf) c2) = Some bs')).
Proof.
  intros Hf Hd H1 H2. cbn [rule fst snd] in H1, H2.
  unfold generic_substitution, FIND. cbn [apply_rules rule].
  unfold bind, lift.
  rewrite (read_content_decoded pf path bs t) by done.
  rewrite H1, (re_findall_any_quoted false).
  destruct (print_if (pattern_findall_any (quoted (quote_of false)) c1)
              (SUCCESS path) (emit (EvRead path Default) w)) as [w1 E1].
  rewrite E1.
  destruct (write_content pf path c1 w1) as [[[]|e] w2] eqn:Ew1; [|done].
  rewrite H2, (re_findall_any_quoted true).
  destruct (print_if (pattern_findall_any (quoted (quote_of true)) c2)
              (SUCCESS path) w2) as [w3 E3].
  rewrite E3.
  pose proof (write_content_written pf path c2 w3) as Hw.
  destruct (write_content pf path c2 w3) as [[[]|e] w4] eqn:Ew2; [|done].
  intros _. by apply Hw.
Qed.

(** Both rules on one line: the double-quoted literal is rewritten by the
    first rule, the single-quoted one by the second, on the result of the
    first. *)
Lemma generic_substitution_final_content_witness :
  let before := U "x = " ++ DQ "a-zA-Z" ++ U " + 'A-Za-z';" in
  let after := U "x = " ++ DQ "a-zA-Z_" ++ U " + 'A-Za-z_';" in
  let w0 := world0 {[ U "f.cs" := ascii_bytes before ]} in
  ∃ bs', files (generic_substitution (posix_ascii []) (U "_") (U "f.cs") w0).2
           !! U "f.cs" = Some bs'
         ∧ (ascii_encode after = Some bs'
            ∨ (ascii_encode after = None ∧ utf8_encode after = Some bs')).
Proof.
  intros before after w0.
  apply (generic_substitution_final_content (posix_ascii []) (U "_")
           (U "f.cs") (ascii_bytes before) before
           (U "x = " ++ DQ "a-zA-Z_" ++ U " + 'A-Za-z';") after w0).
  - vm_compute. reflexivity.
  - vm_compute. reflexivity.
  - vm_compute. reflexivity.
  - vm_compute. reflexivity.
  - vm_compute. reflexivity.
Defined.
